(** * aqar-scraper: the extraction pipeline and the job runner

    A shallow embedding of [server.js].

    - The extractor that [page.evaluate] runs in the page: the two regular
      expressions as matchers on UTF-16 code units, the junk filter, the
      record that is built.
    - The deduplication through a JavaScript [Map].
    - [runScraper] as a program in a small monad of state and exceptions.
      The state is the job store together with a trace of what happened;
      the browser is a script of answers, one for every awaited call.
    - The handlers of [POST /scrape], [GET /job/:jobId] and [GET /jobs],
      and [generateJobId].

    The properties follow the model: the price pattern against a
    declarative description of its tokens, the deduplication, and the
    life of a job in the store as polls see it. *)

From Stdlib Require Import ZArith Lia String Ascii DecimalString DecimalN.
From stdpp Require Import gmap list sorting.

Local Open Scope Z_scope.

(** * The model

    ** JavaScript strings

    A JavaScript string is a sequence of UTF-16 code units; [substring],
    [includes], [split] and the regular expressions (without the [u] flag)
    all work on code units. *)

Abbreviation jsstring := (list N).

(** An ASCII literal as a JavaScript string. *)
Definition lit (s : string) : jsstring :=
  map N_of_ascii (list_ascii_of_string s).

(** [[0-9]] *)
Definition is_digit (c : N) : bool := ((48 <=? c) && (c <=? 57))%N.

(** [\s] of ECMAScript: WhiteSpace and LineTerminator code units. *)
Definition is_space (c : N) : bool :=
  ((9 <=? c) && (c <=? 13) || (c =? 32) || (c =? 160) || (c =? 5760)
   || (8192 <=? c) && (c <=? 8202) || (c =? 8232) || (c =? 8233)
   || (c =? 8239) || (c =? 8287) || (c =? 12288) || (c =? 65279))%N.

Definition COMMA : N := 44.
Definition DOT : N := 46.
Definition LF : N := 10.

(** ['عقارات في'], the phrase of the category links. *)
Definition CATEGORY_MARKER : jsstring :=
  [1593; 1602; 1575; 1585; 1575; 1578; 32; 1601; 1610]%N.

(** ['م²'], the unit of the area. *)
Definition SQUARE_METRES : jsstring := [1605; 178]%N.

Definition NOT_AVAILABLE : jsstring := lit "N/A".

(** [s.startsWith(p)] *)
Fixpoint starts_with (p s : jsstring) : bool :=
  match p, s with
  | [], _ => true
  | _ :: _, [] => false
  | a :: p', b :: s' => (a =? b)%N && starts_with p' s'
  end.

(** [s.includes(p)] *)
Fixpoint includes (p s : jsstring) : bool :=
  starts_with p s ||
  match s with
  | [] => false
  | _ :: s' => includes p s'
  end.

(** The longest prefix of code units satisfying [f], and what follows it:
    what a greedy [[...]*] consumes. *)
Fixpoint span (f : N -> bool) (s : jsstring) : jsstring * jsstring :=
  match s with
  | [] => ([], [])
  | c :: s' =>
      if f c then let (m, r) := span f s' in (c :: m, r) else ([], s)
  end.

(** ** The price pattern
    [/[0-9]{1,3}(?:,[0-9]{3})+(?:\.[0-9]+)?/] *)

(** [(?:,[0-9]{3})*], greedy: the groups consumed and the rest. *)
Fixpoint comma_groups (s : jsstring) : jsstring * jsstring :=
  match s with
  | c :: d1 :: d2 :: d3 :: s' =>
      if (c =? COMMA)%N && is_digit d1 && is_digit d2 && is_digit d3
      then let (m, r) := comma_groups s' in (c :: d1 :: d2 :: d3 :: m, r)
      else ([], s)
  | _ => ([], s)
  end.

(** [(?:\.[0-9]+)?], greedy: the decimal suffix consumed (maybe empty). *)
Definition decimal_suffix (s : jsstring) : jsstring :=
  match s with
  | c :: s' =>
      if (c =? DOT)%N
      then match span is_digit s' with
           | ([], _) => []
           | (ds, _) => c :: ds
           end
      else []
  | [] => []
  end.

(** The pattern anchored at the head of [s], with exactly [k] leading
    digits.  After the groups nothing can fail any more, so the greedy
    choices for the groups and the suffix are final. *)
Definition price_at_with (k : nat) (s : jsstring) : option jsstring :=
  let lead := take k s in
  if (length lead =? k)%nat && forallb is_digit lead then
    match comma_groups (drop k s) with
    | ([], _) => None
    | (groups, rest) => Some (lead ++ groups ++ decimal_suffix rest)
    end
  else None.

(** [{1,3}] is greedy: three leading digits are tried first, then the
    matcher backtracks to two, then to one. *)
Definition price_at (s : jsstring) : option jsstring :=
  match price_at_with 3 s with
  | Some m => Some m
  | None =>
      match price_at_with 2 s with
      | Some m => Some m
      | None => price_at_with 1 s
      end
  end.

(** [text.match(/.../)]: the leftmost position where the pattern matches;
    the result is [priceMatch[0]], [None] is [null]. *)
Fixpoint price_match (text : jsstring) : option jsstring :=
  match price_at text with
  | Some m => Some m
  | None =>
      match text with
      | [] => None
      | _ :: text' => price_match text'
      end
  end.

(** ** The area pattern  [/([0-9]+)\s*م²/]

    Anchored at the head of [s]: the digits and the white space are taken
    greedily; giving one back leaves a digit or a space where the next
    piece of the pattern wants something else, so backtracking never finds
    another match at the same position.  The result is the capture group. *)
Definition area_at (s : jsstring) : option jsstring :=
  match span is_digit s with
  | ([], _) => None
  | (ds, r) =>
      if starts_with SQUARE_METRES (snd (span is_space r)) then Some ds
      else None
  end.

Fixpoint area_match (text : jsstring) : option jsstring :=
  match area_at text with
  | Some g => Some g
  | None =>
      match text with
      | [] => None
      | _ :: text' => area_match text'
      end
  end.

(** ** The extractor *)

Record ListingRecord := mkListing {
  title : jsstring;
  price : jsstring;
  area : jsstring;
  link : jsstring
}.

Global Instance ListingRecord_eq_dec : EqDecision ListingRecord.
Proof. solve_decision. Defined.

(** What the extraction reads of an [<a>] element: [link.innerText], the
    [innerText] of [link.querySelector('h3, h4')] when there is such a
    heading, and [link.href]. *)
Record Anchor := mkAnchor {
  innerText : jsstring;
  heading : option jsstring;
  href : jsstring
}.

(** [text.split('\n')[0].substring(0, 100)] *)
Definition first_line_100 (text : jsstring) : jsstring :=
  take 100 (fst (span (fun c => negb (c =? LF)%N) text)).

(** [a || b] on strings: the empty string is falsy. *)
Definition or_else (a : option jsstring) (b : jsstring) : jsstring :=
  match a with
  | Some (c :: s) => c :: s
  | _ => b
  end.

(** The body of [links.map(link => ...)]; [None] is [null]. *)
Definition extract_anchor (a : Anchor) : option ListingRecord :=
  let text := innerText a in
  let priceMatch := price_match text in
  if includes CATEGORY_MARKER text then None
  else match priceMatch with
       | None => None
       | Some p =>
           Some {| title := or_else (heading a) (first_line_100 text);
                   price := p;
                   area := or_else (area_match text) NOT_AVAILABLE;
                   link := href a |}
       end.

(** [links.map(...).filter(item => item !== null)] *)
Definition extract_page (links : list Anchor) : list ListingRecord :=
  omap extract_anchor links.

(** ** The deduplication

    [new Map(entries)] inserts the entries in order; [Map.prototype.set] on
    a key already present replaces the value and keeps the key where it was
    first inserted; [values()] iterates in insertion order.  The keys are
    strings, compared by content. *)

Fixpoint Map_set (k : jsstring) (v : ListingRecord)
    (m : list (jsstring * ListingRecord)) : list (jsstring * ListingRecord) :=
  match m with
  | [] => [(k, v)]
  | (k', v') :: m' =>
      if decide (k' = k) then (k', v) :: m' else (k', v') :: Map_set k v m'
  end.

Definition Map_new (entries : list (jsstring * ListingRecord))
    : list (jsstring * ListingRecord) :=
  fold_left (fun m e => Map_set (fst e) (snd e) m) entries [].

Definition Map_values (m : list (jsstring * ListingRecord))
    : list ListingRecord :=
  map snd m.

(** [[...new Map(allListings.map(item => [item.link, item])).values()]] *)
Definition dedupe (allListings : list ListingRecord) : list ListingRecord :=
  Map_values (Map_new (map (fun item => (link item, item)) allListings)).

(** ** JavaScript values of the request body

    [limit_pages] arrives through [express.json()].  The values modelled
    are [undefined] (the field is absent), [null], the booleans and the
    integers; the interface gives the field as an integer. *)

Inductive JsValue :=
  | JUndefined
  | JNull
  | JBool (b : bool)
  | JNum (n : Z).

Global Instance JsValue_eq_dec : EqDecision JsValue.
Proof. solve_decision. Defined.

(** ToBoolean *)
Definition truthy (v : JsValue) : bool :=
  match v with
  | JUndefined | JNull => false
  | JBool b => b
  | JNum n => negb (n =? 0)
  end.

(** [a || b] *)
Definition js_or (a b : JsValue) : JsValue := if truthy a then a else b.

(** ToNumber; [None] is [NaN]. *)
Definition ToNumber (v : JsValue) : option Z :=
  match v with
  | JUndefined => None
  | JNull => Some 0
  | JBool b => Some (if b then 1 else 0)
  | JNum n => Some n
  end.

(** [i < v] and [i <= v] for a number [i]: false when [v] is [NaN]. *)
Definition js_lt (i : Z) (v : JsValue) : bool :=
  match ToNumber v with Some m => i <? m | None => false end.

Definition js_le (i : Z) (v : JsValue) : bool :=
  match ToNumber v with Some m => i <=? m | None => false end.

(** ** Number arithmetic

    The numbers of JavaScript are the doubles of IEEE 754 (binary64).  The
    integers at hand are doubles (below [2^53]) and are kept as integers;
    the one computation that leaves them is
    [Math.round((i / maxPages) * 100)], where the quotient and the product
    are each rounded to the nearest double, ties to even.  For the positive
    values below [2^52] that occur here a double is a significand [M] with
    [2^52 <= M <= 2^53] and a scale [s]; its value is [M / 2^s]. *)

(** Round half to even of the quotient [n / d], for [d > 0]. *)
Definition round_half_even (n d : Z) : Z :=
  let q := n / d in
  let r := n mod d in
  if 2 * r <? d then q
  else if d <? 2 * r then q + 1
  else if Z.even q then q else q + 1.

(** The scale of the positive quotient [n / d]: the [s] with
    [2^52 <= (n / d) * 2^s < 2^53]. *)
Definition scale (n d : Z) : Z :=
  let s0 := 52 + Z.log2 d - Z.log2 n in
  if 2 ^ 52 * d <=? n * 2 ^ s0 then s0 else s0 + 1.

(** The double nearest to [n / d], as a significand [M] of 53 bits and a
    scale [s]: the double is [M / 2^s]. *)
Definition to_double (n d : Z) : Z * Z :=
  let s := scale n d in (round_half_even (n * 2 ^ s) d, s).

(** [x / y] on two integers, [0 < x < 2^52 * y]. *)
Definition js_div (x y : Z) : Z * Z := to_double x y.

(** [x * k] for a double [x] and an integer [k > 0]. *)
Definition js_mul (x : Z * Z) (k : Z) : Z * Z :=
  to_double (fst x * k) (2 ^ snd x).

(** [Math.round(x)]: the integer nearest to [x], the larger one on a tie. *)
Definition Math_round (x : Z * Z) : Z :=
  (2 * fst x + 2 ^ snd x) / 2 ^ (snd x + 1).

(** [Math.round((i / m) * 100)], for [1 <= i <= m]. *)
Definition round_pct (i m : Z) : Z := Math_round (js_mul (js_div i m) 100).

(** The doubles are compared by cross multiplication. *)
Definition double_le (x y : Z * Z) : Prop :=
  fst x * 2 ^ snd y <= fst y * 2 ^ snd x.

(** [Math.round((i / maxPages) * 100)]; the loop only evaluates it under
    [i <= maxPages] with [i >= 1], where [maxPages] is a positive number. *)
Definition progress_of (i : Z) (maxPages : JsValue) : Z :=
  match ToNumber maxPages with
  | Some m => round_pct i m
  | None => 0
  end.

(** ** The job store *)

Inductive Status := queued | running | completed | failed.

Global Instance Status_eq_dec : EqDecision Status.
Proof. solve_decision. Defined.

(** The object literals passed to [jobs.set]; a field that a literal does
    not mention is [None] ([undefined] when read). [error] is [null] or the
    message. *)
Record Job := mkJob {
  status : Status;
  progress : Z;
  currentPage : option Z;
  totalPages : option JsValue;
  count : option Z;
  data : list ListingRecord;
  error : option jsstring;
  completedAt : option jsstring
}.

(** The awaited calls into Playwright. *)
Inductive BrowserCall :=
  | chromium_launch
  | browser_newPage
  | page_goto (url : jsstring)
  | page_waitForSelector
  | page_waitForTimeout (ms : Z)
  | page_evaluate
  | nextBtn_isVisible
  | nextBtn_click
  | browser_close.

Global Instance BrowserCall_eq_dec : EqDecision BrowserCall.
Proof. solve_decision. Defined.

(** What happens, in order: the synchronous [jobs.set(id, job)] and the
    points where the run is suspended on a browser call, which is where a
    [GET /job/:jobId] of another request can be served. *)
Inductive Event :=
  | ev_set (id : jsstring) (job : Job)
  | ev_await (call : BrowserCall).

(** [jobs] is the [Map] of the process; [trace] is a ghost record of the
    events so far. *)
Record World := mkWorld {
  jobs : gmap jsstring Job;
  trace : list Event
}.

Definition empty_world : World := {| jobs := ∅; trace := [] |}.

(** ** Asynchronous code: state and exceptions

    An [async] function is a function of the world that returns or throws.
    [console.log] and [console.error] only write to the log and do not
    throw; they are left out. *)

Inductive outcome (A : Type) :=
  | Returned (a : A)
  | Thrown (message : jsstring).
Arguments Returned {A} a.
Arguments Thrown {A} message.

Definition Async (A : Type) : Type := World -> outcome A * World.

Definition ret {A} (a : A) : Async A := fun w => (Returned a, w).

Definition bind {A B} (m : Async A) (k : A -> Async B) : Async B :=
  fun w =>
    match m w with
    | (Returned a, w') => k a w'
    | (Thrown e, w') => (Thrown e, w')
    end.

Notation "'let*' x ':=' m 'in' k" := (bind m (fun x => k))
  (at level 10, x name, m at level 100, k at level 200).

(** [try { body } catch (error) { handler(error.message) }] *)
Definition try_catch {A} (body : Async A) (handler : jsstring -> Async A)
    : Async A :=
  fun w =>
    match body w with
    | (Returned a, w') => (Returned a, w')
    | (Thrown e, w') => handler e w'
    end.

(** [try { body } finally { cleanup }]: the cleanup runs on both exits; if
    it throws, its exception replaces the result of the body. *)
Definition try_finally {A} (body : Async A) (cleanup : Async unit)
    : Async A :=
  fun w =>
    match body w with
    | (r, w') =>
        match cleanup w' with
        | (Returned _, w'') => (r, w'')
        | (Thrown e, w'') => (Thrown e, w'')
        end
    end.

(** [jobs.set(id, job)] *)
Definition jobs_set (id : jsstring) (job : Job) : Async unit :=
  fun w =>
    (Returned tt,
     {| jobs := <[id := job]> (jobs w);
        trace := trace w ++ [ev_set id job] |}).

(** [await call], the browser answering with [answer]. *)
Definition await {A} (call : BrowserCall) (answer : outcome A) : Async A :=
  fun w =>
    (answer, {| jobs := jobs w; trace := trace w ++ [ev_await call] |}).

(** ** The browser, as a script of answers

    Every awaited call settles: it returns or it throws.  The calls of the
    [i]-th turn of the loop are answered by [on_page i]. *)

Record PageAnswers := mkPage {
  waitForSelector_a : outcome unit;
  waitForTimeout_2000 : outcome unit;
  evaluate_links : outcome (list Anchor);
  isVisible_next : outcome bool;
  click_next : outcome unit;
  waitForTimeout_1500 : outcome unit
}.

Record Browser := mkBrowser {
  launch : outcome unit;
  newPage : outcome unit;
  goto : outcome unit;
  on_page : Z -> PageAnswers;
  close : outcome unit;
  now_ISO : jsstring
}.

(** ** [runScraper] *)

(** [{ status: 'queued', progress: 0, data: [], error: null }] *)
Definition job_queued : Job :=
  {| status := queued; progress := 0; currentPage := None;
     totalPages := None; count := None; data := []; error := None;
     completedAt := None |}.

(** [{ status: 'running', progress: 0, data: [], error: null }] *)
Definition job_started : Job :=
  {| status := running; progress := 0; currentPage := None;
     totalPages := None; count := None; data := []; error := None;
     completedAt := None |}.

(** The literal of the progress update of page [i]. *)
Definition job_on_page (i : Z) (maxPages : JsValue) : Job :=
  {| status := running; progress := progress_of i maxPages;
     currentPage := Some i; totalPages := Some maxPages; count := None;
     data := []; error := None; completedAt := None |}.

(** The literal of the completion. *)
Definition job_completed (uniqueListings : list ListingRecord)
    (now : jsstring) : Job :=
  {| status := completed; progress := 100; currentPage := None;
     totalPages := None;
     count := Some (Z.of_nat (length uniqueListings));
     data := uniqueListings; error := None; completedAt := Some now |}.

(** The literal of the [catch] block. *)
Definition job_failed (message : jsstring) : Job :=
  {| status := failed; progress := 0; currentPage := None;
     totalPages := None; count := None; data := [];
     error := Some message; completedAt := None |}.

(** The values [i] takes in [for (let i = 1; i <= maxPages; i++)] when no
    [break] is taken, the body never assigning [i]: the numbers from 1 on
    that pass the test [i <= maxPages]. *)
Definition page_numbers (maxPages : JsValue) : list Z :=
  match ToNumber maxPages with
  | Some m => seqZ 1 m
  | None => []
  end.

(** The turns of the loop for the page numbers [pages], with the listings
    gathered so far; the result is [allListings] when the loop is left. *)
Fixpoint scrape_pages (b : Browser) (jobId : jsstring) (maxPages : JsValue)
    (pages : list Z) (allListings : list ListingRecord)
    : Async (list ListingRecord) :=
  match pages with
  | [] => ret allListings
  | i :: pages' =>
      let p := on_page b i in
      let* _ := jobs_set jobId (job_on_page i maxPages) in
      let* _ := try_catch (await page_waitForSelector (waitForSelector_a p))
                          (fun _ => ret tt) in
      let* _ := await (page_waitForTimeout 2000) (waitForTimeout_2000 p) in
      let* links := await page_evaluate (evaluate_links p) in
      let pageListings := extract_page links in
      let allListings := allListings ++ pageListings in
      if js_lt i maxPages then
        let* visible := await nextBtn_isVisible (isVisible_next p) in
        if visible : bool then
          let* _ := await nextBtn_click (click_next p) in
          let* _ := await (page_waitForTimeout 1500)
                          (waitForTimeout_1500 p) in
          scrape_pages b jobId maxPages pages' allListings
        else
          ret allListings
      else scrape_pages b jobId maxPages pages' allListings
  end.

(** The default of the parameter: [maxPages = 1] applies to [undefined]. *)
Definition default_maxPages (maxPages : JsValue) : JsValue :=
  match maxPages with
  | JUndefined => JNum 1
  | v => v
  end.

Definition runScraper (b : Browser) (jobId originUrl : jsstring)
    (maxPages : JsValue) : Async unit :=
  let maxPages := default_maxPages maxPages in
  let* _ := jobs_set jobId job_started in
  let* _ := await chromium_launch (launch b) in
  let* _ := await browser_newPage (newPage b) in
  try_finally
    (try_catch
       (let* _ := await (page_goto originUrl) (goto b) in
        let* allListings :=
          scrape_pages b jobId maxPages (page_numbers maxPages) [] in
        let uniqueListings := dedupe allListings in
        jobs_set jobId (job_completed uniqueListings (now_ISO b)))
       (fun message => jobs_set jobId (job_failed message)))
    (await browser_close (close b)).

(** ** The HTTP handlers *)

(** [runScraper(...)] called without [await]: the handler does not see how
    the run ends, a rejection of its promise is left unhandled.  The run is
    carried to its end here; the store is touched by nothing else for this
    job meanwhile. *)
Definition detached (run : Async unit) : Async unit :=
  fun w => (Returned tt, snd (run w)).

Inductive ScrapeResponse :=
  | BadRequest
  | JobStarted (jobId : jsstring).

(** [app.post('/scrape', ...)]: [originUrl] is absent or a string;
    [newId] is the result of [generateJobId()]. *)
Definition post_scrape (b : Browser) (newId : jsstring)
    (originUrl : option jsstring) (limit_pages : JsValue)
    : Async ScrapeResponse :=
  match originUrl with
  | None | Some [] => ret BadRequest
  | Some url =>
      let jobId := newId in
      let maxPages := js_or limit_pages (JNum 1) in
      let* _ := jobs_set jobId job_queued in
      let* _ := detached (runScraper b jobId url maxPages) in
      ret (JobStarted jobId)
  end.

(** The bodies that [GET /job/:jobId] sends. *)
Inductive JobResponse :=
  | NotFound
  | Pending (st : Status) (progress : Z) (currentPage : option Z)
      (totalPages : option JsValue)
  | Finished (st : Status) (progress : Z) (count : Z)
      (data : list ListingRecord) (error : option jsstring)
      (completedAt : option jsstring).

Definition respond (entry : option Job) : JobResponse :=
  match entry with
  | None => NotFound
  | Some job =>
      match status job with
      | running | queued =>
          Pending (status job) (progress job) (currentPage job)
                  (totalPages job)
      | _ =>
          Finished (status job) (progress job)
                   (match count job with
                    | Some c => if c =? 0 then 0 else c
                    | None => 0
                    end)
                   (data job) (error job) (completedAt job)
      end
  end.

(** [app.get('/job/:jobId', ...)] *)
Definition get_job (store : gmap jsstring Job) (jobId : jsstring)
    : JobResponse :=
  respond (store !! jobId).

(** ** The list of jobs

    [jobs] is a [Map]: [forEach] visits its entries in the order in which
    their keys were first set, and [set] on a key already present keeps the
    key where it is. *)

Fixpoint Jobs_set (id : jsstring) (job : Job) (m : list (jsstring * Job))
    : list (jsstring * Job) :=
  match m with
  | [] => [(id, job)]
  | (id', job') :: m' =>
      if decide (id' = id) then (id', job) :: m'
      else (id', job') :: Jobs_set id job m'
  end.

(** The entries of [jobs] in the order of [forEach], after the events [tr]
    on the entries [m]. *)
Fixpoint entries (tr : list Event) (m : list (jsstring * Job))
    : list (jsstring * Job) :=
  match tr with
  | [] => m
  | ev_set id job :: tr' => entries tr' (Jobs_set id job m)
  | ev_await _ :: tr' => entries tr' m
  end.

(** [app.get('/jobs', ...)]: one line [{ jobId, status, progress }] for
    every entry. *)
Definition get_jobs (m : list (jsstring * Job))
    : list (jsstring * Status * Z) :=
  map (fun e => (fst e, status (snd e), progress (snd e))) m.

(** ** Job identifiers *)

(** [String(n)] for an integer [n] from 0 to below [10^21]: its decimal
    digits. *)
Definition Number_toString (n : N) : jsstring :=
  lit (NilEmpty.string_of_uint (N.to_uint n)).

(** [s.substr(start, len)] *)
Definition substr (s : jsstring) (start len : nat) : jsstring :=
  take len (drop start s).

(** [generateJobId()], where [now] is [Date.now()], the milliseconds since
    1970, and [random36] is [Math.random().toString(36)]. *)
Definition generateJobId (now : N) (random36 : jsstring) : jsstring :=
  lit "job_" ++ Number_toString now ++ lit "_" ++ substr random36 2 9.

(** ** What polls can see

    A poll is served while the runs are suspended in an [await], or after
    they have ended. *)

(** [views jobId cur tr] lists, for the events [tr] replayed from a moment
    when the entry of [jobId] is [cur], the entry at every suspension and
    at the end. *)
Fixpoint views (jobId : jsstring) (cur : option Job) (tr : list Event)
    : list (option Job) :=
  match tr with
  | [] => [cur]
  | ev_set id job :: tr' =>
      views jobId (if decide (id = jobId) then Some job else cur) tr'
  | ev_await _ :: tr' => cur :: views jobId cur tr'
  end.

(** The records written to the entry of [jobId], in order. *)
Fixpoint writes (jobId : jsstring) (tr : list Event) : list Job :=
  match tr with
  | [] => []
  | ev_set id job :: tr' =>
      if decide (id = jobId) then job :: writes jobId tr'
      else writes jobId tr'
  | ev_await _ :: tr' => writes jobId tr'
  end.

(** The browser calls made, in order. *)
Fixpoint calls (tr : list Event) : list BrowserCall :=
  match tr with
  | [] => []
  | ev_set _ _ :: tr' => calls tr'
  | ev_await c :: tr' => c :: calls tr'
  end.

(** The store after the events [tr]. *)
Fixpoint replay (tr : list Event) (store : gmap jsstring Job)
    : gmap jsstring Job :=
  match tr with
  | [] => store
  | ev_set id job :: tr' => replay tr' (<[id := job]> store)
  | ev_await _ :: tr' => replay tr' store
  end.

(** A job from its submission on: the events of [POST /scrape]. *)
Definition job_trace (b : Browser) (jobId url : jsstring)
    (limit_pages : JsValue) : list Event :=
  trace (snd (post_scrape b jobId (Some url) limit_pages empty_world)).

(** The runs of different requests take turns at their [await]s:
    [interleaved t others tr] when [tr] shuffles the events [t] of one job
    with the events [others] of the rest, keeping the order of each. *)
Inductive interleaved : list Event -> list Event -> list Event -> Prop :=
  | interleaved_nil : interleaved [] [] []
  | interleaved_left e t others tr :
      interleaved t others tr -> interleaved (e :: t) others (e :: tr)
  | interleaved_right e t others tr :
      interleaved t others tr -> interleaved t (e :: others) (e :: tr).

(** One shuffle: the events of the two sides taken in turn. *)
Fixpoint alternate (t others : list Event) : list Event :=
  match t, others with
  | e :: t', o :: others' => e :: o :: alternate t' others'
  | [], _ => others
  | _, [] => t
  end.

(** The entries of [jobId] that successive polls find over the events
    [tr], the store being empty at first (a poll that finds no entry is
    answered [404] and left out). *)
Definition observed (jobId : jsstring) (tr : list Event) : list Job :=
  omap id (views jobId None tr).

(** The polls of a job that runs alone, from its submission on. *)
Definition polls (b : Browser) (jobId url : jsstring)
    (limit_pages : JsValue) : list Job :=
  observed jobId (job_trace b jobId url limit_pages).

(** * The vocabulary of the specification *)

(** [p] occurs in [text] as a contiguous piece. *)
Definition occurs_in (p text : jsstring) : Prop :=
  exists pre post, text = pre ++ p ++ post.

Definition digits (s : jsstring) : Prop :=
  Forall (fun c => is_digit c = true) s.

(** One or more segments of a comma and three digits. *)
Inductive thousands_groups : jsstring -> Prop :=
  | one_group d1 d2 d3 :
      digits [d1; d2; d3] -> thousands_groups [COMMA; d1; d2; d3]
  | more_groups d1 d2 d3 g :
      digits [d1; d2; d3] -> thousands_groups g ->
      thousands_groups (COMMA :: d1 :: d2 :: d3 :: g).

(** Nothing, or a dot and one or more digits. *)
Inductive decimal_part : jsstring -> Prop :=
  | no_decimals : decimal_part []
  | some_decimals ds : ds <> [] -> digits ds -> decimal_part (DOT :: ds).

(** A thousands-grouped numeric token: one to three leading digits, one or
    more comma-grouped segments of three digits, optionally a decimal
    suffix. *)
Definition price_token (t : jsstring) : Prop :=
  exists lead groups dec,
    t = lead ++ groups ++ dec /\
    (1 <= length lead <= 3)%nat /\ digits lead /\
    thousands_groups groups /\ decimal_part dec.

Definition has_price_token (text : jsstring) : Prop :=
  exists t, price_token t /\ occurs_in t text.

(** The links of a sequence in the order in which each is first seen. *)
Fixpoint first_seen (ks : list jsstring) : list jsstring :=
  match ks with
  | [] => []
  | k :: ks' => k :: filter (fun k' => k' <> k) (first_seen ks')
  end.

(** The last record of [l] whose link is [k]. *)
Definition last_with_link (k : jsstring) (l : list ListingRecord)
    : option ListingRecord :=
  last (filter (fun r => link r = k) l).

(** The records of [l] that stand at the first occurrence of their link,
    where they stand. *)
Fixpoint first_occurrences (l : list ListingRecord) : list ListingRecord :=
  match l with
  | [] => []
  | r :: l' => r :: filter (fun x => link x <> link r) (first_occurrences l')
  end.

(** The last record of [l] with the link of [r]. *)
Definition latest (l : list ListingRecord) (r : ListingRecord)
    : ListingRecord :=
  default r (last_with_link (link r) l).

(** Launching the browser and opening its page both went through. *)
Definition session_acquired (b : Browser) : Prop :=
  launch b = Returned tt /\ newPage b = Returned tt.

(** [completed] and [failed] are the terminal states. *)
Definition terminal (s : Status) : bool :=
  match s with
  | completed | failed => true
  | _ => false
  end.

(** A progress value within its interval. *)
Definition percent (p : Z) : Prop := 0 <= p <= 100.

(** Successive readings never go down. *)
Fixpoint non_decreasing (l : list Z) : Prop :=
  match l with
  | x :: (y :: _) as l' => x <= y /\ non_decreasing l'
  | _ => True
  end.

(** The statement of the specification about the progress of a job. *)
Definition progress_never_drops (b : Browser) (jobId url : jsstring)
    (limit_pages : JsValue) : Prop :=
  non_decreasing (map progress (polls b jobId url limit_pages)) /\
  Forall (fun j => percent (progress j)) (polls b jobId url limit_pages).

(** ** Pagination that stops early *)

(** The turn of page [i] gets through the settle delay and the
    evaluation. *)
Definition page_scraped (b : Browser) (i : Z) : Prop :=
  waitForTimeout_2000 (on_page b i) = Returned tt /\
  exists links, evaluate_links (on_page b i) = Returned links.

(** On page [i] the next-page control is visible and the click and the
    pause after it go through. *)
Definition next_taken (b : Browser) (i : Z) : Prop :=
  isVisible_next (on_page b i) = Returned true /\
  click_next (on_page b i) = Returned tt /\
  waitForTimeout_1500 (on_page b i) = Returned tt.

(** Pages [1 .. k] are scraped, the control is followed up to page [k],
    where it is not visible. *)
Definition stops_at (b : Browser) (k : Z) : Prop :=
  (forall i, 1 <= i < k -> page_scraped b i /\ next_taken b i) /\
  page_scraped b k /\
  isVisible_next (on_page b k) = Returned false.

(** What the extraction returns on page [i]. *)
Definition pageListings_of (b : Browser) (i : Z) : list ListingRecord :=
  match evaluate_links (on_page b i) with
  | Returned links => extract_page links
  | Thrown _ => []
  end.

(** The statement of the specification about [totalPages]: the final
    entry of the job is completed and its [totalPages] is the requested
    maximum. *)
Definition final_totalPages_is_requested (b : Browser) (jobId url : jsstring)
    (limit_pages : JsValue) : Prop :=
  exists job,
    jobs (snd (post_scrape b jobId (Some url) limit_pages empty_world))
      !! jobId = Some job /\
    status job = completed /\
    totalPages job = Some limit_pages.

(** * The vocabulary of the further properties

    ** The fields of a record *)

(** White space only. *)
Definition spaces (s : jsstring) : Prop :=
  Forall (fun c => is_space c = true) s.

(** [text] mentions the area [ds] after [pre]: digits, maybe white space,
    the unit. *)
Definition area_mention (text pre ds ws post : jsstring) : Prop :=
  text = pre ++ ds ++ ws ++ SQUARE_METRES ++ post /\
  ds <> [] /\ digits ds /\ spaces ws.

(** ** The pages of a run *)

(** The pages [1 .. m] are all scraped, the control is followed from each
    page before the last. *)
Definition traverses (b : Browser) (m : Z) : Prop :=
  (forall i, 1 <= i < m -> page_scraped b i /\ next_taken b i) /\
  page_scraped b m.

(** The turn of page [k] throws [message] at the settle delay or at the
    evaluation. *)
Definition page_throws (b : Browser) (k : Z) (message : jsstring) : Prop :=
  waitForTimeout_2000 (on_page b k) = Thrown message \/
  (waitForTimeout_2000 (on_page b k) = Returned tt /\
   evaluate_links (on_page b k) = Thrown message).

(** The calls of the turn of page [i] of [m] when nothing throws and the
    control is visible. *)
Definition page_calls (m i : Z) : list BrowserCall :=
  [page_waitForSelector; page_waitForTimeout 2000; page_evaluate]
  ++ (if i <? m
      then [nextBtn_isVisible; nextBtn_click; page_waitForTimeout 1500]
      else []).

(** The number of pages evaluated over the events [tr]. *)
Fixpoint evaluations (tr : list Event) : nat :=
  match tr with
  | [] => 0
  | ev_await page_evaluate :: tr' => S (evaluations tr')
  | _ :: tr' => evaluations tr'
  end.


(** [r] is what the extraction makes of an anchor that the browser shows
    on some page. *)
Definition scraped_from (b : Browser) (r : ListingRecord) : Prop :=
  exists i links a,
    evaluate_links (on_page b i) = Returned links /\
    a ∈ links /\ extract_anchor a = Some r.

(** ** Runs that take turns *)

(** A synchronous event: it does not suspend the run. *)
Definition synchronous (e : Event) : Prop :=
  match e with
  | ev_set _ _ => True
  | ev_await _ => False
  end.

(** The events [t] of one job shuffled with the events [others] of the
    other requests as the event loop does it: a run keeps the thread from
    one [await] to the next, so the other requests are served only while
    it is suspended, or before it has begun. *)
Inductive by_turns : list Event -> list Event -> list Event -> Prop :=
  | by_turns_nil : by_turns [] [] []
  | by_turns_other e t others tr :
      by_turns t others tr -> by_turns t (e :: others) (e :: tr)
  | by_turns_turn sync c t others tr :
      Forall synchronous sync -> by_turns t others tr ->
      by_turns (sync ++ ev_await c :: t) others (sync ++ ev_await c :: tr).

(** * Reasoning about runs *)

(** [Map.prototype.set] seen on the values of a map whose keys are the
    links of its values. *)
Fixpoint supersede (r : ListingRecord) (out : list ListingRecord)
    : list ListingRecord :=
  match out with
  | [] => [r]
  | x :: out' =>
      if decide (link x = link r) then r :: out' else x :: supersede r out'
  end.

(** Every entry of the map has the link of its value as its key. *)
Definition keyed (m : list (jsstring * ListingRecord)) : Prop :=
  Forall (fun e => fst e = link (snd e)) m.

(** [emits m Q]: from every world, [m] ends, appends some events [tr] to
    the trace, leaves the store that replaying [tr] gives, and its outcome
    and [tr] satisfy [Q]. *)
Definition emits {A} (m : Async A) (Q : outcome A -> list Event -> Prop)
    : Prop :=
  forall w, exists tr,
    trace (snd (m w)) = trace w ++ tr /\
    jobs (snd (m w)) = replay tr (jobs w) /\
    Q (fst (m w)) tr.

(** What the loop may do: write the entry of its own job, await anything
    but the closing of the browser. *)
Definition loop_event (jobId : jsstring) (e : Event) : Prop :=
  match e with
  | ev_set id _ => id = jobId
  | ev_await c => c <> browser_close
  end.

(** The events of the loop over [pages]: the turns entered are a prefix of
    [pages], each turn begins with its progress update followed by the
    wait for the selector. *)
Definition loop_events (jobId : jsstring) (maxPages : JsValue)
    (pages : list Z) (tr : list Event) : Prop :=
  Forall (loop_event jobId) tr /\
  (exists n, writes jobId tr
             = map (fun i => job_on_page i maxPages) (take n pages)) /\
  match pages with
  | [] => tr = []
  | i :: _ =>
      exists rest, tr = ev_set jobId (job_on_page i maxPages)
                        :: ev_await page_waitForSelector :: rest
  end.

(** The last record of a run that had its session. *)
Inductive final_record (b : Browser) : Job -> Prop :=
  | final_failed message : final_record b (job_failed message)
  | final_completed allListings :
      final_record b (job_completed (dedupe allListings) (now_ISO b)).

(** The events and the outcome of [runScraper], by the way it ends. *)
Inductive run_events (b : Browser) (jobId originUrl : jsstring)
    (maxPages : JsValue) : outcome unit -> list Event -> Prop :=
  | run_no_browser message :
      launch b = Thrown message ->
      run_events b jobId originUrl maxPages (Thrown message)
        [ev_set jobId job_started; ev_await chromium_launch]
  | run_no_page message :
      launch b = Returned tt -> newPage b = Thrown message ->
      run_events b jobId originUrl maxPages (Thrown message)
        [ev_set jobId job_started; ev_await chromium_launch;
         ev_await browser_newPage]
  | run_no_navigation message :
      session_acquired b -> goto b = Thrown message ->
      run_events b jobId originUrl maxPages (close b)
        [ev_set jobId job_started; ev_await chromium_launch;
         ev_await browser_newPage; ev_await (page_goto originUrl);
         ev_set jobId (job_failed message); ev_await browser_close]
  | run_scraped body final :
      session_acquired b -> goto b = Returned tt ->
      loop_events jobId maxPages (page_numbers maxPages) body ->
      final_record b final ->
      run_events b jobId originUrl maxPages (close b)
        ([ev_set jobId job_started; ev_await chromium_launch;
          ev_await browser_newPage; ev_await (page_goto originUrl)]
         ++ body ++ [ev_set jobId final; ev_await browser_close]).

(** An event that writes no entry but that of [jobId]. *)
Definition own_event (jobId : jsstring) (e : Event) : Prop :=
  match e with
  | ev_set id _ => id = jobId
  | ev_await _ => True
  end.

(** The events of [POST /scrape]. *)
Inductive submission_events (b : Browser) (jobId : jsstring)
    (limit_pages : JsValue)
    : option jsstring -> outcome ScrapeResponse -> list Event -> Prop :=
  | submission_rejected originUrl :
      originUrl = None \/ originUrl = Some [] ->
      submission_events b jobId limit_pages originUrl (Returned BadRequest) []
  | submission_accepted c url r tr :
      run_events b jobId (c :: url) (js_or limit_pages (JNum 1)) r tr ->
      submission_events b jobId limit_pages (Some (c :: url))
        (Returned (JobStarted jobId)) (ev_set jobId job_queued :: tr).

(** The later entry [b] has failed, or shows no less progress than [a]. *)
Definition keeps_up (a b : Job) : Prop :=
  status b = failed \/ progress a <= progress b.

Definition keeps_up_opt (x y : option Job) : Prop :=
  match x, y with
  | Some a, Some b => keeps_up a b
  | _, _ => True
  end.

(** The world after the events [tr]. *)
Definition after (tr : list Event) (w : World) : World :=
  {| jobs := replay tr (jobs w); trace := trace w ++ tr |}.

(** The events of the turn of page [i] when the next-page control is
    followed. *)
Definition turn_events (jobId : jsstring) (maxPages : JsValue) (i : Z)
    : list Event :=
  [ev_set jobId (job_on_page i maxPages); ev_await page_waitForSelector;
   ev_await (page_waitForTimeout 2000); ev_await page_evaluate;
   ev_await nextBtn_isVisible; ev_await nextBtn_click;
   ev_await (page_waitForTimeout 1500)].

(** [b] with the waits for the selector answered by [sel]. *)
Definition with_selector (sel : Z -> outcome unit) (b : Browser) : Browser :=
  {| launch := launch b; newPage := newPage b; goto := goto b;
     on_page := fun i =>
       {| waitForSelector_a := sel i;
          waitForTimeout_2000 := waitForTimeout_2000 (on_page b i);
          evaluate_links := evaluate_links (on_page b i);
          isVisible_next := isVisible_next (on_page b i);
          click_next := click_next (on_page b i);
          waitForTimeout_1500 := waitForTimeout_1500 (on_page b i) |};
     close := close b; now_ISO := now_ISO b |}.

(** [b] with [browser.close()] answered by [c]. *)
Definition with_close (c : outcome unit) (b : Browser) : Browser :=
  {| launch := launch b; newPage := newPage b; goto := goto b;
     on_page := on_page b; close := c; now_ISO := now_ISO b |}.

(** * Example inputs *)

(** A record and an anchor from ASCII literals. *)
Definition listing (t p a l : string) : ListingRecord :=
  {| title := lit t; price := lit p; area := lit a; link := lit l |}.

Definition anchor_of (text url : string) : Anchor :=
  {| innerText := lit text; heading := None; href := lit url |}.

(** The call goes through. *)
Definition fine : outcome unit := Returned tt.

(** A page showing [links], with the next-page control visible or not. *)
Definition page_showing (links : list Anchor) (next : bool) : PageAnswers :=
  {| waitForSelector_a := fine; waitForTimeout_2000 := fine;
     evaluate_links := Returned links; isVisible_next := Returned next;
     click_next := fine; waitForTimeout_1500 := fine |}.

(** A page on which the evaluation throws. *)
Definition page_crashing (message : jsstring) : PageAnswers :=
  {| waitForSelector_a := fine; waitForTimeout_2000 := fine;
     evaluate_links := Thrown message; isVisible_next := Returned false;
     click_next := fine; waitForTimeout_1500 := fine |}.

(** A browser that starts and closes without trouble and shows [pages]. *)
Definition browser_showing (pages : Z -> PageAnswers) : Browser :=
  {| launch := fine; newPage := fine; goto := fine; on_page := pages;
     close := fine; now_ISO := lit "2024-05-01T10:00:00.000Z" |}.

(** One page of two listings, with no next-page control. *)
Definition single_page_site : Browser :=
  browser_showing (fun _ =>
    page_showing [anchor_of "Flat 300,000" "https://a.test/1";
                  anchor_of "Villa 1,200,000" "https://a.test/2"] false).

(** Two pages: the second repeats a link of the first with a new price
    and has no next-page control. *)
Definition two_page_site : Browser :=
  browser_showing (fun i =>
    if i =? 1 then
      page_showing [anchor_of "Flat 300,000" "https://a.test/1";
                    anchor_of "Villa 1,200,000" "https://a.test/2"] true
    else
      page_showing [anchor_of "Villa 1,250,000" "https://a.test/2";
                    anchor_of "Shop 90,000" "https://a.test/3"] false).

(** Every evaluation throws. *)
Definition crashing_browser : Browser :=
  browser_showing
    (fun _ => page_crashing (lit "Execution context was destroyed")).

(** The browser cannot be launched. *)
Definition no_browser : Browser :=
  {| launch := Thrown (lit "browserType.launch: Executable doesn't exist");
     newPage := fine; goto := fine;
     on_page := fun _ => page_showing [] false;
     close := fine; now_ISO := lit "2024-05-01T10:00:00.000Z" |}.

(** The browser is launched, its page cannot be opened. *)
Definition no_page : Browser :=
  {| launch := fine;
     newPage := Thrown (lit "browser.newPage: Target closed");
     goto := fine;
     on_page := fun _ => page_showing [] false;
     close := fine; now_ISO := lit "2024-05-01T10:00:00.000Z" |}.

(** The first page shows a listing and a next-page control, the evaluation
    of the second throws. *)
Definition crashing_on_page_2 : Browser :=
  browser_showing (fun i =>
    if i =? 1 then
      page_showing [anchor_of "Flat 300,000" "https://a.test/1"] true
    else page_crashing (lit "Execution context was destroyed")).

(** The navigation to the first page fails. *)
Definition unreachable_site : Browser :=
  {| launch := fine; newPage := fine;
     goto := Thrown (lit "page.goto: net::ERR_NAME_NOT_RESOLVED");
     on_page := fun _ => page_showing [] false;
     close := fine; now_ISO := lit "2024-05-01T10:00:00.000Z" |}.

(** * Properties

    ** Strings *)

Lemma starts_with_spec (p s : jsstring) :
  starts_with p s = true <-> exists post, s = p ++ post.
Proof.
  revert s. induction p as [|a p IH]; intros s; simpl.
  - split; eauto.
  - destruct s as [|b s].
    + split; [discriminate | intros [post H]; discriminate].
    + rewrite andb_true_iff, N.eqb_eq, IH. split.
      * intros [-> [post ->]]. eauto.
      * intros [post H]. injection H as -> ->. eauto.
Qed.

Lemma includes_spec (p s : jsstring) :
  includes p s = true <-> occurs_in p s.
Proof.
  unfold occurs_in. induction s as [|c s IH]; simpl.
  - rewrite orb_false_r, starts_with_spec. split.
    + intros [post H]. exists [], post. exact H.
    + intros [pre [post H]]. destruct pre; [eauto|discriminate].
  - rewrite orb_true_iff, starts_with_spec, IH. split.
    + intros [[post H] | [pre [post H]]].
      * exists [], post. exact H.
      * exists (c :: pre), post. simpl. congruence.
    + intros [[|c' pre] [post H]].
      * left. eauto.
      * right. injection H as _ H. eauto.
Qed.

Lemma span_spec (f : N -> bool) (s m r : jsstring) :
  span f s = (m, r) ->
  s = m ++ r /\ Forall (fun c => f c = true) m /\
  match r with [] => True | c :: _ => f c = false end.
Proof.
  revert m r. induction s as [|c s IH]; simpl; intros m r H.
  - injection H as <- <-. auto.
  - destruct (f c) eqn:Hc.
    + destruct (span f s) as [m' r'] eqn:Hs. injection H as <- <-.
      destruct (IH _ _ eq_refl) as (-> & Hm & Hr). auto.
    + injection H as <- <-. simpl. rewrite Hc. auto.
Qed.

(** ** The price pattern

    The matcher finds a match exactly when the text contains a token. *)

Lemma forallb_digits (s : jsstring) :
  forallb is_digit s = true <-> digits s.
Proof.
  unfold digits. induction s as [|c s IH]; simpl.
  - split; [constructor | reflexivity].
  - rewrite andb_true_iff, IH. split.
    + intros [? ?]. by constructor.
    + by inversion 1.
Qed.

Lemma comma_groups_spec (s g r : jsstring) :
  comma_groups s = (g, r) ->
  s = g ++ r /\ (g = [] \/ thousands_groups g).
Proof.
  remember (length s) as n eqn:Hn. revert s g r Hn.
  induction n as [n IH] using lt_wf_ind. intros s g r Hn H.
  destruct s as [|c [|d1 [|d2 [|d3 s']]]]; simpl in H;
    try (injection H as <- <-; auto; fail).
  destruct ((c =? COMMA)%N && is_digit d1 && is_digit d2 && is_digit d3)
    eqn:Hc.
  - destruct (comma_groups s') as [m r'] eqn:Hs. injection H as <- <-.
    destruct (IH (length s') ltac:(simpl in Hn; lia) s' m r' eq_refl Hs)
      as (-> & Hm).
    repeat rewrite andb_true_iff in Hc. destruct Hc as (((Hc & H1) & H2) & H3).
    apply N.eqb_eq in Hc. subst c.
    assert (Hd : digits [d1; d2; d3]) by (repeat constructor; assumption).
    split; [reflexivity|]. right.
    destruct Hm as [-> | Hm]; [apply one_group | apply more_groups]; auto.
  - injection H as <- <-. auto.
Qed.

Lemma comma_groups_complete (g post : jsstring) :
  thousands_groups g -> fst (comma_groups (g ++ post)) <> [].
Proof.
  assert (Hd : forall d1 d2 d3 s, digits [d1; d2; d3] ->
    fst (comma_groups (COMMA :: d1 :: d2 :: d3 :: s)) <> []).
  { intros d1 d2 d3 s H. inversion_clear H as [|? ? H1 H'].
    inversion_clear H' as [|? ? H2 H'']. inversion_clear H'' as [|? ? H3 _].
    cbn [comma_groups]. rewrite N.eqb_refl, H1, H2, H3. cbn [andb].
    destruct (comma_groups s). discriminate. }
  intros [d1 d2 d3 H | d1 d2 d3 g' H Hg]; apply Hd, H.
Qed.

Lemma decimal_suffix_spec (s : jsstring) :
  decimal_part (decimal_suffix s) /\ exists r, s = decimal_suffix s ++ r.
Proof.
  unfold decimal_suffix.
  destruct s as [|c s]; [split; [constructor|by exists []]|].
  destruct (c =? DOT)%N eqn:Hc; [|split; [constructor|by exists (c :: s)]].
  apply N.eqb_eq in Hc. subst c.
  destruct (span is_digit s) as [m r] eqn:Hs.
  destruct (span_spec _ _ _ _ Hs) as (-> & Hm & _).
  destruct m as [|d m]; [split; [constructor|by exists (DOT :: r)]|].
  split; [constructor; [discriminate | exact Hm] | by exists r].
Qed.

Lemma price_at_with_sound (k : nat) (s m : jsstring) :
  (1 <= k <= 3)%nat -> price_at_with k s = Some m ->
  price_token m /\ exists post, s = m ++ post.
Proof.
  intros Hk. unfold price_at_with.
  destruct ((length (take k s) =? k)%nat && forallb is_digit (take k s))
    eqn:Hlead; [|discriminate].
  apply andb_true_iff in Hlead. destruct Hlead as [Hlen Hdig].
  apply Nat.eqb_eq in Hlen.
  destruct (comma_groups (drop k s)) as [g r] eqn:Hg.
  destruct (comma_groups_spec _ _ _ Hg) as (Hs & Hgg).
  destruct g as [|c g]; [discriminate|]. intros [= <-].
  destruct Hgg as [?|Hgg]; [discriminate|].
  destruct (decimal_suffix_spec r) as (Hdec & r' & Hr).
  split.
  - exists (take k s), (c :: g), (decimal_suffix r).
    repeat split; auto; try lia.
    exact (proj1 (forallb_digits _) Hdig).
  - exists r'. rewrite <- (take_drop k s) at 1. rewrite Hs.
    rewrite <- !app_assoc. f_equal. simpl. f_equal.
    rewrite <- app_assoc. by f_equal.
Qed.

Lemma price_at_with_complete (lead g rest : jsstring) :
  digits lead -> thousands_groups g ->
  is_Some (price_at_with (length lead) (lead ++ g ++ rest)).
Proof.
  intros Hl Hg. unfold price_at_with.
  rewrite take_app_length, drop_app_length, Nat.eqb_refl.
  rewrite (proj2 (forallb_digits lead) Hl).
  simpl. pose proof (comma_groups_complete g rest Hg) as Hne.
  destruct (comma_groups (g ++ rest)) as [[|c m] r]; [done|eauto].
Qed.

Lemma price_at_sound (s m : jsstring) :
  price_at s = Some m -> price_token m /\ exists post, s = m ++ post.
Proof.
  unfold price_at.
  destruct (price_at_with 3 s) eqn:H3.
  { intros [= <-]. eapply price_at_with_sound; [|exact H3]. lia. }
  destruct (price_at_with 2 s) eqn:H2.
  { intros [= <-]. eapply price_at_with_sound; [|exact H2]. lia. }
  intros H1. eapply price_at_with_sound; [|exact H1]. lia.
Qed.

Lemma price_at_complete (t post : jsstring) :
  price_token t -> is_Some (price_at (t ++ post)).
Proof.
  intros (lead & g & dec & -> & Hlen & Hl & Hg & _).
  pose proof (price_at_with_complete lead g (dec ++ post) Hl Hg) as Hk.
  rewrite <- !app_assoc. unfold price_at.
  destruct (price_at_with 3 _) eqn:H3; [eauto|].
  destruct (price_at_with 2 _) eqn:H2; [eauto|].
  destruct (length lead) as [|[|[|[|]]]] eqn:E; try lia.
  - exact Hk.
  - rewrite H2 in Hk. by destruct Hk.
  - rewrite H3 in Hk. by destruct Hk.
Qed.

Lemma price_match_sound (text m : jsstring) :
  price_match text = Some m -> price_token m /\ occurs_in m text.
Proof.
  induction text as [|c text IH]; cbn [price_match].
  - destruct (price_at []) eqn:H; [|discriminate]. intros [= <-].
    destruct (price_at_sound _ _ H) as (Ht & post & Hp).
    split; [exact Ht|]. exists [], post. exact Hp.
  - destruct (price_at (c :: text)) eqn:H.
    + intros [= <-]. destruct (price_at_sound _ _ H) as (Ht & post & Hp).
      split; [exact Ht|]. exists [], post. exact Hp.
    + intros Hm. destruct (IH Hm) as (Ht & pre & post & Hp).
      split; [exact Ht|]. exists (c :: pre), post. simpl. congruence.
Qed.

Lemma price_match_complete (text : jsstring) :
  has_price_token text -> is_Some (price_match text).
Proof.
  intros (t & Ht & pre & post & ->).
  induction pre as [|c pre IH]; cbn [app price_match].
  - pose proof (price_at_complete t post Ht) as [m Hm].
    destruct (t ++ post); cbn [price_match]; rewrite Hm; eauto.
  - destruct (price_at (c :: pre ++ t ++ post)); eauto.
Qed.

Lemma price_match_None (text : jsstring) :
  price_match text = None <-> ~ has_price_token text.
Proof.
  split.
  - intros H Ht. apply price_match_complete in Ht. rewrite H in Ht.
    by destruct Ht.
  - intros H. destruct (price_match text) as [m|] eqn:Hm; [|reflexivity].
    exfalso. apply H. exists m. by apply price_match_sound.
Qed.

(** ** The extractor *)

Lemma extract_anchor_None a :
  extract_anchor a = None <->
  occurs_in CATEGORY_MARKER (innerText a) \/ ~ has_price_token (innerText a).
Proof.
  unfold extract_anchor. rewrite <- includes_spec, <- price_match_None.
  destruct (includes CATEGORY_MARKER (innerText a)); [by split; auto|].
  destruct (price_match (innerText a)); split; try done.
  - by intros [?|?].
  - by right.
Qed.

(** The price of a record is a token of the text of its anchor. *)
Lemma extract_anchor_price a r :
  extract_anchor a = Some r ->
  price_token (price r) /\ occurs_in (price r) (innerText a).
Proof.
  unfold extract_anchor.
  destruct (includes CATEGORY_MARKER (innerText a)); [discriminate|].
  destruct (price_match (innerText a)) as [p|] eqn:Hp; [|discriminate].
  intros [= <-]. by apply price_match_sound.
Qed.

(** C8.  An anchor whose text contains the category phrase, or contains no
    thousands-grouped numeric token, gives no record; the text
    "Apartment 5000" gives none, the text "Apartment 300,000" gives a
    record with the price "300,000". *)
Theorem extractor_needs_a_grouped_price (a : Anchor) :
  (occurs_in CATEGORY_MARKER (innerText a) \/
   ~ has_price_token (innerText a) ->
   extract_anchor a = None /\ extract_page [a] = []) /\
  (innerText a = lit "Apartment 5000" ->
   extract_anchor a = None /\ extract_page [a] = []) /\
  (innerText a = lit "Apartment 300,000" ->
   exists r, extract_anchor a = Some r /\ extract_page [a] = [r] /\
             price r = lit "300,000").
Proof.
  assert (Hpage : extract_anchor a = None ->
                  extract_anchor a = None /\ extract_page [a] = []).
  { intros H. split; [exact H|]. unfold extract_page. cbn. by rewrite H. }
  split; [|split].
  - intros H. by apply Hpage, extract_anchor_None.
  - intros H. apply Hpage. unfold extract_anchor. by rewrite H.
  - intros H.
    assert (Hr : extract_anchor a
                 = Some {| title := or_else (heading a)
                                      (first_line_100 (innerText a));
                           price := lit "300,000";
                           area := or_else (area_match (innerText a))
                                     NOT_AVAILABLE;
                           link := href a |}).
    { unfold extract_anchor. rewrite H.
      change (includes CATEGORY_MARKER (lit "Apartment 300,000")) with false.
      by change (price_match (lit "Apartment 300,000"))
           with (Some (lit "300,000")). }
    eexists. split; [exact Hr|]. split; [|reflexivity].
    unfold extract_page. cbn [omap list_omap]. by rewrite Hr.
Qed.

Lemma extractor_needs_a_grouped_price_witness :
  let category :=
    {| innerText := CATEGORY_MARKER ++ lit " Riyadh 300,000";
       heading := None; href := lit "https://a.test/c" |} in
  let plain := anchor_of "Apartment 5000" "https://a.test/1" in
  let grouped := anchor_of "Apartment 300,000" "https://a.test/2" in
  (extract_anchor category = None /\ extract_page [category] = []) /\
  (extract_anchor plain = None /\ extract_page [plain] = []) /\
  (exists r, extract_anchor grouped = Some r /\
             extract_page [grouped] = [r] /\ price r = lit "300,000").
Proof.
  intros category plain grouped. split; [|split].
  - apply (proj1 (extractor_needs_a_grouped_price category)).
    left. exists [], (lit " Riyadh 300,000"). reflexivity.
  - apply (proj1 (proj2 (extractor_needs_a_grouped_price plain))).
    reflexivity.
  - apply (proj2 (proj2 (extractor_needs_a_grouped_price grouped))).
    reflexivity.
Defined.

(** ** The deduplication *)

Lemma Map_set_keyed r m :
  keyed m -> keyed (Map_set (link r) r m).
Proof.
  unfold keyed. induction 1 as [|[k v] m Hk Hm IH]; simpl.
  - by repeat constructor.
  - destruct (decide (k = link r)) as [->|Hne]; constructor; auto.
Qed.

Lemma Map_set_values r m :
  keyed m ->
  Map_values (Map_set (link r) r m) = supersede r (Map_values m).
Proof.
  unfold keyed, Map_values. induction 1 as [|[k v] m Hk Hm IH]; simpl.
  - reflexivity.
  - simpl in Hk. subst k.
    destruct (decide (link v = link r)); simpl; [reflexivity|].
    by rewrite IH.
Qed.

Lemma Map_new_snoc es e :
  Map_new (es ++ [e]) = Map_set (fst e) (snd e) (Map_new es).
Proof. unfold Map_new. by rewrite fold_left_app. Qed.

Lemma Map_new_keyed l :
  keyed (Map_new (map (fun item => (link item, item)) l)).
Proof.
  induction l as [|r l IH] using rev_ind.
  - constructor.
  - rewrite map_app. cbn [map]. rewrite Map_new_snoc. by apply Map_set_keyed.
Qed.

Lemma dedupe_nil : dedupe [] = [].
Proof. reflexivity. Qed.

Lemma dedupe_snoc l r : dedupe (l ++ [r]) = supersede r (dedupe l).
Proof.
  unfold dedupe. rewrite map_app. cbn [map]. rewrite Map_new_snoc.
  apply Map_set_values, Map_new_keyed.
Qed.

Lemma supersede_links r out :
  map link (supersede r out) =
  if decide (link r ∈ map link out) then map link out
  else map link out ++ [link r].
Proof.
  induction out as [|x out IH]; cbn [supersede map].
  - destruct (decide (link r ∈ [])) as [I|I]; [|reflexivity].
    by apply elem_of_nil in I.
  - destruct (decide (link x = link r)) as [E|E]; cbn [map].
    + destruct (decide (link r ∈ link x :: map link out)) as [I|I].
      * by rewrite E.
      * exfalso. apply I. rewrite E. apply list_elem_of_here.
    + rewrite IH.
      destruct (decide (link r ∈ map link out)) as [I|I];
        destruct (decide (link r ∈ link x :: map link out)) as [J|J];
        try reflexivity.
      * exfalso. apply J. by apply list_elem_of_further.
      * exfalso. apply elem_of_cons in J as [?|?]; congruence.
Qed.

Lemma supersede_fresh r out :
  link r ∉ map link out -> supersede r out = out ++ [r].
Proof.
  induction out as [|x out IH]; simpl; intros H; [reflexivity|].
  apply not_elem_of_cons in H as [H1 H2].
  rewrite decide_False by congruence. by rewrite IH.
Qed.

Lemma supersede_elem r r' out :
  NoDup (map link out) ->
  r' ∈ supersede r out <-> r' = r \/ (r' ∈ out /\ link r' <> link r).
Proof.
  induction out as [|x out IH]; simpl; intros Hnd.
  - rewrite list_elem_of_singleton. split; [auto|].
    intros [?|[H _]]; [done|]. by apply elem_of_nil in H.
  - apply NoDup_cons in Hnd as [Hx Hnd].
    destruct (decide (link x = link r)) as [E|E].
    + rewrite !elem_of_cons. split.
      * intros [->|H]; [auto|]. right. split; [auto|].
        intros E'. apply Hx. rewrite E, <- E'.
        by apply list_elem_of_fmap_2.
      * intros [->|[[->|H] Hne]]; auto. congruence.
    + rewrite !elem_of_cons, (IH Hnd). split.
      * intros [->|[->|[H Hne]]]; auto.
      * intros [->|[[->|H] Hne]]; auto.
Qed.

Lemma first_seen_elem k ks : k ∈ first_seen ks <-> k ∈ ks.
Proof.
  induction ks as [|a ks IH]; simpl; [reflexivity|].
  rewrite !elem_of_cons, list_elem_of_filter, IH.
  destruct (decide (k = a)); intuition congruence.
Qed.

Lemma first_seen_NoDup ks : NoDup (first_seen ks).
Proof.
  induction ks as [|a ks IH]; simpl; [constructor|].
  apply NoDup_cons. split.
  - rewrite list_elem_of_filter. intros [H _]. by apply H.
  - by apply NoDup_filter.
Qed.

Lemma first_seen_snoc ks k :
  first_seen (ks ++ [k]) =
  if decide (k ∈ ks) then first_seen ks else first_seen ks ++ [k].
Proof.
  induction ks as [|a ks IH]; cbn [first_seen app].
  - destruct (decide (k ∈ [])) as [I|I]; [|reflexivity].
    by apply elem_of_nil in I.
  - rewrite IH.
    destruct (decide (k ∈ ks)) as [I|I];
      destruct (decide (k ∈ a :: ks)) as [J|J]; try reflexivity.
    + exfalso. apply J. by apply list_elem_of_further.
    + apply elem_of_cons in J as [->|?]; [|done].
      rewrite filter_app, filter_cons_False by (intros H; by apply H).
      by rewrite filter_nil, app_nil_r.
    + rewrite filter_app, filter_cons_True.
      * by rewrite filter_nil.
      * intros ->. apply J, list_elem_of_here.
Qed.

Lemma dedupe_links l : map link (dedupe l) = first_seen (map link l).
Proof.
  induction l as [|r l IH] using rev_ind; [reflexivity|].
  rewrite dedupe_snoc, supersede_links, map_app. cbn [map].
  rewrite first_seen_snoc, IH.
  destruct (decide (link r ∈ first_seen (map link l))) as [I|I];
    destruct (decide (link r ∈ map link l)) as [J|J]; try reflexivity;
    exfalso; rewrite first_seen_elem in I; contradiction.
Qed.

Lemma dedupe_NoDup l : NoDup (map link (dedupe l)).
Proof. rewrite dedupe_links. apply first_seen_NoDup. Qed.

Lemma last_with_link_snoc k l r :
  last_with_link k (l ++ [r]) =
  if decide (link r = k) then Some r else last_with_link k l.
Proof.
  unfold last_with_link. rewrite filter_app.
  destruct (decide (link r = k)) as [E|E].
  - rewrite filter_cons_True by done. rewrite filter_nil. apply last_snoc.
  - rewrite filter_cons_False by done. by rewrite filter_nil, app_nil_r.
Qed.

Lemma dedupe_elem l r :
  r ∈ dedupe l <-> last_with_link (link r) l = Some r.
Proof.
  revert r. induction l as [|x l IH] using rev_ind; intros r.
  - rewrite dedupe_nil. split; [by intros ?%elem_of_nil | discriminate].
  - rewrite dedupe_snoc, last_with_link_snoc,
      (supersede_elem _ _ _ (dedupe_NoDup l)), IH.
    destruct (decide (link x = link r)) as [E|E].
    + split; [intros [->|[_ ?]]; congruence | intros [= ->]; auto].
    + split; [intros [->|[? _]]; congruence | intros H; right; auto].
Qed.

Lemma dedupe_unique_id l : NoDup (map link l) -> dedupe l = l.
Proof.
  induction l as [|r l IH] using rev_ind; intros H; [reflexivity|].
  rewrite map_app in H. apply NoDup_app in H as (Hl & Hr & _).
  rewrite dedupe_snoc, (IH Hl). apply supersede_fresh.
  intros I. apply (Hr _ I). simpl. apply list_elem_of_here.
Qed.

Lemma supersede_keeps_prefix r out :
  exists more, map link (supersede r out) = map link out ++ more.
Proof.
  rewrite supersede_links. destruct (decide (link r ∈ map link out)).
  - exists []. by rewrite app_nil_r.
  - by exists [link r].
Qed.

Lemma dedupe_app_links l l' :
  exists more, map link (dedupe (l ++ l')) = map link (dedupe l) ++ more.
Proof.
  induction l' as [|r l' [more IH]] using rev_ind.
  - exists []. by rewrite !app_nil_r.
  - rewrite app_assoc, dedupe_snoc.
    destruct (supersede_keeps_prefix r (dedupe (l ++ l'))) as [more' ->].
    exists (more ++ more'). by rewrite IH, app_assoc.
Qed.

Lemma dedupe_lookup_link l i r :
  dedupe l !! i = Some r -> last_with_link (link r) l = Some r.
Proof. intros H. apply dedupe_elem. by eapply list_elem_of_lookup_2. Qed.

Lemma dedupe_position pre r post :
  link r ∉ map link pre ->
  dedupe (pre ++ r :: post) !! length (dedupe pre)
    = last_with_link (link r) (pre ++ r :: post).
Proof.
  intros Hfresh.
  assert (Hlink : map link (dedupe (pre ++ r :: post)) !! length (dedupe pre)
                  = Some (link r)).
  { change (r :: post) with ([r] ++ post). rewrite app_assoc.
    destruct (dedupe_app_links (pre ++ [r]) post) as [more ->].
    rewrite dedupe_snoc, supersede_fresh.
    - rewrite map_app, <- app_assoc. cbn [map app].
      rewrite <- (length_map link (dedupe pre)). apply list_lookup_middle.
      done.
    - rewrite dedupe_links. by rewrite first_seen_elem. }
  rewrite list_lookup_fmap in Hlink.
  destruct (dedupe (pre ++ r :: post) !! length (dedupe pre)) as [r'|] eqn:E;
    [|discriminate].
  cbn in Hlink. injection Hlink as Hlink.
  apply dedupe_lookup_link in E. by rewrite <- Hlink, E.
Qed.

Lemma first_occurrences_links l :
  map link (first_occurrences l) = first_seen (map link l).
Proof.
  induction l as [|r l IH]; cbn [first_occurrences first_seen map];
    [reflexivity|].
  f_equal. rewrite <- IH. clear IH.
  induction (first_occurrences l) as [|x xs IH]; [reflexivity|].
  destruct (decide (link x = link r)) as [E|E].
  - rewrite filter_cons_False by (intros H; by apply H).
    cbn [map]. rewrite filter_cons_False by (intros H; by apply H).
    exact IH.
  - rewrite filter_cons_True by done. cbn [map].
    rewrite filter_cons_True by done. by rewrite IH.
Qed.

Lemma dedupe_at_first_occurrences l :
  dedupe l = map (latest l) (first_occurrences l).
Proof.
  assert (H : forall xs ys : list ListingRecord,
    (forall r, r ∈ xs -> r ∈ dedupe l) ->
    map link xs = map link ys -> xs = map (latest l) ys).
  { induction xs as [|x xs IH]; intros [|y ys] Hxs E; try discriminate;
      [reflexivity|].
    cbn [map] in *. injection E as Ex E. f_equal.
    - pose proof (Hxs x (list_elem_of_here _ _)) as Hx.
      apply dedupe_elem in Hx. unfold latest. by rewrite <- Ex, Hx.
    - apply IH; [|exact E]. intros r Hr.
      by apply Hxs, list_elem_of_further. }
  apply H; [auto|]. by rewrite dedupe_links, first_occurrences_links.
Qed.

(** C6.  The links of [dedupe l] are pairwise distinct and are the links
    of [l] in the order in which each is first seen; the record that
    stands for a link is the last record of [l] with that link.  So a link
    that is first seen after [pre] has its survivor at the index that
    counts the distinct links of [pre], which is the index of that first
    occurrence when the links of [pre] are distinct.  Put together:
    [dedupe l] is [l] cut down to the first occurrence of every link, each
    of them replaced where it stands by the last record with its link. *)
Theorem dedupe_last_value_at_first_position (l : list ListingRecord) :
  NoDup (map link (dedupe l)) /\
  map link (dedupe l) = first_seen (map link l) /\
  (forall r, r ∈ dedupe l <-> last_with_link (link r) l = Some r) /\
  (forall pre r post,
     l = pre ++ r :: post -> link r ∉ map link pre ->
     dedupe l !! length (dedupe pre) = last_with_link (link r) l /\
     (NoDup (map link pre) ->
      dedupe l !! length pre = last_with_link (link r) l)) /\
  dedupe l = map (latest l) (first_occurrences l).
Proof.
  split; [apply dedupe_NoDup|]. split; [apply dedupe_links|].
  split; [apply dedupe_elem|].
  split; [|apply dedupe_at_first_occurrences].
  intros pre r post -> Hfresh. split; [by apply dedupe_position|].
  intros Hnd. replace (length pre) with (length (dedupe pre))
    by (by rewrite dedupe_unique_id).
  by apply dedupe_position.
Qed.

Example dedupe_two_sharing_a_link :
  dedupe [listing "A" "100,000" "N/A" "https://a.test/1";
          listing "B" "200,000" "N/A" "https://a.test/2";
          listing "A again" "150,000" "90" "https://a.test/1"]
  = [listing "A again" "150,000" "90" "https://a.test/1";
     listing "B" "200,000" "N/A" "https://a.test/2"].
Proof. reflexivity. Qed.

Lemma dedupe_last_value_at_first_position_witness :
  let a1 := listing "A" "100,000" "N/A" "https://a.test/1" in
  let b1 := listing "B" "200,000" "N/A" "https://a.test/2" in
  let a2 := listing "A again" "150,000" "90" "https://a.test/1" in
  dedupe [b1; a1; a2] !! 1%nat = Some a2.
Proof.
  intros a1 b1 a2.
  destruct (dedupe_last_value_at_first_position [b1; a1; a2])
    as (_ & _ & _ & H & _).
  destruct (H [b1] a1 [a2] eq_refl) as [_ H'].
  - cbn. intros Hin. apply list_elem_of_singleton in Hin. discriminate.
  - apply H'. cbn. apply NoDup_singleton.
Defined.

(** C7.  Deduplicating twice is deduplicating once. *)
Theorem dedupe_idempotent l : dedupe (dedupe l) = dedupe l.
Proof. apply dedupe_unique_id, dedupe_NoDup. Qed.

(** ** Traces and the store *)

Lemma writes_app jobId t1 t2 :
  writes jobId (t1 ++ t2) = writes jobId t1 ++ writes jobId t2.
Proof.
  induction t1 as [|[id j|c] t1 IH]; simpl; [done| |done].
  destruct (decide (id = jobId)); simpl; by rewrite IH.
Qed.

Lemma calls_app t1 t2 : calls (t1 ++ t2) = calls t1 ++ calls t2.
Proof. induction t1 as [|[id j|c] t1 IH]; simpl; by rewrite ?IH. Qed.

Lemma replay_app t1 t2 store :
  replay (t1 ++ t2) store = replay t2 (replay t1 store).
Proof. revert store. induction t1 as [|[id j|c] t1 IH]; simpl; auto. Qed.

Lemma replay_other jobId k tr store :
  Forall (own_event jobId) tr -> k <> jobId ->
  replay tr store !! k = store !! k.
Proof.
  intros H Hk. revert store.
  induction H as [|[id j|c] tr He _ IH]; intros store; cbn [replay].
  - done.
  - cbn in He. subst id. rewrite IH. by apply lookup_insert_ne.
  - apply IH.
Qed.

Lemma replay_lookup jobId tr store :
  replay tr store !! jobId =
  match last (writes jobId tr) with
  | Some j => Some j
  | None => store !! jobId
  end.
Proof.
  revert store. induction tr as [|[id j|c] tr IH]; intros store;
    cbn [replay writes]; [done| |apply IH].
  rewrite IH. destruct (decide (id = jobId)) as [->|Hne].
  - destruct (writes jobId tr) as [|x l] eqn:Hw.
    + cbn. apply lookup_insert_eq.
    + change (last (j :: x :: l)) with (last (x :: l)).
      by destruct (last (x :: l)) eqn:Hl; [|apply last_None in Hl].
  - destruct (last (writes jobId tr)); [done|by apply lookup_insert_ne].
Qed.

Lemma own_events_write_elsewhere jobId' jobId tr :
  Forall (own_event jobId') tr -> jobId' <> jobId -> writes jobId tr = [].
Proof.
  intros H Hne. induction H as [|[id j|c] tr He _ IH]; cbn [writes].
  - done.
  - cbn in He. subst id. by rewrite decide_False by done.
  - exact IH.
Qed.

(** ** Rules for [emits]

    One rule for each construct of the monad: a program is followed
    construct by construct, the events gathered on the way. *)

Section rules.
Context {A B : Type}.

Lemma emits_ret (a : A) (Q : outcome A -> list Event -> Prop) :
  Q (Returned a) [] -> emits (ret a) Q.
Proof. intros H w. exists []. cbn. by rewrite app_nil_r. Qed.

Lemma emits_set id job (Q : outcome unit -> list Event -> Prop) :
  Q (Returned tt) [ev_set id job] -> emits (jobs_set id job) Q.
Proof. intros H w. exists [ev_set id job]. cbn. auto. Qed.

Lemma emits_await call (answer : outcome A)
    (Q : outcome A -> list Event -> Prop) :
  Q answer [ev_await call] -> emits (await call answer) Q.
Proof. intros H w. exists [ev_await call]. cbn. auto. Qed.

Lemma emits_bind (m : Async A) (k : A -> Async B)
    (Q : outcome B -> list Event -> Prop) :
  emits m (fun r tr =>
    match r with
    | Returned a => emits (k a) (fun r' tr' => Q r' (tr ++ tr'))
    | Thrown e => Q (Thrown e) tr
    end) ->
  emits (bind m k) Q.
Proof.
  intros H w. destruct (H w) as (tr & Ht & Hj & HQ). unfold bind.
  destruct (m w) as [[a|e] w1]; cbn [fst snd] in *.
  - destruct (HQ w1) as (tr' & Ht' & Hj' & HQ'). exists (tr ++ tr').
    rewrite Ht', Hj', Ht, Hj, replay_app, app_assoc. auto.
  - exists tr. auto.
Qed.

Lemma emits_try_catch (body : Async A) (handler : jsstring -> Async A)
    (Q : outcome A -> list Event -> Prop) :
  emits body (fun r tr =>
    match r with
    | Returned a => Q (Returned a) tr
    | Thrown e => emits (handler e) (fun r' tr' => Q r' (tr ++ tr'))
    end) ->
  emits (try_catch body handler) Q.
Proof.
  intros H w. destruct (H w) as (tr & Ht & Hj & HQ). unfold try_catch.
  destruct (body w) as [[a|e] w1]; cbn [fst snd] in *.
  - exists tr. auto.
  - destruct (HQ w1) as (tr' & Ht' & Hj' & HQ'). exists (tr ++ tr').
    rewrite Ht', Hj', Ht, Hj, replay_app, app_assoc. auto.
Qed.

Lemma emits_try_finally (body : Async A) (cleanup : Async unit)
    (Q : outcome A -> list Event -> Prop) :
  emits body (fun r tr =>
    emits cleanup (fun r' tr' =>
      Q (match r' with Returned _ => r | Thrown e => Thrown e end)
        (tr ++ tr'))) ->
  emits (try_finally body cleanup) Q.
Proof.
  intros H w. destruct (H w) as (tr & Ht & Hj & HQ). unfold try_finally.
  destruct (body w) as [r w1]; cbn [fst snd] in *.
  destruct (HQ w1) as (tr' & Ht' & Hj' & HQ'). exists (tr ++ tr').
  destruct (cleanup w1) as [[[]|e] w2]; cbn [fst snd] in *;
    rewrite Ht', Hj', Ht, Hj, replay_app, app_assoc; auto.
Qed.

Lemma emits_weaken (m : Async A) (Q Q' : outcome A -> list Event -> Prop) :
  emits m Q -> (forall r tr, Q r tr -> Q' r tr) -> emits m Q'.
Proof.
  intros H HQ w. destruct (H w) as (tr & Ht & Hj & Hq). exists tr. auto.
Qed.

End rules.

(** The events of a job from its submission on. *)
Lemma detached_emits (run : Async unit) (Q : outcome unit -> list Event -> Prop)
    (Q' : outcome unit -> list Event -> Prop) :
  emits run Q -> (forall r tr, Q r tr -> Q' (Returned tt) tr) ->
  emits (detached run) Q'.
Proof.
  intros H HQ w. destruct (H w) as (tr & Ht & Hj & Hq). exists tr.
  unfold detached. cbn [fst snd]. eauto.
Qed.

Ltac emit_step :=
  first
    [ apply emits_bind | apply emits_try_catch | apply emits_try_finally
    | apply emits_set | apply emits_await | apply emits_ret
    | match goal with
      | |- match ?o with Returned _ => _ | Thrown _ => _ end =>
          let E := fresh "E" in destruct o as [[]|?] eqn:E
      | |- match ?o with Returned _ => _ | Thrown _ => _ end =>
          let E := fresh "E" in destruct o as [?|?] eqn:E
      | |- emits (if ?c then _ else _) _ =>
          let E := fresh "E" in destruct c eqn:E
      end ];
  cbn [app].

Ltac emit := repeat emit_step.

(** ** The events of a run *)

Lemma scrape_pages_shape b jobId maxPages pages allListings :
  emits (scrape_pages b jobId maxPages pages allListings)
    (fun _ tr => loop_events jobId maxPages pages tr).
Proof.
  revert allListings. induction pages as [|i pages IH]; intros acc.
  - emit. split; [constructor | split; [by exists 0%nat | reflexivity]].
  - cbn [scrape_pages]. emit;
      try (eapply emits_weaken; [apply IH|];
           intros _ tr (Htr & [n Hn] & _); cbn beta);
      (split; [|split];
       [ repeat (apply Forall_cons; split; [done|]); auto
       | cbn [writes]; rewrite decide_True by done;
         first [ exists (S n); cbn [take map]; by rewrite Hn
               | by exists 1%nat ]
       | eauto ]).
Qed.

Lemma unit_outcome (o : outcome unit) :
  match o with Returned _ => Returned tt | Thrown e => Thrown e end = o.
Proof. by destruct o as [[]|e]. Qed.

Lemma runScraper_events b jobId originUrl maxPages :
  emits (runScraper b jobId originUrl maxPages)
    (run_events b jobId originUrl (default_maxPages maxPages)).
Proof.
  unfold runScraper. emit.
  - eapply emits_weaken; [apply scrape_pages_shape|].
    intros [allListings|message] body Hbody; cbn beta iota; emit;
      rewrite unit_outcome, <- !app_assoc;
      apply (run_scraped b jobId originUrl _ body); auto;
      try (split; assumption); constructor.
  - rewrite unit_outcome. apply run_no_navigation; [by split | assumption].
  - by apply run_no_page.
  - by apply run_no_browser.
Qed.

Lemma post_scrape_events b jobId originUrl limit_pages :
  emits (post_scrape b jobId originUrl limit_pages)
    (submission_events b jobId limit_pages originUrl).
Proof.
  unfold post_scrape. destruct originUrl as [[|c url]|].
  - emit. constructor. by right.
  - emit. eapply detached_emits; [apply runScraper_events|].
    intros r tr Hr. emit. rewrite app_nil_r. econstructor.
    assert (default_maxPages (js_or limit_pages (JNum 1))
            = js_or limit_pages (JNum 1)) as <-; [|exact Hr].
    by destruct limit_pages as [| |[]|[]].
  - emit. constructor. by left.
Qed.

Lemma job_trace_cases b jobId url limit_pages :
  job_trace b jobId url limit_pages = [] \/
  exists r tr,
    job_trace b jobId url limit_pages = ev_set jobId job_queued :: tr /\
    run_events b jobId url (js_or limit_pages (JNum 1)) r tr.
Proof.
  unfold job_trace.
  destruct (post_scrape_events b jobId (Some url) limit_pages empty_world)
    as (tr & Ht & _ & Hs).
  cbn [trace empty_world app] in Ht. rewrite Ht.
  inversion Hs as [? _|c u r tr' Hr]; subst; [by left|right; eauto].
Qed.

Lemma job_trace_accepted b jobId url limit_pages :
  url <> [] ->
  exists r tr,
    job_trace b jobId url limit_pages = ev_set jobId job_queued :: tr /\
    run_events b jobId url (js_or limit_pages (JNum 1)) r tr.
Proof.
  intros Hurl. unfold job_trace.
  destruct (post_scrape_events b jobId (Some url) limit_pages empty_world)
    as (tr & Ht & _ & Hs).
  cbn [trace empty_world app] in Ht. rewrite Ht.
  inversion Hs as [? [?|?]|c u r tr' Hr]; subst; try congruence; eauto.
Qed.

Lemma loop_event_own jobId e : loop_event jobId e -> own_event jobId e.
Proof. by destruct e. Qed.

Lemma run_events_own b jobId url maxPages r tr :
  run_events b jobId url maxPages r tr -> Forall (own_event jobId) tr.
Proof.
  intros [e He|e Hl He|e Hs He|body final Hs Hg (Hb & _) Hf];
    try by repeat constructor.
  repeat (apply Forall_cons; split; [done|]).
  apply Forall_app. split; [|by repeat constructor].
  eapply Forall_impl; [exact Hb|]. apply loop_event_own.
Qed.

Lemma submission_own b jobId limit_pages originUrl r tr :
  submission_events b jobId limit_pages originUrl r tr ->
  Forall (own_event jobId) tr.
Proof.
  intros [?|c url r' tr' Hr]; [constructor|].
  constructor; [done|]. by eapply run_events_own.
Qed.

Lemma loop_events_writes jobId maxPages pages tr :
  loop_events jobId maxPages pages tr ->
  exists n,
    writes jobId tr = map (fun i => job_on_page i maxPages) (take n pages).
Proof. by intros (_ & H & _). Qed.

Lemma run_events_writes b jobId url maxPages r tr :
  run_events b jobId url maxPages r tr ->
  exists n fin,
    writes jobId tr
      = job_started
        :: map (fun i => job_on_page i maxPages)
               (take n (page_numbers maxPages)) ++ fin /\
    (fin = [] \/ exists f, fin = [f] /\ final_record b f).
Proof.
  intros [e He|e Hl He|e Hs He|body final Hs Hg Hb Hf].
  - exists 0%nat, []. cbn. rewrite decide_True by done. auto.
  - exists 0%nat, []. cbn. rewrite decide_True by done. auto.
  - exists 0%nat, [job_failed e]. cbn. rewrite !decide_True by done.
    split; [done|]. right. eexists. split; [done|constructor].
  - destruct (loop_events_writes _ _ _ _ Hb) as [n Hn].
    exists n, [final]. rewrite !writes_app, Hn. cbn.
    rewrite !decide_True by done. split; [done|]. right. eauto.
Qed.

Lemma job_writes b jobId url limit_pages :
  let maxPages := js_or limit_pages (JNum 1) in
  writes jobId (job_trace b jobId url limit_pages) = [] \/
  exists n fin,
    writes jobId (job_trace b jobId url limit_pages)
      = job_queued :: job_started
        :: map (fun i => job_on_page i maxPages)
               (take n (page_numbers maxPages)) ++ fin /\
    (fin = [] \/ exists f, fin = [f] /\ final_record b f).
Proof.
  intros maxPages.
  destruct (job_trace_cases b jobId url limit_pages)
    as [->|(r & tr & -> & Hr)]; [by left|right].
  destruct (run_events_writes _ _ _ _ _ _ Hr) as (n & fin & Hw & Hfin).
  exists n, fin. cbn [writes]. rewrite decide_True by done.
  by rewrite Hw.
Qed.

Lemma final_record_status b f :
  final_record b f ->
  (status f = failed /\ progress f = 0) \/
  (status f = completed /\ progress f = 100).
Proof. intros [e|l]; auto. Qed.

Lemma page_records_elem (maxPages : JsValue) n x :
  x ∈ map (fun i => job_on_page i maxPages)
        (take n (page_numbers maxPages)) ->
  exists i, x = job_on_page i maxPages /\ i ∈ page_numbers maxPages.
Proof.
  intros (i & -> & Hi)%list_elem_of_fmap. exists i. split; [done|].
  apply elem_of_take in Hi as (k & Hk & _).
  by apply list_elem_of_lookup_2 in Hk.
Qed.

Lemma run_events_first_page b jobId url maxPages m r tr :
  run_events b jobId url maxPages r tr ->
  session_acquired b -> goto b = Returned tt ->
  ToNumber maxPages = Some m -> 1 <= m ->
  exists rest,
    tr = [ev_set jobId job_started; ev_await chromium_launch;
          ev_await browser_newPage; ev_await (page_goto url);
          ev_set jobId (job_on_page 1 maxPages);
          ev_await page_waitForSelector] ++ rest.
Proof.
  intros Hr [Hl Hp] Hg Hm H1.
  destruct Hr as [e He|e _ He|e _ He|body final _ _ (_ & _ & Hb) _];
    try congruence.
  unfold page_numbers in Hb. rewrite Hm, seqZ_cons in Hb by lia.
  destruct Hb as [rest ->].
  by exists (rest ++ [ev_set jobId final; ev_await browser_close]).
Qed.

(** ** The browser session *)

(** When the launch or the opening of the page throws, the exception
    leaves [runScraper] before its [try] block is entered: the entry was
    set to [running] and nothing else is written. *)
Lemma session_failure_leaves_job_running b jobId c url limit_pages :
  ~ session_acquired b ->
  let w := snd (post_scrape b jobId (Some (c :: url)) limit_pages
                  empty_world) in
  writes jobId (trace w) = [job_queued; job_started] /\
  get_job (jobs w) jobId = Pending running 0 None None.
Proof.
  intros Hno w.
  destruct (post_scrape_events b jobId (Some (c :: url)) limit_pages
              empty_world) as (tr & Ht & Hj & Hs).
  fold w in Ht, Hj. cbn [trace empty_world app] in Ht.
  assert (Hw : writes jobId tr = [job_queued; job_started]).
  { inversion Hs as [? [?|?]|c' u r tr' Hr]; subst; try discriminate.
    destruct Hr as [e He|e Hl He|e Hacq _|body final Hacq _ _ _];
      try contradiction; cbn; by rewrite !decide_True by done. }
  rewrite Ht. split; [exact Hw|].
  unfold get_job. by rewrite Hj, replay_lookup, Hw.
Qed.

(** C1 at the failing input: the launch throws, and the entry of the job
    stays [running] with progress 0 and no error; nothing writes [failed].
    The same happens when the page cannot be opened, and then the browser
    that was launched is not closed. *)
Theorem launch_failure_leaves_job_running :
  let id := lit "job_1" in
  let url := Some (lit "https://a.test/") in
  let w := snd (post_scrape no_browser id url (JNum 1) empty_world) in
  let w' := snd (post_scrape no_page id url (JNum 1) empty_world) in
  get_job (jobs w) id = Pending running 0 None None /\
  writes id (trace w) = [job_queued; job_started] /\
  calls (trace w) = [chromium_launch] /\
  get_job (jobs w') id = Pending running 0 None None /\
  writes id (trace w') = [job_queued; job_started] /\
  calls (trace w') = [chromium_launch; browser_newPage].
Proof. vm_compute. repeat split. Qed.

Lemma loop_events_no_close jobId tr :
  Forall (loop_event jobId) tr -> browser_close ∉ calls tr.
Proof.
  induction 1 as [|[id j|c] tr He _ IH]; cbn [calls].
  - apply not_elem_of_nil.
  - exact IH.
  - apply not_elem_of_cons. split; [|exact IH]. cbn in He. congruence.
Qed.

(** C3.  When the browser was launched and its page opened, the run ends
    with the call of [browser.close()], whatever happened in between, and
    this is the only call of it. *)
Theorem browser_closed_on_every_exit b jobId originUrl maxPages w :
  session_acquired b ->
  exists tr,
    trace (snd (runScraper b jobId originUrl maxPages w))
      = trace w ++ tr ++ [ev_await browser_close] /\
    browser_close ∉ calls tr.
Proof.
  intros [Hl Hp].
  destruct (runScraper_events b jobId originUrl maxPages w)
    as (tr & -> & _ & Hr).
  destruct Hr as [e He|e _ He|e _ He|body final _ _ (Hb & _) _];
    try congruence.
  - exists [ev_set jobId job_started; ev_await chromium_launch;
            ev_await browser_newPage; ev_await (page_goto originUrl);
            ev_set jobId (job_failed e)].
    split; [done|]. cbn. rewrite !elem_of_cons, elem_of_nil.
    intuition discriminate.
  - exists ([ev_set jobId job_started; ev_await chromium_launch;
             ev_await browser_newPage; ev_await (page_goto originUrl)]
            ++ body ++ [ev_set jobId final]).
    split; [by rewrite <- !app_assoc|].
    rewrite !calls_app. cbn. rewrite app_nil_r.
    rewrite !elem_of_cons. pose proof (loop_events_no_close _ _ Hb).
    intuition discriminate.
Qed.

Example exits_of_three_runs :
  let run b maxPages :=
    calls (trace (snd (runScraper b (lit "job_1") (lit "https://a.test/")
                         maxPages empty_world))) in
  (* all pages scraped *)
  run single_page_site (JNum 1)
    = [chromium_launch; browser_newPage; page_goto (lit "https://a.test/");
       page_waitForSelector; page_waitForTimeout 2000; page_evaluate;
       browser_close] /\
  (* the pagination stops early *)
  last (run two_page_site (JNum 3)) = Some browser_close /\
  (* the evaluation throws *)
  run crashing_browser (JNum 2)
    = [chromium_launch; browser_newPage; page_goto (lit "https://a.test/");
       page_waitForSelector; page_waitForTimeout 2000; page_evaluate;
       browser_close].
Proof. vm_compute. repeat split. Qed.

Lemma browser_closed_on_every_exit_witness :
  let b := crashing_browser in
  let w := empty_world in
  session_acquired b /\
  exists tr,
    trace (snd (runScraper b (lit "job_1") (lit "https://a.test/")
                  (JNum 2) w))
      = trace w ++ tr ++ [ev_await browser_close] /\
    browser_close ∉ calls tr.
Proof.
  intros b w.
  assert (Hs : session_acquired b) by (split; reflexivity).
  split; [exact Hs|].
  exact (browser_closed_on_every_exit b (lit "job_1")
           (lit "https://a.test/") (JNum 2) w Hs).
Defined.

(** ** Progress arithmetic *)

(** Division and rounding of integers. *)

Lemma div_le_cross a b c d :
  0 < b -> 0 < d -> a * d <= c * b -> a / b <= c / d.
Proof.
  intros Hb Hd H. apply Z.div_le_lower_bound; [exact Hd|].
  pose proof (Z.mul_div_le a b Hb).
  pose proof (Z.mod_pos_bound a b Hb). pose proof (Z.div_mod a b ltac:(lia)).
  nia.
Qed.

Lemma round_half_even_cases n d :
  0 < d ->
  let q := n / d in let r := n mod d in
  (round_half_even n d = q /\ (2 * r < d \/ 2 * r = d /\ Z.even q = true)) \/
  (round_half_even n d = q + 1 /\
   (d < 2 * r \/ 2 * r = d /\ Z.even q = false)).
Proof.
  intros Hd q r. unfold round_half_even. fold q r.
  destruct (Z.ltb_spec (2 * r) d); [left; auto|].
  destruct (Z.ltb_spec d (2 * r)); [right; auto|].
  destruct (Z.even q) eqn:E; [left|right]; split; auto; right; split; lia.
Qed.

Lemma round_half_even_mono n1 d1 n2 d2 :
  0 < d1 -> 0 < d2 -> n1 * d2 <= n2 * d1 ->
  round_half_even n1 d1 <= round_half_even n2 d2.
Proof.
  intros H1 H2 H.
  pose proof (div_le_cross n1 d1 n2 d2 H1 H2 H) as Hq.
  pose proof (Z.div_mod n1 d1 ltac:(lia)) as E1.
  pose proof (Z.div_mod n2 d2 ltac:(lia)) as E2.
  pose proof (Z.mod_pos_bound n1 d1 H1) as B1.
  pose proof (Z.mod_pos_bound n2 d2 H2) as B2.
  destruct (round_half_even_cases n1 d1 H1) as [[-> _]|[-> C1]];
    destruct (round_half_even_cases n2 d2 H2) as [[-> C2]|[-> _]];
    try lia.
  destruct (Z.eq_dec (n1 / d1) (n2 / d2)) as [Eq|]; [|lia].
  exfalso. rewrite <- Eq in *.
  set (q := n1 / d1) in *. set (r1 := n1 mod d1) in *.
  set (r2 := n2 mod d2) in *.
  assert (Hr : r1 * d2 <= r2 * d1) by nia.
  destruct C1 as [C1|[C1 O1]]; destruct C2 as [C2|[C2 O2]];
    try congruence; nia.
Qed.

Lemma round_half_even_exact a d : 0 < d -> round_half_even (a * d) d = a.
Proof.
  intros Hd. unfold round_half_even.
  rewrite Z.div_mul, Z.mod_mul by lia.
  destruct (Z.ltb_spec (2 * 0) d); [reflexivity|lia].
Qed.

Lemma round_half_even_lower a n d :
  0 < d -> a * d <= n -> a <= round_half_even n d.
Proof.
  intros Hd H. rewrite <- (round_half_even_exact a 1) by lia.
  apply round_half_even_mono; lia.
Qed.

Lemma round_half_even_upper a n d :
  0 < d -> n <= a * d -> round_half_even n d <= a.
Proof.
  intros Hd H.
  apply Z.le_trans with (round_half_even (a * 1) 1);
    [apply round_half_even_mono; lia|].
  rewrite round_half_even_exact; lia.
Qed.

(** The scale. *)

Lemma scale_spec n d :
  0 < n -> 0 < d -> n < 2 ^ 52 * d ->
  0 <= scale n d /\
  2 ^ 52 * d <= n * 2 ^ scale n d < 2 ^ 53 * d.
Proof.
  intros Hn Hd Hlt. unfold scale.
  destruct (Z.log2_spec n Hn) as [Ln Un].
  destruct (Z.log2_spec d Hd) as [Ld Ud].
  pose proof (Z.log2_nonneg n) as An. pose proof (Z.log2_nonneg d) as Ad.
  set (a := Z.log2 n) in *. set (b := Z.log2 d) in *.
  rewrite Z.pow_succ_r in Un, Ud by lia.
  assert (Hab : a <= 52 + b).
  { apply Z.lt_succ_r.
    apply (proj2 (Z.pow_lt_mono_r_iff 2 a (Z.succ (52 + b))
                    ltac:(lia) ltac:(lia))).
    rewrite Z.pow_succ_r, Z.pow_add_r by lia. nia. }
  set (s0 := 52 + b - a).
  assert (Hs0 : 0 <= s0) by (subst s0; lia).
  assert (P1 : 2 ^ a * 2 ^ s0 = 2 ^ 52 * 2 ^ b).
  { rewrite <- !Z.pow_add_r by lia. f_equal. subst s0. lia. }
  assert (P2 : 2 ^ (s0 + 1) = 2 * 2 ^ s0)
    by (rewrite Z.pow_add_r by lia; lia).
  assert (0 < 2 ^ s0) by (apply Z.pow_pos_nonneg; lia).
  assert (0 < 2 ^ a) by (apply Z.pow_pos_nonneg; lia).
  assert (0 < 2 ^ b) by (apply Z.pow_pos_nonneg; lia).
  change (2 ^ 53) with (2 * 2 ^ 52).
  destruct (Z.leb_spec (2 ^ 52 * d) (n * 2 ^ s0)).
  - split; [lia|]. split; [lia|]. nia.
  - split; [lia|]. rewrite P2. split; nia.
Qed.

Lemma scale_antitone n1 d1 n2 d2 :
  0 < n1 -> 0 < d1 -> n1 < 2 ^ 52 * d1 ->
  0 < n2 -> 0 < d2 -> n2 < 2 ^ 52 * d2 ->
  n1 * d2 <= n2 * d1 -> scale n2 d2 <= scale n1 d1.
Proof.
  intros Hn1 Hd1 Hl1 Hn2 Hd2 Hl2 H.
  destruct (scale_spec n1 d1 Hn1 Hd1 Hl1) as (S1 & L1 & U1).
  destruct (scale_spec n2 d2 Hn2 Hd2 Hl2) as (S2 & L2 & U2).
  destruct (Z_le_gt_dec (scale n2 d2) (scale n1 d1)) as [|Hgt]; [assumption|].
  exfalso. set (s1 := scale n1 d1) in *. set (s2 := scale n2 d2) in *.
  assert (E : 2 ^ s2 = 2 ^ s1 * 2 ^ (s2 - s1))
    by (rewrite <- Z.pow_add_r by lia; f_equal; lia).
  assert (2 <= 2 ^ (s2 - s1)).
  { change 2 with (2 ^ 1) at 1. apply Z.pow_le_mono_r; lia. }
  assert (0 < 2 ^ s1) by (apply Z.pow_pos_nonneg; lia).
  change (2 ^ 53) with (2 * 2 ^ 52) in *.
  rewrite E in U2. set (p := 2 ^ s1) in *. set (k := 2 ^ (s2 - s1)) in *.
  assert (A1 : n2 * p * 2 <= n2 * p * k) by nia.
  assert (A2 : n2 * p < 2 ^ 52 * d2) by lia.
  assert (A3 : n2 * p * d1 < 2 ^ 52 * d2 * d1) by nia.
  assert (A4 : 2 ^ 52 * d1 * d2 <= n1 * p * d2) by nia.
  assert (A5 : n1 * d2 * p <= n2 * d1 * p) by nia.
  lia.
Qed.

(** Doubles. *)

Lemma to_double_spec n d :
  0 < n -> 0 < d -> n < 2 ^ 52 * d ->
  2 ^ 52 <= fst (to_double n d) <= 2 ^ 53 /\ 0 <= snd (to_double n d).
Proof.
  intros Hn Hd Hlt. destruct (scale_spec n d Hn Hd Hlt) as (S & L & U).
  unfold to_double. cbn [fst snd]. split; [split|exact S].
  - apply round_half_even_lower; [exact Hd | exact L].
  - apply round_half_even_upper; [exact Hd | lia].
Qed.

Lemma to_double_mono n1 d1 n2 d2 :
  0 < n1 -> 0 < d1 -> n1 < 2 ^ 52 * d1 ->
  0 < n2 -> 0 < d2 -> n2 < 2 ^ 52 * d2 ->
  n1 * d2 <= n2 * d1 ->
  double_le (to_double n1 d1) (to_double n2 d2).
Proof.
  intros Hn1 Hd1 Hl1 Hn2 Hd2 Hl2 H.
  pose proof (scale_antitone _ _ _ _ Hn1 Hd1 Hl1 Hn2 Hd2 Hl2 H) as Hs.
  destruct (to_double_spec n1 d1 Hn1 Hd1 Hl1) as ([_ U1] & S1).
  destruct (to_double_spec n2 d2 Hn2 Hd2 Hl2) as ([L2 _] & S2).
  unfold double_le. unfold to_double in *. cbn [fst snd] in *.
  set (s1 := scale n1 d1) in *. set (s2 := scale n2 d2) in *.
  set (M1 := round_half_even (n1 * 2 ^ s1) d1) in *.
  set (M2 := round_half_even (n2 * 2 ^ s2) d2) in *.
  assert (P1 : 0 < 2 ^ s1) by (apply Z.pow_pos_nonneg; lia).
  assert (P2 : 0 < 2 ^ s2) by (apply Z.pow_pos_nonneg; lia).
  destruct (Z.eq_dec s1 s2) as [E|NE].
  - assert (M1 <= M2); [|rewrite E; nia].
    subst M1 M2. rewrite <- E. apply round_half_even_mono; [lia|lia|]. nia.
  - assert (E : 2 ^ s1 = 2 ^ s2 * 2 ^ (s1 - s2))
      by (rewrite <- Z.pow_add_r by lia; f_equal; lia).
    assert (2 <= 2 ^ (s1 - s2)).
    { change 2 with (2 ^ 1) at 1. apply Z.pow_le_mono_r; lia. }
    change (2 ^ 53) with (2 * 2 ^ 52) in U1. rewrite E.
    set (p := 2 ^ s2) in *. set (k := 2 ^ (s1 - s2)) in *.
    assert (A1 : M1 * p <= 2 * 2 ^ 52 * p) by nia.
    assert (A2 : 2 ^ 52 * (p * 2) <= M2 * (p * 2)) by nia.
    assert (A3 : M2 * (p * 2) <= M2 * (p * k)) by nia.
    lia.
Qed.

Lemma Math_round_mono x y :
  0 <= snd x -> 0 <= snd y -> double_le x y ->
  Math_round x <= Math_round y.
Proof.
  destruct x as [M1 s1], y as [M2 s2]. unfold double_le, Math_round.
  cbn [fst snd]. intros S1 S2 H.
  assert (P1 : 0 < 2 ^ s1) by (apply Z.pow_pos_nonneg; lia).
  assert (P2 : 0 < 2 ^ s2) by (apply Z.pow_pos_nonneg; lia).
  rewrite !Z.pow_add_r by lia. change (2 ^ 1) with 2.
  apply div_le_cross; nia.
Qed.

(** The percentage. *)

Lemma js_div_spec i m :
  1 <= i <= m ->
  let x := js_div i m in
  2 ^ 52 <= fst x <= 2 ^ 53 /\ 0 <= snd x /\ fst x <= 2 ^ snd x.
Proof.
  intros H x. subst x. unfold js_div.
  destruct (to_double_spec i m) as (B & S); [lia|lia|lia|].
  split; [exact B|]. split; [exact S|].
  pose proof (to_double_mono i m 1 1) as Hle. unfold double_le in Hle.
  change (to_double 1 1) with (2 ^ 52, 52) in Hle. cbn [fst snd] in Hle.
  specialize (Hle ltac:(lia) ltac:(lia) ltac:(lia) ltac:(lia) ltac:(lia)
                  ltac:(lia) ltac:(lia)).
  lia.
Qed.

Lemma percentage_mono_double i j m :
  1 <= i <= j -> j <= m ->
  double_le (js_mul (js_div i m) 100) (js_mul (js_div j m) 100).
Proof.
  intros Hi Hj.
  destruct (js_div_spec i m ltac:(lia)) as (Bi & Si & Vi).
  destruct (js_div_spec j m ltac:(lia)) as (Bj & Sj & Vj).
  pose proof (to_double_mono i m j m) as Hle. unfold double_le in Hle.
  specialize (Hle ltac:(lia) ltac:(lia) ltac:(lia) ltac:(lia) ltac:(lia)
                  ltac:(lia) ltac:(nia)).
  fold (js_div i m) (js_div j m) in Hle.
  assert (Pi : 0 < 2 ^ snd (js_div i m)) by (apply Z.pow_pos_nonneg; lia).
  assert (Pj : 0 < 2 ^ snd (js_div j m)) by (apply Z.pow_pos_nonneg; lia).
  unfold js_mul. apply to_double_mono; lia.
Qed.

Lemma js_mul_100_spec i m :
  1 <= i <= m ->
  let y := js_mul (js_div i m) 100 in
  0 <= snd y /\ 0 <= fst y /\ double_le y (100 * 2 ^ 46, 46).
Proof.
  intros H y. subst y.
  destruct (js_div_spec i m H) as (B & S & V).
  assert (P : 0 < 2 ^ snd (js_div i m)) by (apply Z.pow_pos_nonneg; lia).
  unfold js_mul.
  destruct (to_double_spec (fst (js_div i m) * 100) (2 ^ snd (js_div i m)))
    as (B' & S'); [lia|lia|lia|].
  split; [exact S'|]. split; [lia|].
  change (100 * 2 ^ 46, 46) with (to_double 100 1).
  apply to_double_mono; lia.
Qed.

Lemma round_pct_range i m : 1 <= i <= m -> 0 <= round_pct i m <= 100.
Proof.
  intros H. destruct (js_mul_100_spec i m H) as (S & M & V).
  unfold round_pct. split.
  - unfold Math_round. apply Z.div_pos.
    + assert (0 < 2 ^ snd (js_mul (js_div i m) 100))
        by (apply Z.pow_pos_nonneg; lia). lia.
    + apply Z.pow_pos_nonneg; lia.
  - change 100 with (Math_round (100 * 2 ^ 46, 46)) at 2.
    apply Math_round_mono; [exact S | cbn [snd]; lia | exact V].
Qed.

Lemma round_pct_mono i j m :
  1 <= i <= j -> j <= m -> round_pct i m <= round_pct j m.
Proof.
  intros Hi Hj. unfold round_pct.
  destruct (js_mul_100_spec i m ltac:(lia)) as (Si & _ & _).
  destruct (js_mul_100_spec j m ltac:(lia)) as (Sj & _ & _).
  apply Math_round_mono; [exact Si | exact Sj |].
  apply percentage_mono_double; assumption.
Qed.

Lemma round_pct_full m : 1 <= m -> round_pct m m = 100.
Proof.
  intros H. apply Z.le_antisymm; [apply round_pct_range; lia|].
  unfold round_pct.
  destruct (js_mul_100_spec m m ltac:(lia)) as (S & _ & _).
  destruct (js_div_spec m m ltac:(lia)) as (B & S1 & V).
  assert (P : 0 < 2 ^ snd (js_div m m)) by (apply Z.pow_pos_nonneg; lia).
  change 100 with (Math_round (to_double 100 1)) at 1.
  apply Math_round_mono;
    [change (snd (to_double 100 1)) with 46; lia | exact S |].
  pose proof (to_double_mono 1 1 m m) as Hle. unfold double_le in Hle.
  specialize (Hle ltac:(lia) ltac:(lia) ltac:(lia) ltac:(lia) ltac:(lia)
                  ltac:(lia) ltac:(lia)).
  change (to_double 1 1) with (2 ^ 52, 52) in Hle. cbn [fst snd] in Hle.
  fold (js_div m m) in Hle.
  unfold js_mul. apply to_double_mono; lia.
Qed.

Example round_pct_examples :
  (round_pct 1 3, round_pct 1 8, round_pct 1 200, round_pct 23 40,
   round_pct 2 3, round_pct 3 3)
  = (33, 13, 1, 57, 67, 100).
Proof. vm_compute. reflexivity. Qed.

Lemma page_numbers_elem i maxPages :
  i ∈ page_numbers maxPages <->
  exists m, ToNumber maxPages = Some m /\ 1 <= i <= m.
Proof.
  unfold page_numbers. destruct (ToNumber maxPages) as [m|].
  - rewrite elem_of_seqZ. split.
    + intros H. exists m. split; [done|lia].
    + intros (m' & [= <-] & H). lia.
  - split; [by intros ?%elem_of_nil | by intros (m & ? & _)].
Qed.

Lemma page_numbers_spec i maxPages :
  i ∈ page_numbers maxPages <-> 1 <= i /\ js_le i maxPages = true.
Proof.
  rewrite page_numbers_elem. unfold js_le.
  destruct (ToNumber maxPages) as [m|].
  - rewrite Z.leb_le. split.
    + intros (m' & [= <-] & H). lia.
    + intros H. exists m. split; [done|lia].
  - split; [by intros (m & ? & _) | by intros [_ ?]].
Qed.

Lemma progress_of_page i maxPages :
  i ∈ page_numbers maxPages -> percent (progress_of i maxPages).
Proof.
  intros (m & Hm & Hi)%page_numbers_elem. unfold progress_of, percent.
  rewrite Hm. by apply round_pct_range.
Qed.

Lemma seqZ_take_sorted (f : Z -> Job) (R : Job -> Job -> Prop) a len n :
  (forall i j, a <= i < j -> j < a + len -> R (f i) (f j)) ->
  StronglySorted R (map f (take n (seqZ a len))).
Proof.
  revert a len. induction n as [|n IH]; intros a len H.
  - rewrite take_0. constructor.
  - destruct (Z_lt_le_dec 0 len) as [Hl|Hl].
    + rewrite seqZ_cons by done. cbn [take map]. constructor.
      * apply IH. intros i j Hi Hj. apply H; lia.
      * apply Forall_forall. intros x Hx.
        apply list_elem_of_fmap in Hx as (j & -> & Hj).
        apply elem_of_take in Hj as (k & Hk & _).
        apply lookup_seqZ in Hk as [-> Hk]. apply H; lia.
    + rewrite seqZ_nil by done. rewrite take_nil. constructor.
Qed.

(** ** Polls *)

Lemma views_elem jobId cur tr x :
  x ∈ views jobId cur tr ->
  x = cur \/ exists j, x = Some j /\ j ∈ writes jobId tr.
Proof.
  revert cur. induction tr as [|[id j|c] tr IH]; intros cur; cbn [views writes].
  - intros ->%list_elem_of_singleton. by left.
  - destruct (decide (id = jobId)) as [->|Hne].
    + intros [->|(j' & -> & Hj')]%IH; right.
      * exists j. split; [done|apply list_elem_of_here].
      * exists j'. split; [done|by apply list_elem_of_further].
    + apply IH.
  - intros [->|Hx]%elem_of_cons; [by left|]. by apply IH.
Qed.

Lemma views_sorted (R : option Job -> option Job -> Prop) jobId cur tr :
  (forall x, R x x) ->
  StronglySorted R (cur :: map Some (writes jobId tr)) ->
  StronglySorted R (views jobId cur tr).
Proof.
  intros Hrefl. revert cur.
  induction tr as [|[id j|c] tr IH]; intros cur H; cbn [views writes] in *.
  - repeat constructor.
  - destruct (decide (id = jobId)) as [->|Hne].
    + apply IH. cbn [map] in H. by apply StronglySorted_cons in H as [_ H].
    + by apply IH.
  - constructor; [by apply IH|].
    apply StronglySorted_cons in H as [H _].
    apply Forall_forall. intros x [->|(j & -> & Hj)]%views_elem; [done|].
    rewrite Forall_forall in H. apply H.
    by apply (list_elem_of_fmap_2 Some).
Qed.

Lemma writes_quiet jobId cur tr :
  writes jobId tr = [] -> Forall (eq cur) (views jobId cur tr).
Proof.
  intros H. apply Forall_forall. intros x [->|(j & _ & Hj)]%views_elem.
  - done.
  - rewrite H in Hj. by apply elem_of_nil in Hj.
Qed.

Lemma interleaved_alone t : interleaved t [] t.
Proof. induction t; by constructor. Qed.

Lemma interleaved_alternate t others :
  interleaved t others (alternate t others).
Proof.
  revert others. induction t as [|e t IH]; intros others.
  - cbn. induction others; by constructor.
  - destruct others as [|o others]; cbn.
    + apply interleaved_alone.
    + by repeat constructor.
Qed.

Lemma interleaved_writes jobId t others tr :
  interleaved t others tr -> writes jobId others = [] ->
  writes jobId tr = writes jobId t.
Proof.
  induction 1 as [|e t others tr _ IH|e t others tr _ IH]; intros Ho.
  - done.
  - destruct e as [id j|c]; cbn [writes]; by rewrite IH.
  - destruct e as [id j|c]; cbn [writes] in *.
    + destruct (decide (id = jobId)); [done|by apply IH].
    + by apply IH.
Qed.

Lemma observed_elem jobId tr j :
  j ∈ observed jobId tr -> j ∈ writes jobId tr.
Proof.
  intros (x & Hx & Hj)%list_elem_of_omap. cbn in Hj. subst x.
  by apply views_elem in Hx as [?|(j' & [= <-] & Hj')].
Qed.

Lemma omap_sorted (l : list (option Job)) :
  StronglySorted keeps_up_opt l -> StronglySorted keeps_up (omap id l).
Proof.
  induction 1 as [|x l Hl IH Hx]; [constructor|].
  destruct x as [a|]; cbn [omap]; [|exact IH]. cbn. constructor; [exact IH|].
  apply Forall_forall. intros y (x & Hx' & Hy)%list_elem_of_omap.
  cbn in Hy. subst x. rewrite Forall_forall in Hx. by apply (Hx (Some y)).
Qed.

Lemma keeps_up_opt_refl x : keeps_up_opt x x.
Proof. destruct x as [a|]; cbn; [right; lia | done]. Qed.

Lemma observed_sorted jobId tr :
  StronglySorted keeps_up (writes jobId tr) ->
  StronglySorted keeps_up (observed jobId tr).
Proof.
  intros H. apply omap_sorted, views_sorted; [apply keeps_up_opt_refl|].
  constructor; [|by apply Forall_forall].
  induction H as [|a l Hl IH Ha]; cbn [map]; constructor; [exact IH|].
  apply Forall_forall. intros y (x & -> & Hx)%list_elem_of_fmap.
  rewrite Forall_forall in Ha. by apply Ha.
Qed.

Lemma sorted_non_decreasing (l : list Job) :
  StronglySorted keeps_up l ->
  non_decreasing (map progress (filter (fun j => status j <> failed) l)).
Proof.
  induction 1 as [|a l Hl IH Ha]; [exact I|].
  destruct (decide (status a <> failed)) as [Hs|Hs].
  - rewrite filter_cons_True by exact Hs.
    destruct (filter (fun j => status j <> failed) l) as [|y l'] eqn:Hf;
      [exact I|].
    cbn [map non_decreasing]. split; [|exact IH].
    assert (Hy : y ∈ filter (fun j => status j <> failed) l)
      by (rewrite Hf; apply list_elem_of_here).
    apply list_elem_of_filter in Hy as [Hy1 Hy2].
    rewrite Forall_forall in Ha. destruct (Ha y Hy2); [contradiction|done].
  - rewrite filter_cons_False by exact Hs. exact IH.
Qed.

(** ** Progress over the polls *)

Lemma job_writes_percent b jobId url limit_pages :
  Forall (fun j => percent (progress j) /\
                   (status j = failed -> progress j = 0))
    (writes jobId (job_trace b jobId url limit_pages)).
Proof.
  destruct (job_writes b jobId url limit_pages)
    as [->|(n & fin & -> & Hfin)]; [constructor|].
  repeat (apply Forall_cons; split; [by (split; [unfold percent; cbn; lia|])|]).
  apply Forall_app. split.
  - apply Forall_forall. intros x (i & -> & Hi)%page_records_elem.
    split; [by apply progress_of_page | done].
  - destruct Hfin as [->|(f & -> & Hf)]; [constructor|].
    apply Forall_cons. split; [|constructor].
    destruct (final_record_status _ _ Hf) as [[Hs Hp]|[Hs Hp]];
      rewrite Hs, Hp; unfold percent; split; (lia || done).
Qed.

Lemma page_records_sorted (maxPages : JsValue) n :
  StronglySorted keeps_up
    (map (fun i => job_on_page i maxPages) (take n (page_numbers maxPages))).
Proof.
  unfold page_numbers. destruct (ToNumber maxPages) as [m|] eqn:Hm.
  - apply seqZ_take_sorted. intros i j Hi Hj. right. cbn.
    unfold progress_of. rewrite Hm. apply round_pct_mono; lia.
  - rewrite take_nil. constructor.
Qed.

Lemma job_writes_sorted b jobId url limit_pages :
  StronglySorted keeps_up (writes jobId (job_trace b jobId url limit_pages)).
Proof.
  pose proof (job_writes_percent b jobId url limit_pages) as Hp.
  destruct (job_writes b jobId url limit_pages)
    as [->|(n & fin & Hw & Hfin)]; [constructor|].
  rewrite Hw in Hp |- *.
  assert (Hzero : forall a l, progress a = 0 ->
    Forall (fun j => percent (progress j) /\
                     (status j = failed -> progress j = 0)) l ->
    Forall (keeps_up a) l).
  { intros a l Ha H. eapply Forall_impl; [exact H|].
    intros j [[Hj _] _]. right. lia. }
  apply Forall_cons in Hp as [_ Hp].
  apply StronglySorted_cons. split; [by apply Hzero|].
  apply Forall_cons in Hp as [_ Hp].
  apply StronglySorted_cons. split; [by apply Hzero|].
  apply Forall_app in Hp as [Hpages Hfinp].
  apply StronglySorted_app_2.
  - intros x f Hx Hf'. destruct Hfin as [->|(f' & -> & Hf)];
      [by apply elem_of_nil in Hf'|].
    apply list_elem_of_singleton in Hf'. subst f'.
    rewrite Forall_forall in Hpages. destruct (Hpages x Hx) as [[_ Hx100] _].
    destruct (final_record_status _ _ Hf) as [[Hs _]|[_ Hp100]];
      [by left | right; lia].
  - apply page_records_sorted.
  - destruct Hfin as [->|(f & -> & _)]; repeat constructor.
Qed.

(** C2 (as amended).  Let a job run from its submission on, its events
    shuffled in any way with those of other requests, which do not write
    its entry.  The progress that successive polls read is always within
    [0, 100]; over the polls that do not find the job failed it never goes
    down; a poll that finds the job failed reads 0, the value the [catch]
    block resets it to. *)
Theorem progress_rises_until_failure b jobId url limit_pages others tr :
  interleaved (job_trace b jobId url limit_pages) others tr ->
  writes jobId others = [] ->
  Forall (fun j => percent (progress j)) (observed jobId tr) /\
  non_decreasing
    (map progress
       (filter (fun j => status j <> failed) (observed jobId tr))) /\
  Forall (fun j => status j = failed -> progress j = 0) (observed jobId tr).
Proof.
  intros Htr Hothers.
  pose proof (interleaved_writes jobId _ _ _ Htr Hothers) as Hw.
  pose proof (job_writes_percent b jobId url limit_pages) as Hp.
  rewrite <- Hw, Forall_forall in Hp.
  split; [|split].
  - apply Forall_forall. intros j Hj%observed_elem. by apply Hp.
  - apply sorted_non_decreasing, observed_sorted. rewrite Hw.
    apply job_writes_sorted.
  - apply Forall_forall. intros j Hj%observed_elem. by apply Hp.
Qed.

Lemma progress_rises_until_failure_witness :
  let b := crashing_browser in
  let id := lit "job_1" in
  let url := lit "https://a.test/" in
  let others := job_trace single_page_site (lit "job_2") url (JNum 3) in
  let tr := alternate (job_trace b id url (JNum 1)) others in
  interleaved (job_trace b id url (JNum 1)) others tr /\
  writes id others = [] /\
  Forall (fun j => percent (progress j)) (observed id tr) /\
  non_decreasing
    (map progress (filter (fun j => status j <> failed) (observed id tr))) /\
  Forall (fun j => status j = failed -> progress j = 0) (observed id tr).
Proof.
  intros b id url others tr.
  assert (Hi : interleaved (job_trace b id url (JNum 1)) others tr)
    by apply interleaved_alternate.
  assert (Ho : writes id others = []) by reflexivity.
  split; [exact Hi|]. split; [exact Ho|].
  exact (progress_rises_until_failure b id url (JNum 1) others tr Hi Ho).
Defined.

Example crashing_job_polls :
  map (fun j => (status j, progress j))
      (polls crashing_browser (lit "job_1") (lit "https://a.test/") (JNum 1))
  = [(running, 0); (running, 0); (running, 0); (running, 100);
     (running, 100); (running, 100); (failed, 0); (failed, 0)].
Proof. reflexivity. Qed.

(** C2, as the specification states it, fails: with a page limit of 1 the
    update of page 1 shows 100, the evaluation then throws and the [catch]
    block writes 0. *)
Lemma progress_drops_on_failure :
  ~ progress_never_drops crashing_browser (lit "job_1")
      (lit "https://a.test/") (JNum 1).
Proof.
  intros [H _]. vm_compute in H.
  destruct H as (_ & _ & _ & _ & _ & H & _). by apply H.
Qed.

(** ** Terminal states *)

Lemma job_writes_terminal_last b jobId url limit_pages pre j post :
  writes jobId (job_trace b jobId url limit_pages) = pre ++ j :: post ->
  terminal (status j) = true ->
  post = [] /\ Forall (fun x => terminal (status x) = false) pre.
Proof.
  intros Hsplit Hj.
  destruct (job_writes b jobId url limit_pages)
    as [Hw|(n & fin & Hw & Hfin)]; rewrite Hw in Hsplit.
  { by destruct pre. }
  set (maxPages := js_or limit_pages (JNum 1)) in *.
  set (body := job_queued :: job_started
               :: map (fun i => job_on_page i maxPages)
                      (take n (page_numbers maxPages))) in *.
  assert (Hbody : Forall (fun x => terminal (status x) = false) body).
  { subst body. repeat (apply Forall_cons; split; [done|]).
    apply Forall_forall. by intros x (i & -> & _)%page_records_elem. }
  change (body ++ fin = pre ++ j :: post) in Hsplit.
  assert (Hin : forall l, body = pre ++ j :: l -> False).
  { intros l Hl. rewrite Hl in Hbody. apply Forall_app in Hbody as [_ Hb].
    apply Forall_cons in Hb as [Hb _]. congruence. }
  destruct Hfin as [->|(f & -> & _)].
  - rewrite app_nil_r in Hsplit. by destruct (Hin post).
  - destruct post as [|y post _] using rev_ind.
    + apply (app_inj_tail body pre f j) in Hsplit as [-> _]. done.
    + rewrite app_comm_cons, app_assoc in Hsplit.
      apply app_inj_tail in Hsplit as [Hb _]. by destruct (Hin post).
Qed.

(** C5.  Let a job run from its submission on, its events shuffled in any
    way with those of other requests, which do not write its entry.  A
    write of [completed] or [failed] to the entry is the last write to it:
    every later poll finds that very record, and every earlier write was
    [queued] or [running].  And the submission and the run of a job with
    another identifier do not write the entry. *)
Theorem terminal_status_is_final b jobId url limit_pages :
  (forall others tr pre j post,
     interleaved (job_trace b jobId url limit_pages) others tr ->
     writes jobId others = [] ->
     tr = pre ++ ev_set jobId j :: post ->
     terminal (status j) = true ->
     writes jobId post = [] /\
     Forall (eq (Some j)) (views jobId (Some j) post) /\
     Forall (fun x => terminal (status x) = false) (writes jobId pre)) /\
  (forall b' jobId' originUrl' limit_pages' w,
     jobId' <> jobId ->
     let w' := snd (post_scrape b' jobId' originUrl' limit_pages' w) in
     exists others,
       trace w' = trace w ++ others /\
       writes jobId others = [] /\
       jobs w' !! jobId = jobs w !! jobId).
Proof.
  split.
  - intros others tr pre j post Htr Hothers Hsplit Hj.
    assert (Hw : writes jobId (job_trace b jobId url limit_pages)
                 = writes jobId pre ++ j :: writes jobId post).
    { rewrite <- (interleaved_writes jobId _ _ _ Htr Hothers), Hsplit.
      rewrite writes_app. cbn [writes]. by rewrite decide_True by done. }
    destruct (job_writes_terminal_last _ _ _ _ _ _ _ Hw Hj) as [Hpost Hpre].
    split; [exact Hpost|]. split; [by apply writes_quiet | exact Hpre].
  - intros b' jobId' originUrl' limit_pages' w Hne w'.
    destruct (post_scrape_events b' jobId' originUrl' limit_pages' w)
      as (others & Ht & Hj & Hs).
    apply submission_own in Hs. exists others. split; [exact Ht|].
    split; [by eapply own_events_write_elsewhere|].
    subst w'. rewrite Hj. by eapply replay_other.
Qed.

Lemma terminal_status_is_final_witness :
  let b := crashing_browser in
  let id := lit "job_1" in
  let url := lit "https://a.test/" in
  let others := job_trace single_page_site (lit "job_2") url (JNum 1) in
  let tr := job_trace b id url (JNum 1) ++ others in
  let j := job_failed (lit "Execution context was destroyed") in
  let w := snd (post_scrape b id (Some url) (JNum 1) empty_world) in
  let w' := snd (post_scrape single_page_site (lit "job_2") (Some url)
                   (JNum 1) w) in
  interleaved (job_trace b id url (JNum 1)) others tr /\
  writes id others = [] /\
  tr = take 9 tr ++ ev_set id j :: drop 10 tr /\
  terminal (status j) = true /\
  writes id (drop 10 tr) = [] /\
  Forall (eq (Some j)) (views id (Some j) (drop 10 tr)) /\
  Forall (fun x => terminal (status x) = false) (writes id (take 9 tr)) /\
  exists others',
    trace w' = trace w ++ others' /\
    writes id others' = [] /\
    jobs w' !! id = jobs w !! id.
Proof.
  intros b id url others tr j w w'.
  destruct (terminal_status_is_final b id url (JNum 1)) as [H1 H2].
  assert (Hi : interleaved (job_trace b id url (JNum 1)) others tr)
    by (vm_compute; repeat constructor).
  assert (Ho : writes id others = []) by reflexivity.
  assert (Hs : tr = take 9 tr ++ ev_set id j :: drop 10 tr) by reflexivity.
  destruct (H1 others tr (take 9 tr) j (drop 10 tr) Hi Ho Hs eq_refl)
    as (Ha & Hb & Hc).
  repeat (split; [assumption || reflexivity|]).
  apply (H2 single_page_site (lit "job_2") (Some url) (JNum 1) w).
  discriminate.
Defined.

(** ** Pagination that stops early *)

Lemma scrape_pages_stops b jobId maxPages m k :
  ToNumber maxPages = Some m -> k < m -> stops_at b k ->
  forall (d : nat) i allListings,
    i + Z.of_nat d = k -> 1 <= i ->
    emits (scrape_pages b jobId maxPages (seqZ i (m - i + 1)) allListings)
      (fun r tr =>
         r = Returned (allListings
                       ++ concat (map (pageListings_of b)
                                      (seqZ i (k - i + 1)))) /\
         Forall (loop_event jobId) tr /\
         writes jobId tr
           = map (fun i => job_on_page i maxPages) (seqZ i (k - i + 1))).
Proof.
  intros Hm Hk (Hbefore & (Hsettle & links & Hlinks) & Hhidden).
  induction d as [|d IH]; intros i acc Hd Hi.
  - assert (i = k) as -> by lia.
    rewrite (seqZ_cons k (m - k + 1)) by lia. cbn [scrape_pages].
    replace (k - k + 1) with 1 by lia. rewrite (seqZ_cons k 1) by lia.
    rewrite (seqZ_nil _ (Z.pred 1)) by lia.
    unfold js_lt. rewrite Hm, Hsettle, Hlinks, Hhidden.
    replace (k <? m) with true by (symmetry; apply Z.ltb_lt; lia).
    emit;
      (split; [|split];
       [ cbn [map concat]; unfold pageListings_of; rewrite Hlinks;
         by rewrite app_nil_r
       | repeat (apply Forall_cons; split; [done|]); apply Forall_nil_2
       | cbn [writes map]; rewrite decide_True by done; reflexivity ]).
  - destruct (Hbefore i ltac:(lia))
      as ((Hs & l & Hl) & Hv & Hc & Hp).
    rewrite (seqZ_cons i (m - i + 1)) by lia. cbn [scrape_pages].
    rewrite (seqZ_cons i (k - i + 1)) by lia.
    unfold js_lt. rewrite Hm, Hs, Hl, Hv, Hc, Hp.
    replace (i <? m) with true by (symmetry; apply Z.ltb_lt; lia).
    replace (Z.pred (m - i + 1)) with (m - Z.succ i + 1) by lia.
    replace (Z.pred (k - i + 1)) with (k - Z.succ i + 1) by lia.
    emit;
      (eapply emits_weaken; [apply (IH (Z.succ i)); lia|];
       intros r tr (-> & Htr & Hw); cbn beta;
       (split; [|split]);
       [ cbn [map concat]; unfold pageListings_of at 2; rewrite Hl;
         by rewrite <- app_assoc
       | repeat (apply Forall_cons; split; [done|]); exact Htr
       | cbn [writes map]; rewrite decide_True by done; rewrite Hw;
         reflexivity ]).
Qed.

Lemma runScraper_stops b jobId originUrl maxPages m k :
  session_acquired b -> goto b = Returned tt ->
  ToNumber maxPages = Some m -> 1 <= k < m -> stops_at b k ->
  emits (runScraper b jobId originUrl maxPages)
    (fun r tr =>
       r = close b /\
       writes jobId tr
         = job_started
           :: map (fun i => job_on_page i maxPages) (seqZ 1 k)
           ++ [job_completed
                 (dedupe (concat (map (pageListings_of b) (seqZ 1 k))))
                 (now_ISO b)]).
Proof.
  intros [Hl Hp] Hg Hm Hk Hstop. unfold runScraper.
  assert (default_maxPages maxPages = maxPages) as ->
    by (by destruct maxPages).
  unfold page_numbers. rewrite Hl, Hp, Hg, Hm.
  assert (seqZ 1 m = seqZ 1 (m - 1 + 1)) as -> by (f_equal; lia).
  emit. eapply emits_weaken.
  { apply (scrape_pages_stops b jobId maxPages m k Hm ltac:(lia) Hstop
             (Z.to_nat (k - 1)) 1); lia. }
  intros r tr (-> & Htr & Hw). cbn beta iota. emit.
  rewrite unit_outcome. split; [done|].
  replace (k - 1 + 1) with k in * by lia.
  cbn [writes]. rewrite decide_True by done.
  rewrite !writes_app, Hw. cbn [writes app].
  rewrite decide_True by done. by rewrite app_nil_r.
Qed.

(** C4 (as amended).  When the next-page control is not visible on page
    [k], before the requested maximum, the pagination stops there without
    an error and the job is completed with the listings of the pages 1 to
    [k].  The record of the completion has no [totalPages] (and no
    [currentPage]); the requested maximum is the [totalPages] of the last
    record written while running, whose [currentPage] is [k]. *)
Theorem early_stop_completes b jobId originUrl maxPages m k w :
  session_acquired b -> goto b = Returned tt ->
  ToNumber maxPages = Some m -> 1 <= k < m -> stops_at b k ->
  let final :=
    job_completed (dedupe (concat (map (pageListings_of b) (seqZ 1 k))))
                  (now_ISO b) in
  let last_running := job_on_page k maxPages in
  let w' := snd (runScraper b jobId originUrl maxPages w) in
  fst (runScraper b jobId originUrl maxPages w) = close b /\
  jobs w' !! jobId = Some final /\
  (exists tr pages,
     trace w' = trace w ++ tr /\
     writes jobId tr = job_started :: pages ++ [last_running; final] /\
     Forall (fun j => status j = running) pages) /\
  status final = completed /\
  totalPages final = None /\ currentPage final = None /\
  status last_running = running /\
  totalPages last_running = Some maxPages /\
  currentPage last_running = Some k.
Proof.
  intros Hs Hg Hm Hk Hstop final last_running w'.
  destruct (runScraper_stops b jobId originUrl maxPages m k Hs Hg Hm Hk Hstop w)
    as (tr & Ht & Hj & Hr & Hw).
  fold final in Hw.
  split; [exact Hr|]. split; [|split; [|by repeat split]].
  - subst w'. rewrite Hj, replay_lookup, Hw.
    change (job_started :: ?l ++ [final]) with ((job_started :: l) ++ [final]).
    by rewrite last_snoc.
  - exists tr, (map (fun i => job_on_page i maxPages) (seqZ 1 (k - 1))).
    split; [exact Ht|]. split.
    + rewrite Hw. f_equal. replace k with ((k - 1) + 1) at 1 by lia.
      rewrite seqZ_app by lia. rewrite map_app, <- app_assoc.
      replace (1 + (k - 1)) with k by lia.
      rewrite (seqZ_cons k 1) by lia.
      rewrite (seqZ_nil (Z.succ k)) by lia. done.
    + apply Forall_forall. by intros j (i & -> & _)%list_elem_of_fmap.
Qed.

Example two_page_site_stops : stops_at two_page_site 2.
Proof.
  split; [|split; [split; [reflexivity | by eexists] | reflexivity]].
  intros i Hi. assert (i = 1) as -> by lia.
  split; [split; [reflexivity | by eexists] | by repeat split].
Qed.

Example two_page_site_final_entry :
  get_job (jobs (snd (post_scrape two_page_site (lit "job_1")
                        (Some (lit "https://a.test/")) (JNum 3)
                        empty_world)))
    (lit "job_1")
  = Finished completed 100 3
      [{| title := lit "Flat 300,000"; price := lit "300,000";
          area := lit "N/A"; link := lit "https://a.test/1" |};
       {| title := lit "Villa 1,250,000"; price := lit "1,250,000";
          area := lit "N/A"; link := lit "https://a.test/2" |};
       {| title := lit "Shop 90,000"; price := lit "90,000";
          area := lit "N/A"; link := lit "https://a.test/3" |}]
      None (Some (lit "2024-05-01T10:00:00.000Z")).
Proof. vm_compute. reflexivity. Qed.

(** C4, as the specification states it, fails: three pages are requested,
    page 2 has no next-page control, the job is completed and its final
    entry has no [totalPages]. *)
Lemma final_state_has_no_totalPages :
  stops_at two_page_site 2 /\
  ~ final_totalPages_is_requested two_page_site (lit "job_1")
      (lit "https://a.test/") (JNum 3).
Proof.
  split; [exact two_page_site_stops|].
  intros (job & Hjob & _ & Htotal). vm_compute in Hjob.
  injection Hjob as <-. discriminate Htotal.
Qed.

Lemma early_stop_completes_witness :
  let b := two_page_site in
  let id := lit "job_1" in
  let url := lit "https://a.test/" in
  let final :=
    job_completed (dedupe (concat (map (pageListings_of b) (seqZ 1 2))))
                  (now_ISO b) in
  let last_running := job_on_page 2 (JNum 3) in
  let w' := snd (runScraper b id url (JNum 3) empty_world) in
  session_acquired b /\ goto b = Returned tt /\
  ToNumber (JNum 3) = Some 3 /\ 1 <= 2 < 3 /\ stops_at b 2 /\
  fst (runScraper b id url (JNum 3) empty_world) = close b /\
  jobs w' !! id = Some final /\
  (exists tr pages,
     trace w' = trace empty_world ++ tr /\
     writes id tr = job_started :: pages ++ [last_running; final] /\
     Forall (fun j => status j = running) pages) /\
  status final = completed /\
  totalPages final = None /\ currentPage final = None /\
  status last_running = running /\
  totalPages last_running = Some (JNum 3) /\
  currentPage last_running = Some 2.
Proof.
  intros b id url final last_running w'.
  assert (Hs : session_acquired b) by (split; reflexivity).
  assert (Hg : goto b = Returned tt) by reflexivity.
  assert (Hm : ToNumber (JNum 3) = Some 3) by reflexivity.
  assert (Hk : 1 <= 2 < 3) by lia.
  pose proof two_page_site_stops as Hstop.
  do 5 (split; [assumption|]).
  exact (early_stop_completes b id url (JNum 3) 3 2 empty_world
           Hs Hg Hm Hk Hstop).
Defined.

(** ** The page limit *)

(** The events of a job whose page limit is 1, by the answers of the
    settle delay and of the evaluation of page 1. *)
Lemma one_page_trace b jobId c url limit_pages :
  js_or limit_pages (JNum 1) = JNum 1 ->
  session_acquired b -> goto b = Returned tt ->
  job_trace b jobId (c :: url) limit_pages
  = [ev_set jobId job_queued; ev_set jobId job_started;
     ev_await chromium_launch; ev_await browser_newPage;
     ev_await (page_goto (c :: url));
     ev_set jobId (job_on_page 1 (JNum 1));
     ev_await page_waitForSelector; ev_await (page_waitForTimeout 2000)]
    ++ match waitForTimeout_2000 (on_page b 1) with
       | Thrown e =>
           [ev_set jobId (job_failed e); ev_await browser_close]
       | Returned _ =>
           ev_await page_evaluate
           :: match evaluate_links (on_page b 1) with
              | Returned links =>
                  [ev_set jobId
                     (job_completed (dedupe (extract_page links))
                                    (now_ISO b));
                   ev_await browser_close]
              | Thrown e =>
                  [ev_set jobId (job_failed e); ev_await browser_close]
              end
       end.
Proof.
  intros Hor [Hl Hp] Hg. unfold job_trace, post_scrape. rewrite Hor.
  cbv [bind detached jobs_set ret]. cbn [fst snd]. unfold runScraper.
  cbn [default_maxPages]. change (page_numbers (JNum 1)) with [1].
  cbn [scrape_pages]. cbv [bind jobs_set await try_finally try_catch ret js_lt].
  cbn [ToNumber]. rewrite Hl, Hp, Hg.
  destruct (waitForSelector_a (on_page b 1)) as [[]|?];
    destruct (waitForTimeout_2000 (on_page b 1)) as [[]|?];
    destruct (evaluate_links (on_page b 1)) as [links|?];
    destruct (close b) as [[]|?]; reflexivity.
Qed.

(** C9.  When [limit_pages] is absent or falsy, [maxPages] is 1: the
    request is handled as with a limit of 1 and the loop has the single
    page number 1.  Once the session is there and the navigation went
    through, page 1 is entered and no other page: its update of 1 of 1 is
    written and the run waits for the selector and through the settle
    delay; when the delay returns, the page is evaluated, once.  When the
    evaluation returns as well, the job is completed with the deduplicated
    listings of page 1, which [GET /job/:jobId] then serves. *)
Theorem falsy_limit_means_one_page b jobId originUrl limit_pages w :
  truthy limit_pages = false ->
  js_or limit_pages (JNum 1) = JNum 1 /\
  post_scrape b jobId originUrl limit_pages w
    = post_scrape b jobId originUrl (JNum 1) w /\
  page_numbers (js_or limit_pages (JNum 1)) = [1] /\
  (forall url, url <> [] -> session_acquired b -> goto b = Returned tt ->
     let tr := job_trace b jobId url limit_pages in
     let listings := dedupe (pageListings_of b 1) in
     (exists final,
        writes jobId tr
          = [job_queued; job_started; job_on_page 1 (JNum 1); final] /\
        final_record b final) /\
     (exists rest,
        calls tr
          = [chromium_launch; browser_newPage; page_goto url;
             page_waitForSelector; page_waitForTimeout 2000] ++ rest) /\
     (waitForTimeout_2000 (on_page b 1) = Returned tt ->
      evaluations tr = 1%nat) /\
     (page_scraped b 1 ->
      calls tr
        = [chromium_launch; browser_newPage; page_goto url;
           page_waitForSelector; page_waitForTimeout 2000; page_evaluate;
           browser_close] /\
      writes jobId tr
        = [job_queued; job_started; job_on_page 1 (JNum 1);
           job_completed listings (now_ISO b)] /\
      get_job (jobs (snd (post_scrape b jobId (Some url) limit_pages
                            empty_world))) jobId
        = Finished completed 100 (Z.of_nat (length listings)) listings
                   None (Some (now_ISO b)))).
Proof.
  intros Hfalsy.
  assert (Hor : js_or limit_pages (JNum 1) = JNum 1)
    by (unfold js_or; by rewrite Hfalsy).
  split; [exact Hor|]. split; [|split].
  - unfold post_scrape. by rewrite Hor.
  - by rewrite Hor.
  - intros url Hurl Hs Hg tr listings. destruct url as [|c url]; [done|].
    assert (Htr := one_page_trace b jobId c url limit_pages Hor Hs Hg).
    fold tr in Htr.
    assert (Hjobs : jobs (snd (post_scrape b jobId (Some (c :: url))
                                 limit_pages empty_world))
                    = replay tr ∅).
    { destruct (post_scrape_events b jobId (Some (c :: url)) limit_pages
                  empty_world) as (tr' & Ht & Hj & _).
      rewrite Hj. subst tr. unfold job_trace. by rewrite Ht. }
    split; [|split; [|split]].
    + rewrite Htr.
      destruct (waitForTimeout_2000 (on_page b 1)) as [[]|e];
        [destruct (evaluate_links (on_page b 1)) as [links|e]|];
        eexists; (split; [|constructor]); cbn [app writes];
        by rewrite !decide_True by done.
    + rewrite Htr, calls_app. eexists. reflexivity.
    + intros Hsettle. rewrite Htr, Hsettle.
      by destruct (evaluate_links (on_page b 1)).
    + intros (Hsettle & links & Hlinks).
      assert (Hl : listings = dedupe (extract_page links))
        by (subst listings; unfold pageListings_of; by rewrite Hlinks).
      rewrite Hsettle, Hlinks, <- Hl in Htr. cbn [app] in Htr.
      assert (Hw : writes jobId tr
                   = [job_queued; job_started; job_on_page 1 (JNum 1);
                      job_completed listings (now_ISO b)]).
      { rewrite Htr. cbn [writes]. by rewrite !decide_True by done. }
      split; [by rewrite Htr|]. split; [exact Hw|].
      unfold get_job. rewrite Hjobs, replay_lookup, Hw. cbn.
      by destruct (Z.of_nat (length listings) =? 0) eqn:E;
        [apply Z.eqb_eq in E; rewrite E|].
Qed.

Lemma falsy_limit_means_one_page_witness :
  let b := single_page_site in
  let id := lit "job_1" in
  let url := lit "https://a.test/" in
  let tr := job_trace b id url (JNum 0) in
  let listings :=
    [listing "Flat 300,000" "300,000" "N/A" "https://a.test/1";
     listing "Villa 1,200,000" "1,200,000" "N/A" "https://a.test/2"] in
  truthy (JNum 0) = false /\ url <> [] /\ session_acquired b /\
  goto b = Returned tt /\ page_scraped b 1 /\
  js_or (JNum 0) (JNum 1) = JNum 1 /\
  post_scrape b id (Some url) (JNum 0) empty_world
    = post_scrape b id (Some url) (JNum 1) empty_world /\
  page_numbers (js_or (JNum 0) (JNum 1)) = [1] /\
  evaluations tr = 1%nat /\
  calls tr
    = [chromium_launch; browser_newPage; page_goto url;
       page_waitForSelector; page_waitForTimeout 2000; page_evaluate;
       browser_close] /\
  writes id tr
    = [job_queued; job_started; job_on_page 1 (JNum 1);
       job_completed listings (now_ISO b)] /\
  get_job (jobs (snd (post_scrape b id (Some url) (JNum 0) empty_world))) id
    = Finished completed 100 2 listings None (Some (now_ISO b)).
Proof.
  intros b id url tr listings.
  assert (Hf : truthy (JNum 0) = false) by reflexivity.
  assert (Hu : url <> []) by discriminate.
  assert (Hs : session_acquired b) by (split; reflexivity).
  assert (Hg : goto b = Returned tt) by reflexivity.
  assert (Hp : page_scraped b 1) by (split; [reflexivity | by eexists]).
  do 5 (split; [assumption|]).
  destruct (falsy_limit_means_one_page b id (Some url) (JNum 0) empty_world
              Hf) as (H1 & H2 & H3 & H4).
  do 3 (split; [assumption|]).
  destruct (H4 url Hu Hs Hg) as (_ & _ & He & Hscraped).
  split; [exact (He eq_refl)|]. exact (Hscraped Hp).
Defined.

(** C10.  With a page limit of 1, once the session is there and the
    navigation went through, the run writes the update of page 1 with
    status [running] and progress 100 and is then suspended in the wait
    for the selector: a poll served there is answered [running], 100. *)
Theorem one_page_job_shows_100_while_running b jobId originUrl maxPages w :
  session_acquired b -> goto b = Returned tt ->
  ToNumber (default_maxPages maxPages) = Some 1 ->
  exists pre job post,
    trace (snd (runScraper b jobId originUrl maxPages w))
      = trace w ++ pre ++ ev_set jobId job
                          :: ev_await page_waitForSelector :: post /\
    status job = running /\ progress job = 100 /\
    currentPage job = Some 1 /\
    get_job (replay (pre ++ [ev_set jobId job]) (jobs w)) jobId
      = Pending running 100 (Some 1) (Some (default_maxPages maxPages)).
Proof.
  intros Hs Hg Hm.
  destruct (runScraper_events b jobId originUrl maxPages w)
    as (tr & -> & _ & Hr).
  destruct (run_events_first_page _ _ _ _ 1 _ _ Hr Hs Hg Hm ltac:(lia))
    as [rest ->].
  assert (Hp : progress_of 1 (default_maxPages maxPages) = 100)
    by (unfold progress_of; rewrite Hm; by apply round_pct_full).
  exists [ev_set jobId job_started; ev_await chromium_launch;
          ev_await browser_newPage; ev_await (page_goto originUrl)],
         (job_on_page 1 (default_maxPages maxPages)), rest.
  split; [done|]. split; [done|]. split; [exact Hp|]. split; [done|].
  unfold get_job. rewrite replay_lookup. cbn [app writes].
  rewrite !decide_True by done. cbn. by rewrite Hp.
Qed.

Lemma one_page_job_shows_100_while_running_witness :
  let b := single_page_site in
  let id := lit "job_1" in
  let url := lit "https://a.test/" in
  let w := empty_world in
  session_acquired b /\ goto b = Returned tt /\
  ToNumber (default_maxPages (JNum 1)) = Some 1 /\
  exists pre job post,
    trace (snd (runScraper b id url (JNum 1) w))
      = trace w ++ pre ++ ev_set id job
                          :: ev_await page_waitForSelector :: post /\
    status job = running /\ progress job = 100 /\
    currentPage job = Some 1 /\
    get_job (replay (pre ++ [ev_set id job]) (jobs w)) id
      = Pending running 100 (Some 1) (Some (default_maxPages (JNum 1))).
Proof.
  intros b id url w.
  assert (Hs : session_acquired b) by (split; reflexivity).
  assert (Hg : goto b = Returned tt) by reflexivity.
  assert (Hm : ToNumber (default_maxPages (JNum 1)) = Some 1)
    by reflexivity.
  do 3 (split; [assumption|]).
  exact (one_page_job_shows_100_while_running b id url (JNum 1) w Hs Hg Hm).
Defined.

(** * Further properties

    ** The price, the title and the area of a record *)

Lemma is_digit_not_comma c : is_digit c = true -> (c =? COMMA)%N = false.
Proof.
  unfold is_digit, COMMA. intros H. apply andb_true_iff in H as [H1 H2].
  apply N.leb_le in H1. apply N.eqb_neq. lia.
Qed.

Lemma comma_groups_digit d s :
  is_digit d = true -> comma_groups (d :: s) = ([], d :: s).
Proof.
  intros H. cbn [comma_groups].
  destruct s as [|? [|? [|? ?]]]; try reflexivity.
  by rewrite (is_digit_not_comma _ H).
Qed.

Lemma thousands_groups_head g :
  thousands_groups g -> exists g', g = COMMA :: g'.
Proof. intros [d1 d2 d3 _|d1 d2 d3 g' _ _]; eauto. Qed.

Lemma comma_groups_app g r :
  thousands_groups g ->
  comma_groups (g ++ r)
  = (g ++ fst (comma_groups r), snd (comma_groups r)).
Proof.
  assert (Hd : forall d1 d2 d3, digits [d1; d2; d3] ->
            is_digit d1 && is_digit d2 && is_digit d3 = true).
  { intros d1 d2 d3 H. inversion_clear H as [|? ? H1 H'].
    inversion_clear H' as [|? ? H2 H'']. inversion_clear H'' as [|? ? H3 _].
    by rewrite H1, H2, H3. }
  induction 1 as [d1 d2 d3 H|d1 d2 d3 g H Hg IH].
  - cbn [app comma_groups]. rewrite N.eqb_refl. cbn [andb].
    rewrite (Hd _ _ _ H). by destruct (comma_groups r).
  - cbn [app comma_groups]. rewrite N.eqb_refl. cbn [andb].
    rewrite (Hd _ _ _ H), IH. reflexivity.
Qed.

Lemma span_app_all (f : N -> bool) m r :
  Forall (fun c => f c = true) m ->
  span f (m ++ r) = (m ++ fst (span f r), snd (span f r)).
Proof.
  induction 1 as [|c m Hc _ IH]; cbn [app span].
  - by destruct (span f r).
  - by rewrite Hc, IH.
Qed.

Lemma span_stop (f : N -> bool) c r :
  f c = false -> span f (c :: r) = ([], c :: r).
Proof. intros H. cbn [span]. by rewrite H. Qed.

Lemma decimal_suffix_extends dec post :
  decimal_part dec -> exists more, decimal_suffix (dec ++ post) = dec ++ more.
Proof.
  intros [|ds Hne Hds]; [by eexists|].
  cbn [app decimal_suffix]. rewrite N.eqb_refl, (span_app_all _ _ _ Hds).
  destruct ds as [|d ds]; [done|]. cbn [app]. by eexists.
Qed.

Lemma price_at_with_other_lead j lead g rest :
  digits lead -> thousands_groups g -> j <> length lead -> (1 <= j)%nat ->
  price_at_with j (lead ++ g ++ rest) = None.
Proof.
  intros Hl Hg Hj H1. destruct (thousands_groups_head _ Hg) as [g' ->].
  unfold price_at_with.
  destruct (decide (j < length lead)%nat) as [Hlt|Hge].
  - rewrite take_app_le, drop_app_le by lia.
    destruct (drop j lead) as [|d tl] eqn:Hd.
    { apply (f_equal length) in Hd. rewrite length_drop in Hd.
      simpl in Hd. lia. }
    assert (Hdig : is_digit d = true).
    { unfold digits in Hl. rewrite Forall_forall in Hl. apply Hl.
      rewrite <- (take_drop j lead), Hd. apply elem_of_app. right.
      apply list_elem_of_here. }
    cbn [app]. rewrite (comma_groups_digit _ _ Hdig).
    by destruct (_ && _).
  - assert (Hgt : (length lead < j)%nat) by lia.
    replace (forallb is_digit (take j (lead ++ (COMMA :: g') ++ rest)))
      with false; [by rewrite andb_false_r|].
    symmetry. apply not_true_is_false. intros Hf.
    apply forallb_digits in Hf. unfold digits in Hf.
    rewrite Forall_forall in Hf.
    assert (Hin : COMMA ∈ take j (lead ++ (COMMA :: g') ++ rest)).
    { rewrite take_app_ge by lia. apply elem_of_app. right.
      destruct (j - length lead)%nat eqn:E; [lia|]. cbn.
      apply list_elem_of_here. }
    by apply Hf in Hin.
Qed.

Lemma price_at_longest t post :
  price_token t ->
  exists more, price_at (t ++ post) = Some (t ++ more).
Proof.
  intros (lead & g & dec & -> & Hlen & Hl & Hg & Hdec).
  assert (Hk : exists more,
            price_at_with (length lead) ((lead ++ g ++ dec) ++ post)
            = Some ((lead ++ g ++ dec) ++ more)).
  { rewrite <- !app_assoc. unfold price_at_with.
    rewrite take_app_length, drop_app_length, Nat.eqb_refl.
    rewrite (proj2 (forallb_digits lead) Hl). cbn [andb].
    rewrite (comma_groups_app _ _ Hg).
    destruct (thousands_groups_head _ Hg) as [g' ->]. cbn [app].
    destruct (comma_groups (dec ++ post)) as [g2 r2] eqn:E2. cbn [fst snd].
    destruct g2 as [|c2 g2].
    - destruct (comma_groups_spec _ _ _ E2) as [E _]. cbn [app] in E. subst r2.
      destruct (decimal_suffix_extends dec post Hdec) as [more ->].
      exists more. f_equal. by simplify_list_eq.
    - destruct (comma_groups_spec _ _ _ E2) as [E [?|Hg2]]; [done|].
      destruct (thousands_groups_head _ Hg2) as [g2' [= -> ->]].
      destruct Hdec as [|ds _ _]; [|discriminate].
      exists ((COMMA :: g2') ++ decimal_suffix r2).
      f_equal. by simplify_list_eq. }
  destruct Hk as [more Hk]. exists more.
  rewrite <- !app_assoc in Hk |- *. unfold price_at.
  destruct (length lead) as [|[|[|[|]]]] eqn:E; try lia.
  - rewrite (price_at_with_other_lead 3), (price_at_with_other_lead 2)
      by (auto; lia). exact Hk.
  - rewrite (price_at_with_other_lead 3) by (auto; lia). by rewrite Hk.
  - by rewrite Hk.
Qed.




Lemma price_match_here s m : price_at s = Some m -> price_match s = Some m.
Proof. intros H. destruct s; cbn [price_match]; by rewrite H. Qed.

Lemma price_at_four_digits d1 d2 d3 d4 s :
  digits [d1; d2; d3; d4] -> price_at (d1 :: d2 :: d3 :: d4 :: s) = None.
Proof.
  intros H. inversion_clear H as [|? ? H1 H'].
  inversion_clear H' as [|? ? H2 H'']. inversion_clear H'' as [|? ? H3 H'].
  inversion_clear H' as [|? ? H4 _].
  unfold price_at, price_at_with. cbn [take drop length forallb Nat.eqb].
  rewrite !comma_groups_digit by done. by rewrite H1, H2, H3.
Qed.

(** X2.  The pattern has no word boundary.  When more than three digits
    stand before the first comma, the price begins at the last three of
    them: the digits before are left out of it. *)
Theorem price_drops_the_digits_before_the_last_three ds lead g post :
  ds <> [] -> digits ds -> digits lead -> length lead = 3%nat ->
  thousands_groups g ->
  exists more,
    price_match (ds ++ lead ++ g ++ post) = Some (lead ++ g ++ more).
Proof.
  intros Hne Hds Hl Hlen Hg.
  destruct lead as [|l1 [|l2 [|l3 [|]]]]; try discriminate.
  assert (Hend : exists more,
            price_match ([l1; l2; l3] ++ g ++ post)
            = Some ([l1; l2; l3] ++ g ++ more)).
  { destruct (price_at_longest ([l1; l2; l3] ++ g) post) as [more Hm].
    - exists [l1; l2; l3], g, []. rewrite app_nil_r.
      repeat split; auto; try (simpl; lia). constructor.
    - exists more. apply price_match_here. by rewrite <- !app_assoc in Hm. }
  clear Hne. induction Hds as [|d ds Hd Hds IH]; [exact Hend|].
  destruct IH as [more IH]. exists more.
  change ((d :: ds) ++ ?x) with (d :: (ds ++ x)).
  cbn [price_match]. rewrite <- IH.
  assert (Hfour : exists d2 d3 d4 s, ds ++ [l1; l2; l3] ++ g ++ post
            = d2 :: d3 :: d4 :: s /\ digits [d2; d3; d4]).
  { inversion_clear Hl as [|? ? H1 H']. inversion_clear H' as [|? ? H2 H''].
    inversion_clear H'' as [|? ? H3 _].
    destruct Hds as [|e1 ? He1 [|e2 ? He2 [|e3 ? He3 _]]]; cbn [app];
      do 4 eexists; (split; [reflexivity|]); repeat constructor; assumption. }
  destruct Hfour as (d2 & d3 & d4 & s & -> & H).
  rewrite price_at_four_digits; [done|]. by constructor.
Qed.

Example price_of_an_ungrouped_number :
  price_match (lit "1234,567 SAR") = Some (lit "234,567").
Proof. reflexivity. Qed.

Lemma price_drops_the_digits_before_the_last_three_witness :
  let ds := lit "1" in
  let lead := lit "234" in
  let g := lit ",567" in
  let post := lit " SAR" in
  ds <> [] /\ digits ds /\ digits lead /\ length lead = 3%nat /\
  thousands_groups g /\
  exists more,
    price_match (ds ++ lead ++ g ++ post) = Some (lead ++ g ++ more).
Proof.
  intros ds lead g post.
  assert (H1 : ds <> []) by discriminate.
  assert (H2 : digits ds) by (repeat constructor).
  assert (H3 : digits lead) by (repeat constructor).
  assert (H4 : length lead = 3%nat) by reflexivity.
  assert (H5 : thousands_groups g) by (apply one_group; repeat constructor).
  do 5 (split; [assumption|]).
  exact (price_drops_the_digits_before_the_last_three ds lead g post
           H1 H2 H3 H4 H5).
Defined.

(** X3.  The title of a record is the text of the [h3] or [h4] heading
    when there is one and it is not empty, whatever its length.  Otherwise
    it is the first line of the anchor text cut to 100 code units: a prefix
    of the text of at most 100 code units without a line feed, which ends
    at the first line feed or at the end of the text when it is shorter
    than 100. *)
Theorem title_is_the_heading_or_the_first_line a r :
  extract_anchor a = Some r ->
  (forall c h, heading a = Some (c :: h) -> title r = c :: h) /\
  (heading a = None \/ heading a = Some [] ->
   (length (title r) <= 100)%nat /\ (LF ∉ title r) /\
   exists rest,
     innerText a = title r ++ rest /\
     ((length (title r) < 100)%nat ->
      rest = [] \/ exists rest', rest = LF :: rest')).
Proof.
  unfold extract_anchor.
  destruct (includes CATEGORY_MARKER (innerText a)); [discriminate|].
  destruct (price_match (innerText a)) as [p|]; [|discriminate].
  intros [= <-]. cbn [title]. split.
  { intros c h ->. reflexivity. }
  intros Hh.
  assert (or_else (heading a) (first_line_100 (innerText a))
          = first_line_100 (innerText a)) as ->
    by (by destruct Hh as [-> | ->]).
  unfold first_line_100.
  destruct (span (fun c => negb (c =? LF)%N) (innerText a)) as [m r0] eqn:Hs.
  destruct (span_spec _ _ _ _ Hs) as (-> & Hm & Hr). cbn [fst].
  split; [rewrite length_take; lia|]. split.
  - intros Hin. apply elem_of_take in Hin as (i & Hin & _).
    apply list_elem_of_lookup_2 in Hin.
    rewrite Forall_forall in Hm.
    specialize (Hm _ Hin). by rewrite N.eqb_refl in Hm.
  - exists (drop 100 m ++ r0). split.
    + by rewrite app_assoc, take_drop.
    + rewrite length_take. intros Hlt.
      rewrite drop_ge by lia. cbn [app].
      destruct r0 as [|c r0]; [by left|]. right. exists r0.
      apply negb_false_iff, N.eqb_eq in Hr. by subst c.
Qed.

Lemma title_is_the_heading_or_the_first_line_witness :
  let a := {| innerText := lit "Flat 300,000" ++ [LF] ++ lit "Riyadh";
              heading := None; href := lit "https://a.test/1" |} in
  let r := listing "Flat 300,000" "300,000" "N/A" "https://a.test/1" in
  extract_anchor a = Some r /\
  (length (title r) <= 100)%nat /\ (LF ∉ title r) /\
  exists rest,
    innerText a = title r ++ rest /\
    ((length (title r) < 100)%nat ->
     rest = [] \/ exists rest', rest = LF :: rest').
Proof.
  intros a r. split; [reflexivity|].
  apply (title_is_the_heading_or_the_first_line a r eq_refl).
  left. reflexivity.
Defined.

(** ** The area *)

Lemma digit_not_space c : is_digit c = true -> is_space c = false.
Proof.
  unfold is_digit. intros H. apply andb_true_iff in H as [H1 H2].
  apply N.leb_le in H1. apply N.leb_le in H2. unfold is_space.
  repeat (apply orb_false_iff; split);
    try (apply N.eqb_neq; lia);
    apply andb_false_iff;
    (left; apply N.leb_gt; lia) || (right; apply N.leb_gt; lia).
Qed.

Lemma span_digits_before_unit ds ws post :
  digits ds -> spaces ws ->
  span is_digit (ds ++ ws ++ SQUARE_METRES ++ post)
  = (ds, ws ++ SQUARE_METRES ++ post).
Proof.
  intros Hds Hws. rewrite (span_app_all _ _ _ Hds).
  assert (span is_digit (ws ++ SQUARE_METRES ++ post)
          = ([], ws ++ SQUARE_METRES ++ post)) as ->.
  { destruct Hws as [|c ws Hc _]; cbn [app].
    - reflexivity.
    - apply span_stop. destruct (is_digit c) eqn:E; [|done].
      apply digit_not_space in E. congruence. }
  by rewrite app_nil_r.
Qed.

Lemma span_spaces_before_unit ws post :
  spaces ws ->
  span is_space (ws ++ SQUARE_METRES ++ post) = (ws, SQUARE_METRES ++ post).
Proof.
  intros Hws. rewrite (span_app_all _ _ _ Hws). cbn. by rewrite app_nil_r.
Qed.

Lemma area_at_mention ds ws post :
  ds <> [] -> digits ds -> spaces ws ->
  area_at (ds ++ ws ++ SQUARE_METRES ++ post) = Some ds.
Proof.
  intros Hne Hds Hws. unfold area_at.
  rewrite (span_digits_before_unit _ _ _ Hds Hws).
  destruct ds as [|d ds]; [done|].
  rewrite (span_spaces_before_unit _ _ Hws). cbn [snd].
  assert (starts_with SQUARE_METRES (SQUARE_METRES ++ post) = true) as ->;
    [|done].
  apply starts_with_spec. eauto.
Qed.

Lemma area_at_sound s g :
  area_at s = Some g ->
  exists ws post, area_mention s [] g ws post.
Proof.
  unfold area_at. destruct (span is_digit s) as [ds r] eqn:Hs.
  destruct (span_spec _ _ _ _ Hs) as (-> & Hds & _).
  destruct ds as [|d ds]; [discriminate|].
  destruct (span is_space r) as [ws r'] eqn:Hw. cbn [snd].
  destruct (span_spec _ _ _ _ Hw) as (-> & Hws & _).
  destruct (starts_with SQUARE_METRES r') eqn:Hu; [|discriminate].
  apply starts_with_spec in Hu as [post ->]. intros [= <-].
  exists ws, post. by repeat split.
Qed.

Lemma area_match_leftmost text g :
  area_match text = Some g ->
  exists pre s,
    text = pre ++ s /\ area_at s = Some g /\
    forall n, (n < length pre)%nat -> area_at (drop n text) = None.
Proof.
  induction text as [|c text IH]; cbn [area_match].
  - destruct (area_at []) eqn:H; [|discriminate]. intros [= <-].
    exists [], []. split; [done|]. split; [done|].
    intros n Hn. simpl in Hn. lia.
  - destruct (area_at (c :: text)) eqn:H.
    + intros [= <-]. exists [], (c :: text). split; [done|]. split; [done|].
      intros n Hn. simpl in Hn. lia.
    + intros Hm. destruct (IH Hm) as (pre & s & -> & Hat & Hleft).
      exists (c :: pre), s. split; [done|]. split; [done|].
      intros [|n] Hn; [exact H|]. cbn [drop]. apply Hleft. simpl in Hn. lia.
Qed.

Lemma area_match_complete text pre ds ws post :
  area_mention text pre ds ws post -> is_Some (area_match text).
Proof.
  intros (-> & Hne & Hds & Hws).
  induction pre as [|c pre IH]; cbn [app].
  - pose proof (area_at_mention ds ws post Hne Hds Hws) as H.
    destruct (ds ++ ws ++ SQUARE_METRES ++ post); cbn [area_match];
      rewrite H; eauto.
  - cbn [area_match]. destruct (area_at (c :: pre ++ _)); eauto.
Qed.

(** X4.  The area of a record is ['N/A'] exactly when the text has no run
    of digits followed, after optional white space, by the unit.  Otherwise
    it is the first such run and a whole one: the code unit before it is
    not a digit. *)
Theorem area_is_the_first_whole_number_before_the_unit a r :
  extract_anchor a = Some r ->
  (area r = NOT_AVAILABLE /\
   forall pre ds ws post, ~ area_mention (innerText a) pre ds ws post) \/
  (exists pre ws post,
     area_mention (innerText a) pre (area r) ws post /\
     match last pre with Some c => is_digit c = false | None => True end /\
     forall pre' ds' ws' post',
       area_mention (innerText a) pre' ds' ws' post' ->
       (length pre <= length pre')%nat).
Proof.
  unfold extract_anchor.
  destruct (includes CATEGORY_MARKER (innerText a)); [discriminate|].
  destruct (price_match (innerText a)) as [p|]; [|discriminate].
  intros [= <-]. cbn [area].
  destruct (area_match (innerText a)) as [g|] eqn:Hg.
  - right. destruct (area_match_leftmost _ _ Hg) as (pre & s & E & Hat & Hleft).
    destruct (area_at_sound _ _ Hat) as (ws & post & Hs & Hne & Hds & Hws).
    cbn [app] in Hs. subst s.
    assert (Hfirst : forall pre' ds' ws' post',
              area_mention (innerText a) pre' ds' ws' post' ->
              (length pre <= length pre')%nat).
    { intros pre' ds' ws' post' (E' & Hne' & Hds' & Hws').
      destruct (decide (length pre' < length pre)%nat) as [Hlt|]; [|lia].
      specialize (Hleft _ Hlt). rewrite E', drop_app_length in Hleft.
      by rewrite area_at_mention in Hleft. }
    destruct g as [|c g]; [done|]. cbn [or_else].
    exists pre, ws, post. split; [by repeat split|]. split; [|exact Hfirst].
    destruct pre as [|x pre _] using rev_ind; [done|].
    rewrite last_snoc. destruct (is_digit x) eqn:Hx; [|done]. exfalso.
    specialize (Hfirst pre (x :: c :: g) ws post).
    rewrite length_app in Hfirst. cbn in Hfirst.
    enough ((length pre + 1 <= length pre)%nat) by lia. apply Hfirst.
    split; [by rewrite E, <- app_assoc|]. split; [done|]. split; [|done].
    by constructor.
  - left. split; [reflexivity|]. intros pre ds ws post H.
    apply area_match_complete in H. rewrite Hg in H. by destruct H.
Qed.

Lemma area_is_the_first_whole_number_before_the_unit_witness :
  let a := {| innerText := lit "Villa 1,200,000 250 " ++ SQUARE_METRES;
              heading := Some (lit "Villa");
              href := lit "https://a.test/2" |} in
  let r := listing "Villa" "1,200,000" "250" "https://a.test/2" in
  extract_anchor a = Some r /\
  ((area r = NOT_AVAILABLE /\
    forall pre ds ws post, ~ area_mention (innerText a) pre ds ws post) \/
   (exists pre ws post,
      area_mention (innerText a) pre (area r) ws post /\
      match last pre with Some c => is_digit c = false | None => True end /\
      forall pre' ds' ws' post',
        area_mention (innerText a) pre' ds' ws' post' ->
        (length pre <= length pre')%nat)).
Proof.
  intros a r. split; [reflexivity|].
  exact (area_is_the_first_whole_number_before_the_unit a r eq_refl).
Defined.

(** X5.  An area written with a decimal point loses its integer part: the
    pattern captures the digits between the point and the unit. *)
Theorem decimal_area_keeps_the_fraction_digits whole frac ws post :
  digits whole -> frac <> [] -> digits frac -> spaces ws ->
  area_match (whole ++ DOT :: frac ++ ws ++ SQUARE_METRES ++ post)
  = Some frac.
Proof.
  intros Hw Hne Hf Hws.
  assert (Hdot : area_match (DOT :: frac ++ ws ++ SQUARE_METRES ++ post)
                 = Some frac).
  { cbn [area_match]. unfold area_at at 1. cbn [span].
    change (is_digit DOT) with false. cbn iota.
    pose proof (area_at_mention frac ws post Hne Hf Hws) as H.
    destruct (frac ++ ws ++ SQUARE_METRES ++ post); cbn [area_match];
      by rewrite H. }
  induction Hw as [|d whole Hd Hw IH]; [exact Hdot|].
  cbn [app area_match]. rewrite IH.
  replace (area_at (d :: whole ++ DOT :: frac ++ ws ++ SQUARE_METRES ++ post))
    with (@None jsstring); [done|].
  symmetry. unfold area_at.
  change (d :: whole ++ ?x) with ((d :: whole) ++ x).
  rewrite (span_app_all is_digit (d :: whole)) by (by constructor).
  cbn [span]. change (is_digit DOT) with false. cbn [fst snd app].
  rewrite app_nil_r. cbn [span]. change (is_space DOT) with false. cbn [snd].
  reflexivity.
Qed.

Lemma decimal_area_keeps_the_fraction_digits_witness :
  let whole := lit "120" in
  let frac := lit "5" in
  let ws := lit " " in
  digits whole /\ frac <> [] /\ digits frac /\ spaces ws /\
  area_match (whole ++ DOT :: frac ++ ws ++ SQUARE_METRES ++ []) = Some frac.
Proof.
  intros whole frac ws.
  assert (H1 : digits whole) by (repeat constructor).
  assert (H2 : frac <> []) by discriminate.
  assert (H3 : digits frac) by (repeat constructor).
  assert (H4 : spaces ws) by (repeat constructor).
  do 4 (split; [assumption|]).
  exact (decimal_area_keeps_the_fraction_digits whole frac ws [] H1 H2 H3 H4).
Defined.

(** ** Deduplication in parts *)

Lemma dedupe_app l1 l2 :
  dedupe (l1 ++ l2) = fold_left (fun out r => supersede r out) l2 (dedupe l1).
Proof.
  induction l2 as [|r l2 IH] using rev_ind.
  - by rewrite app_nil_r.
  - by rewrite app_assoc, dedupe_snoc, IH, fold_left_app.
Qed.

Lemma first_seen_length ks : (length (first_seen ks) <= length ks)%nat.
Proof.
  induction ks as [|k ks IH]; cbn [first_seen length]; [lia|].
  pose proof (length_filter (fun k' => k' <> k) (first_seen ks)). lia.
Qed.

Lemma filter_all {A} (P : A -> Prop) `{forall x, Decision (P x)} (l : list A) :
  Forall P l -> filter P l = l.
Proof.
  induction 1 as [|x l Hx _ IH]; [done|].
  by rewrite filter_cons_True, IH.
Qed.

Lemma first_seen_unique ks : NoDup ks -> first_seen ks = ks.
Proof.
  induction 1 as [|k ks Hk _ IH]; cbn [first_seen]; [done|].
  rewrite IH. f_equal. apply filter_all, Forall_forall.
  intros x Hx ->. contradiction.
Qed.

Lemma first_seen_app_first_seen ks ks' :
  first_seen (ks ++ first_seen ks') = first_seen (ks ++ ks').
Proof.
  induction ks as [|k ks IH]; cbn [app first_seen].
  - apply first_seen_unique, first_seen_NoDup.
  - by rewrite IH.
Qed.

Lemma last_with_link_app k l1 l2 :
  last_with_link k (l1 ++ l2) =
  match last_with_link k l2 with
  | Some r => Some r
  | None => last_with_link k l1
  end.
Proof. unfold last_with_link. by rewrite filter_app, last_app. Qed.

Lemma filter_link_absent k l :
  k ∉ map link l -> filter (fun r => link r = k) l = [].
Proof.
  induction l as [|x l IH]; [done|]. cbn [map].
  intros [Hx Hl]%not_elem_of_cons.
  rewrite filter_cons_False by (intros ?; congruence). by apply IH.
Qed.

Lemma last_with_link_dedupe k l :
  last_with_link k (dedupe l) = last_with_link k l.
Proof.
  destruct (last_with_link k l) as [r|] eqn:E.
  - assert (Hk : link r = k).
    { unfold last_with_link in E. apply last_Some_elem_of in E.
      by apply list_elem_of_filter in E as [? _]. }
    subst k. pose proof (proj2 (dedupe_elem l r) E) as Hin.
    apply list_elem_of_split in Hin as (l1 & l2 & Hsplit).
    pose proof (dedupe_NoDup l) as Hnd. rewrite Hsplit in Hnd |- *.
    rewrite map_app in Hnd. cbn [map] in Hnd.
    apply NoDup_app in Hnd as (_ & Hdis & Hnd2).
    apply NoDup_cons in Hnd2 as [Hr2 _].
    rewrite last_with_link_app. unfold last_with_link at 1.
    rewrite filter_cons_True by done.
    replace (filter (fun r0 => link r0 = link r) l2) with (@nil ListingRecord);
      [done|].
    symmetry. by apply filter_link_absent.
  - destruct (last_with_link k (dedupe l)) as [r|] eqn:E'; [|done].
    assert (Hk : link r = k /\ r ∈ dedupe l).
    { unfold last_with_link in E'. apply last_Some_elem_of in E'.
      by apply list_elem_of_filter in E' as [? ?]. }
    destruct Hk as [<- Hin]. apply dedupe_elem in Hin. congruence.
Qed.

Lemma same_links_same_records l l' :
  map link (dedupe l) = map link (dedupe l') ->
  (forall k, last_with_link k l = last_with_link k l') ->
  dedupe l = dedupe l'.
Proof.
  intros Hlinks Hlast.
  assert (H : forall xs ys : list ListingRecord,
    (forall r, r ∈ xs -> r ∈ dedupe l) ->
    (forall r, r ∈ ys -> r ∈ dedupe l') ->
    map link xs = map link ys -> xs = ys).
  { induction xs as [|x xs IH]; intros [|y ys] Hxs Hys E; try discriminate;
      [reflexivity|].
    cbn [map] in E. injection E as Ex E. f_equal.
    - pose proof (Hxs x (list_elem_of_here _ _)) as Hx.
      pose proof (Hys y (list_elem_of_here _ _)) as Hy.
      apply dedupe_elem in Hx. apply dedupe_elem in Hy.
      rewrite Hlast, Ex, Hy in Hx. congruence.
    - apply IH; [| |exact E]; intros r Hr.
      + by apply Hxs, list_elem_of_further.
      + by apply Hys, list_elem_of_further. }
  by apply H.
Qed.

(** X6.  Deduplicating a part of the listings beforehand, the pages already
    gathered or the page that comes next, does not change the result. *)
Theorem dedupe_absorbs_partial_dedupe l1 l2 :
  dedupe (dedupe l1 ++ l2) = dedupe (l1 ++ l2) /\
  dedupe (l1 ++ dedupe l2) = dedupe (l1 ++ l2) /\
  dedupe (dedupe l1 ++ dedupe l2) = dedupe (l1 ++ l2).
Proof.
  assert (H1 : forall a b, dedupe (dedupe a ++ b) = dedupe (a ++ b)).
  { intros a b. rewrite !dedupe_app.
    by rewrite (dedupe_unique_id (dedupe a)) by apply dedupe_NoDup. }
  assert (H2 : forall a b, dedupe (a ++ dedupe b) = dedupe (a ++ b)).
  { intros a b. apply same_links_same_records.
    - rewrite !dedupe_links, !map_app, dedupe_links.
      apply first_seen_app_first_seen.
    - intros k. by rewrite !last_with_link_app, last_with_link_dedupe. }
  split; [apply H1|]. split; [apply H2|]. by rewrite H1, H2.
Qed.

(** X7.  [dedupe] returns its input unchanged exactly when the links are
    pairwise distinct; it never returns more records than it is given, and
    every link of the input is still there. *)
Theorem dedupe_drops_only_repeated_links l :
  (dedupe l = l <-> NoDup (map link l)) /\
  (length (dedupe l) <= length l)%nat /\
  (forall k, k ∈ map link (dedupe l) <-> k ∈ map link l).
Proof.
  split; [|split].
  - split; [|apply dedupe_unique_id].
    intros H. rewrite <- H. apply dedupe_NoDup.
  - rewrite <- (length_map link (dedupe l)), dedupe_links.
    rewrite <- (length_map link l). apply first_seen_length.
  - intros k. rewrite dedupe_links. apply first_seen_elem.
Qed.

(** ** Answers that do not matter *)

Lemma bind_ext {A B} (m m' : Async A) (k k' : A -> Async B) w :
  m w = m' w -> (forall a w', k a w' = k' a w') ->
  bind m k w = bind m' k' w.
Proof.
  intros Hm Hk. unfold bind. rewrite Hm.
  destruct (m' w) as [[a|e] w']; [apply Hk | reflexivity].
Qed.

Lemma selector_swallowed (a : outcome unit) w :
  try_catch (await page_waitForSelector a) (fun _ => ret tt) w
  = (Returned tt,
     {| jobs := jobs w; trace := trace w ++ [ev_await page_waitForSelector] |}).
Proof. unfold try_catch, await, ret. by destruct a as [[]|e]. Qed.

Lemma scrape_pages_ext b b' jobId maxPages :
  (forall i,
     waitForTimeout_2000 (on_page b' i) = waitForTimeout_2000 (on_page b i) /\
     evaluate_links (on_page b' i) = evaluate_links (on_page b i) /\
     isVisible_next (on_page b' i) = isVisible_next (on_page b i) /\
     click_next (on_page b' i) = click_next (on_page b i) /\
     waitForTimeout_1500 (on_page b' i) = waitForTimeout_1500 (on_page b i)) ->
  forall pages allListings w,
    scrape_pages b' jobId maxPages pages allListings w
    = scrape_pages b jobId maxPages pages allListings w.
Proof.
  intros Hsame. induction pages as [|i pages IH]; intros acc w; [reflexivity|].
  destruct (Hsame i) as (H1 & H2 & H3 & H4 & H5).
  cbn [scrape_pages]. rewrite H1, H2, H3, H4, H5.
  apply bind_ext; [reflexivity|]. intros _ w1.
  apply bind_ext; [by rewrite !selector_swallowed|]. intros _ w2.
  apply bind_ext; [reflexivity|]. intros _ w3.
  apply bind_ext; [reflexivity|]. intros links w4.
  destruct (js_lt i maxPages); [|apply IH].
  apply bind_ext; [reflexivity|]. intros [|] w5; [|reflexivity].
  apply bind_ext; [reflexivity|]. intros _ w6.
  apply bind_ext; [reflexivity|]. intros _ w7. apply IH.
Qed.

Lemma try_catch_ext {A} (body body' : Async A) handler w :
  body w = body' w -> try_catch body handler w = try_catch body' handler w.
Proof. intros H. unfold try_catch. by rewrite H. Qed.

(** X8.  The outcome of the wait for the selector does not matter: with any
    other answers to [page.waitForSelector] the run ends in the same way,
    with the same events and the same store. *)
Theorem selector_timeout_is_ignored sel b jobId originUrl maxPages w :
  runScraper (with_selector sel b) jobId originUrl maxPages w
  = runScraper b jobId originUrl maxPages w.
Proof.
  unfold runScraper.
  apply bind_ext; [reflexivity|]. intros _ w1.
  apply bind_ext; [reflexivity|]. intros _ w2.
  apply bind_ext; [reflexivity|]. intros _ w3.
  unfold try_finally. cbn [close with_selector goto now_ISO].
  erewrite try_catch_ext; [reflexivity|].
  apply bind_ext; [reflexivity|]. intros _ w4.
  apply bind_ext; [|reflexivity].
  apply scrape_pages_ext. intros i. by repeat split.
Qed.

Lemma bind_snd_ext {A B} (m m' : Async A) (k k' : A -> Async B) w :
  m w = m' w -> (forall a w', snd (k a w') = snd (k' a w')) ->
  snd (bind m k w) = snd (bind m' k' w).
Proof.
  intros Hm Hk. unfold bind. rewrite Hm.
  destruct (m' w) as [[a|e] w']; [apply Hk | reflexivity].
Qed.

Lemma try_finally_await_snd {A} (body : Async A) call (c : outcome unit) w :
  snd (try_finally body (await call c) w)
  = {| jobs := jobs (snd (body w));
       trace := trace (snd (body w)) ++ [ev_await call] |}.
Proof.
  unfold try_finally, await. destruct (body w) as [r w']. by destruct c.
Qed.

(** X9.  A failure of [browser.close()] does not touch the store: the
    events and the entries are the same as when it succeeds.  Once the
    session is acquired, the answer of [close] is the outcome of the run:
    its exception rejects the promise of [runScraper], which nothing
    awaits. *)
Theorem close_failure_leaves_the_record c b jobId originUrl maxPages w :
  snd (runScraper (with_close c b) jobId originUrl maxPages w)
  = snd (runScraper b jobId originUrl maxPages w) /\
  (session_acquired b ->
   fst (runScraper (with_close c b) jobId originUrl maxPages w) = c).
Proof.
  split.
  - unfold runScraper.
    apply bind_snd_ext; [reflexivity|]. intros _ w1.
    apply bind_snd_ext; [reflexivity|]. intros _ w2.
    apply bind_snd_ext; [reflexivity|]. intros _ w3.
    rewrite !try_finally_await_snd.
    cbn [goto now_ISO with_close].
    erewrite try_catch_ext; [reflexivity|].
    apply bind_ext; [reflexivity|]. intros _ w4.
    apply bind_ext; [|reflexivity].
    apply scrape_pages_ext. intros i. by repeat split.
  - intros Hs.
    destruct (runScraper_events (with_close c b) jobId originUrl maxPages w)
      as (tr & _ & _ & Hr).
    destruct Hs as [Hl Hp].
    destruct Hr as [e He|e _ He|e _ He|body final _ _ _ _]; cbn in *;
      congruence.
Qed.

(** ** Runs, page by page *)

Lemma after_after t1 t2 w : after t2 (after t1 w) = after (t1 ++ t2) w.
Proof. unfold after. cbn [jobs trace]. by rewrite replay_app, app_assoc. Qed.

Lemma after_nil w : after [] w = w.
Proof. destruct w. unfold after. cbn. by rewrite app_nil_r. Qed.

Lemma scrape_pages_advance b jobId maxPages m k :
  ToNumber maxPages = Some m -> k <= m ->
  forall (d : nat) a acc w,
    a + Z.of_nat d = k ->
    (forall i, a <= i < k -> page_scraped b i /\ next_taken b i) ->
    scrape_pages b jobId maxPages (seqZ a (m - a + 1)) acc w
    = scrape_pages b jobId maxPages (seqZ k (m - k + 1))
        (acc ++ concat (map (pageListings_of b) (seqZ a (k - a))))
        (after (concat (map (turn_events jobId maxPages) (seqZ a (k - a)))) w).
Proof.
  intros Hm Hk. induction d as [|d IH]; intros a acc w Hd Hpages.
  - assert (a = k) as -> by lia. rewrite Z.sub_diag. cbn [seqZ].
    change (seqZ k 0) with (@nil Z). cbn [map concat].
    by rewrite app_nil_r, after_nil.
  - destruct (Hpages a ltac:(lia)) as ((Hs & l & Hl) & Hv & Hc & Hp).
    rewrite (seqZ_cons a (m - a + 1)) by lia. cbn [scrape_pages].
    unfold js_lt. rewrite Hm, Hs, Hl, Hv, Hc, Hp.
    replace (a <? m) with true by (symmetry; apply Z.ltb_lt; lia).
    cbv [bind jobs_set try_catch await ret].
    destruct (waitForSelector_a (on_page b a)) as [[]|e];
      cbn [jobs trace];
      (replace (Z.pred (m - a + 1)) with (m - Z.succ a + 1) by lia;
       rewrite (IH (Z.succ a)) by (lia || (intros; apply Hpages; lia));
       rewrite (seqZ_cons a (k - a)) by lia;
       replace (Z.pred (k - a)) with (k - Z.succ a) by lia;
       cbn [map concat]; unfold pageListings_of at 2; rewrite Hl;
       rewrite <- after_after, <- !app_assoc; f_equal;
       unfold after at 2; cbn [jobs trace replay turn_events];
       by rewrite <- !app_assoc).
Qed.

Lemma runScraper_after_navigation b jobId originUrl maxPages w :
  session_acquired b -> goto b = Returned tt ->
  let mp := default_maxPages maxPages in
  let w0 := after [ev_set jobId job_started; ev_await chromium_launch;
                   ev_await browser_newPage; ev_await (page_goto originUrl)]
                  w in
  runScraper b jobId originUrl maxPages w
  = match scrape_pages b jobId mp (page_numbers mp) [] w0 with
    | (Returned allListings, w1) =>
        (close b,
         after [ev_set jobId (job_completed (dedupe allListings) (now_ISO b));
                ev_await browser_close] w1)
    | (Thrown message, w1) =>
        (close b,
         after [ev_set jobId (job_failed message); ev_await browser_close] w1)
    end.
Proof.
  intros [Hl Hp] Hg mp w0. unfold runScraper.
  cbv [bind jobs_set await try_finally try_catch]. rewrite Hl, Hp, Hg.
  cbn [jobs trace]. fold mp.
  match goal with
  | |- context [scrape_pages b jobId mp (page_numbers mp) [] ?W] =>
      assert (W = w0) as ->
        by (subst w0; unfold after; cbn [jobs trace replay];
            by rewrite <- !app_assoc)
  end.
  destruct (scrape_pages b jobId mp (page_numbers mp) [] w0) as [[all|e] w1];
    cbn [jobs trace]; destruct (close b) as [[]|e'];
    unfold after; cbn [jobs trace replay]; by rewrite <- !app_assoc.
Qed.

Lemma writes_turns jobId maxPages l :
  writes jobId (concat (map (turn_events jobId maxPages) l))
  = map (fun i => job_on_page i maxPages) l.
Proof.
  induction l as [|i l IH]; [done|]. cbn [map concat].
  rewrite writes_app, IH. cbn. by rewrite decide_True by done.
Qed.

Lemma calls_turns jobId maxPages m l :
  Forall (fun i => i < m) l ->
  calls (concat (map (turn_events jobId maxPages) l))
  = concat (map (page_calls m) l).
Proof.
  induction 1 as [|i l Hi _ IH]; [done|]. cbn [map concat].
  rewrite calls_app, IH. unfold page_calls at 2.
  by replace (i <? m) with true by (symmetry; apply Z.ltb_lt; lia).
Qed.

Lemma seqZ_below a n : Forall (fun i => i < a + n) (seqZ a n).
Proof. apply Forall_forall. intros i Hi%elem_of_seqZ. lia. Qed.

Lemma seqZ_snoc a n : 0 <= n -> seqZ a (n + 1) = seqZ a n ++ [a + n].
Proof.
  intros Hn. rewrite seqZ_app by lia. by f_equal.
Qed.

(** X10.  When the pages 1 to [m] are all there and the next-page control
    is followed from each page before the last, the run evaluates each page
    once, does not look for the control on the last page, and completes the
    job with the deduplicated listings of all [m] pages. *)
Theorem full_traversal_completes b jobId originUrl maxPages m w :
  session_acquired b -> goto b = Returned tt ->
  ToNumber maxPages = Some m -> 1 <= m -> traverses b m ->
  let final :=
    job_completed (dedupe (concat (map (pageListings_of b) (seqZ 1 m))))
                  (now_ISO b) in
  let w' := snd (runScraper b jobId originUrl maxPages w) in
  fst (runScraper b jobId originUrl maxPages w) = close b /\
  jobs w' !! jobId = Some final /\
  exists tr,
    trace w' = trace w ++ tr /\
    writes jobId tr
      = job_started :: map (fun i => job_on_page i maxPages) (seqZ 1 m)
        ++ [final] /\
    calls tr
      = [chromium_launch; browser_newPage; page_goto originUrl]
        ++ concat (map (page_calls m) (seqZ 1 m)) ++ [browser_close].
Proof.
  intros Hs Hg Hm H1 [Hbefore (Hsettle & links & Hlinks)] final w'.
  subst w'. rewrite (runScraper_after_navigation _ _ _ _ _ Hs Hg). cbn zeta.
  assert (default_maxPages maxPages = maxPages) as ->
    by (by destruct maxPages).
  unfold page_numbers. rewrite Hm.
  assert (seqZ 1 m = seqZ 1 (m - 1 + 1)) as -> by (f_equal; lia).
  rewrite (scrape_pages_advance b jobId maxPages m m Hm ltac:(lia)
             (Z.to_nat (m - 1)) 1) by (lia || (intros; apply Hbefore; lia)).
  replace (m - m + 1) with 1 by lia. rewrite (seqZ_cons m 1) by lia.
  rewrite (seqZ_nil _ (Z.pred 1)) by lia. cbn [scrape_pages].
  unfold js_lt. rewrite Hm, Hsettle, Hlinks, Z.ltb_irrefl.
  cbv [bind jobs_set try_catch await ret].
  set (tr := [ev_set jobId job_started; ev_await chromium_launch;
              ev_await browser_newPage; ev_await (page_goto originUrl)]
             ++ concat (map (turn_events jobId maxPages) (seqZ 1 (m - 1)))
             ++ [ev_set jobId (job_on_page m maxPages);
                 ev_await page_waitForSelector;
                 ev_await (page_waitForTimeout 2000); ev_await page_evaluate]
             ++ [ev_set jobId final; ev_await browser_close]).
  assert (Hfinal : concat (map (pageListings_of b) (seqZ 1 (m - 1)))
                   ++ extract_page links
                   = concat (map (pageListings_of b) (seqZ 1 (m - 1 + 1)))).
  { rewrite seqZ_snoc by lia. rewrite map_app, concat_app. cbn [map concat].
    unfold pageListings_of at 3. replace (1 + (m - 1)) with m by lia.
    by rewrite Hlinks, app_nil_r. }
  assert (Hrun : forall X : outcome () * World,
            X = (close b, after tr w) ->
            X.1 = close b /\ jobs X.2 !! jobId = Some final /\
            exists tr0, trace X.2 = trace w ++ tr0 /\
              writes jobId tr0
              = job_started :: map (fun i => job_on_page i maxPages)
                                   (seqZ 1 (m - 1 + 1)) ++ [final] /\
              calls tr0
              = [chromium_launch; browser_newPage; page_goto originUrl]
                ++ concat (map (page_calls m) (seqZ 1 (m - 1 + 1)))
                ++ [browser_close]).
  { intros X ->. cbn [fst snd after jobs trace]. split; [done|].
    assert (Hwr : writes jobId tr
                  = job_started :: map (fun i => job_on_page i maxPages)
                                       (seqZ 1 (m - 1 + 1)) ++ [final]).
    { subst tr. rewrite !writes_app, writes_turns. cbn [writes].
      rewrite !decide_True by done. cbn [app]. f_equal.
      rewrite seqZ_snoc by lia. rewrite map_app, <- app_assoc. cbn [map app].
      by replace (1 + (m - 1)) with m by lia. }
    split; [|exists tr; split; [done|split; [exact Hwr|]]].
    - rewrite replay_lookup, Hwr.
      change (job_started :: ?l ++ [final]) with ((job_started :: l) ++ [final]).
      by rewrite last_snoc.
    - subst tr. rewrite !calls_app, (calls_turns _ _ m).
      + cbn [calls app]. do 3 f_equal.
        rewrite seqZ_snoc by lia. rewrite map_app, concat_app.
        cbn [map concat]. unfold page_calls at 3.
        replace (1 + (m - 1)) with m by lia. rewrite Z.ltb_irrefl.
        by rewrite !app_nil_r, <- ?app_assoc.
      + eapply Forall_impl; [apply seqZ_below|]. intros i Hi. cbn in Hi. lia. }
  apply Hrun.
  destruct (waitForSelector_a (on_page b m)) as [[]|e]; cbn [jobs trace app];
    rewrite Hfinal; replace (m - 1 + 1) with m by lia; fold final; f_equal;
    subst tr; unfold after; cbn [jobs trace replay];
    (f_equal;
     [ rewrite !replay_app; reflexivity
     | repeat (rewrite <- ?app_assoc; cbn [app]); reflexivity ]).
Qed.

Lemma full_traversal_completes_witness :
  let b := two_page_site in
  let id := lit "job_1" in
  let url := lit "https://a.test/" in
  let final :=
    job_completed (dedupe (concat (map (pageListings_of b) (seqZ 1 2))))
                  (now_ISO b) in
  let w' := snd (runScraper b id url (JNum 2) empty_world) in
  session_acquired b /\ goto b = Returned tt /\
  ToNumber (JNum 2) = Some 2 /\ 1 <= 2 /\ traverses b 2 /\
  fst (runScraper b id url (JNum 2) empty_world) = close b /\
  jobs w' !! id = Some final /\
  exists tr,
    trace w' = trace empty_world ++ tr /\
    writes id tr
      = job_started :: map (fun i => job_on_page i (JNum 2)) (seqZ 1 2)
        ++ [final] /\
    calls tr
      = [chromium_launch; browser_newPage; page_goto url]
        ++ concat (map (page_calls 2) (seqZ 1 2)) ++ [browser_close].
Proof.
  intros b id url final w'.
  assert (Hs : session_acquired b) by (split; reflexivity).
  assert (Hg : goto b = Returned tt) by reflexivity.
  assert (Hm : ToNumber (JNum 2) = Some 2) by reflexivity.
  assert (H1 : 1 <= 2) by lia.
  assert (Ht : traverses b 2).
  { split; [|split; [reflexivity | by eexists]].
    intros i Hi. assert (i = 1) as -> by lia.
    split; [split; [reflexivity | by eexists] | by repeat split]. }
  do 5 (split; [assumption|]).
  exact (full_traversal_completes b id url (JNum 2) 2 empty_world
           Hs Hg Hm H1 Ht).
Defined.

Lemma after_lookup tr w jobId j :
  last (writes jobId tr) = Some j -> jobs (after tr w) !! jobId = Some j.
Proof. intros H. unfold after. cbn [jobs]. by rewrite replay_lookup, H. Qed.

Lemma scrape_pages_throws b jobId maxPages k rest acc w message :
  page_throws b k message ->
  exists turn,
    scrape_pages b jobId maxPages (k :: rest) acc w
    = (Thrown message,
       after (ev_set jobId (job_on_page k maxPages) :: turn) w) /\
    writes jobId turn = [].
Proof.
  intros Hthrow. cbn [scrape_pages].
  destruct Hthrow as [Ht|[Ht He]]; rewrite Ht, ?He;
    cbv [bind jobs_set try_catch await ret];
    destruct (waitForSelector_a (on_page b k)) as [[]|e]; cbn [fst snd];
    first
      [ exists [ev_await page_waitForSelector;
                ev_await (page_waitForTimeout 2000); ev_await page_evaluate];
        split; [|reflexivity]; f_equal;
        unfold after; cbn [jobs trace replay];
        repeat (rewrite <- ?app_assoc; cbn [app]); reflexivity
      | exists [ev_await page_waitForSelector;
                ev_await (page_waitForTimeout 2000)];
        split; [|reflexivity]; f_equal;
        unfold after; cbn [jobs trace replay];
        repeat (rewrite <- ?app_assoc; cbn [app]); reflexivity ].
Qed.

(** X11.  When the settle delay or the evaluation of page [k] throws, the
    job fails with that message and an empty [data]: the listings of the
    pages before are not kept.  The updates of the pages 1 to [k] were
    written, and the browser is closed. *)
Theorem page_failure_discards_the_listings b jobId originUrl maxPages m k
    message w :
  session_acquired b -> goto b = Returned tt ->
  ToNumber maxPages = Some m -> 1 <= k <= m ->
  (forall i, 1 <= i < k -> page_scraped b i /\ next_taken b i) ->
  page_throws b k message ->
  let w' := snd (runScraper b jobId originUrl maxPages w) in
  fst (runScraper b jobId originUrl maxPages w) = close b /\
  get_job (jobs w') jobId = Finished failed 0 0 [] (Some message) None /\
  exists tr,
    trace w' = trace w ++ tr /\
    writes jobId tr
      = job_started :: map (fun i => job_on_page i maxPages) (seqZ 1 k)
        ++ [job_failed message] /\
    last (calls tr) = Some browser_close.
Proof.
  intros Hs Hg Hm Hk Hbefore Hthrow w'.
  subst w'. rewrite (runScraper_after_navigation _ _ _ _ _ Hs Hg). cbn zeta.
  assert (default_maxPages maxPages = maxPages) as ->
    by (by destruct maxPages).
  unfold page_numbers. rewrite Hm.
  assert (seqZ 1 m = seqZ 1 (m - 1 + 1)) as -> by (f_equal; lia).
  rewrite (scrape_pages_advance b jobId maxPages m k Hm ltac:(lia)
             (Z.to_nat (k - 1)) 1) by (lia || (intros; apply Hbefore; lia)).
  rewrite (seqZ_cons k (m - k + 1)) by lia.
  match goal with
  | |- context [scrape_pages b jobId maxPages (k :: ?rest) ?acc ?w0] =>
      destruct (scrape_pages_throws b jobId maxPages k rest acc w0 message
                  Hthrow) as (turn & -> & Hturn)
  end.
  rewrite !after_after. cbn [fst snd].
  set (tr := [ev_set jobId job_started; ev_await chromium_launch;
              ev_await browser_newPage; ev_await (page_goto originUrl)]
             ++ concat (map (turn_events jobId maxPages) (seqZ 1 (k - 1)))
             ++ (ev_set jobId (job_on_page k maxPages) :: turn)
             ++ [ev_set jobId (job_failed message); ev_await browser_close]).
  assert (Hwr : writes jobId tr
                = job_started :: map (fun i => job_on_page i maxPages)
                                     (seqZ 1 k) ++ [job_failed message]).
  { subst tr. rewrite !writes_app, writes_turns. cbn [writes].
    rewrite !decide_True by done. rewrite Hturn. cbn [app]. f_equal.
    assert (seqZ 1 k = seqZ 1 (k - 1 + 1)) as -> by (f_equal; lia).
    rewrite seqZ_snoc by lia.
    rewrite map_app, <- !app_assoc. cbn [map app].
    by replace (1 + (k - 1)) with k by lia. }
  split; [done|]. split.
  - unfold get_job.
    rewrite (after_lookup _ _ _ (job_failed message)); [done|].
    rewrite Hwr.
    change (job_started :: ?l ++ [?f]) with ((job_started :: l) ++ [f]).
    by rewrite last_snoc.
  - exists tr. split; [reflexivity|]. split; [exact Hwr|].
    subst tr. rewrite !calls_app. cbn [calls]. rewrite !app_assoc.
    by rewrite last_snoc.
Qed.

Lemma page_failure_discards_the_listings_witness :
  let b := crashing_on_page_2 in
  let id := lit "job_1" in
  let url := lit "https://a.test/" in
  let message := lit "Execution context was destroyed" in
  let w' := snd (runScraper b id url (JNum 3) empty_world) in
  session_acquired b /\ goto b = Returned tt /\
  ToNumber (JNum 3) = Some 3 /\ 1 <= 2 <= 3 /\
  (forall i, 1 <= i < 2 -> page_scraped b i /\ next_taken b i) /\
  page_throws b 2 message /\
  pageListings_of b 1 <> [] /\
  fst (runScraper b id url (JNum 3) empty_world) = close b /\
  get_job (jobs w') id = Finished failed 0 0 [] (Some message) None /\
  exists tr,
    trace w' = trace empty_world ++ tr /\
    writes id tr
      = job_started :: map (fun i => job_on_page i (JNum 3)) (seqZ 1 2)
        ++ [job_failed message] /\
    last (calls tr) = Some browser_close.
Proof.
  intros b id url message w'.
  assert (Hs : session_acquired b) by (split; reflexivity).
  assert (Hg : goto b = Returned tt) by reflexivity.
  assert (Hm : ToNumber (JNum 3) = Some 3) by reflexivity.
  assert (Hk : 1 <= 2 <= 3) by lia.
  assert (Hb : forall i, 1 <= i < 2 -> page_scraped b i /\ next_taken b i).
  { intros i Hi. assert (i = 1) as -> by lia.
    split; [split; [reflexivity | by eexists] | by repeat split]. }
  assert (Ht : page_throws b 2 message) by (right; split; reflexivity).
  assert (Hl : pageListings_of b 1 <> []) by discriminate.
  do 7 (split; [assumption|]).
  exact (page_failure_discards_the_listings b id url (JNum 3) 3 2 message
           empty_world Hs Hg Hm Hk Hb Ht).
Defined.

(** X12.  When the navigation to the start page fails, the job fails with
    that message before any page is scraped, and the browser is closed. *)
Theorem navigation_failure_fails_the_job b jobId originUrl maxPages message w :
  session_acquired b -> goto b = Thrown message ->
  let w' := snd (runScraper b jobId originUrl maxPages w) in
  fst (runScraper b jobId originUrl maxPages w) = close b /\
  trace w'
    = trace w ++ [ev_set jobId job_started; ev_await chromium_launch;
                  ev_await browser_newPage; ev_await (page_goto originUrl);
                  ev_set jobId (job_failed message); ev_await browser_close] /\
  get_job (jobs w') jobId = Finished failed 0 0 [] (Some message) None.
Proof.
  intros [Hl Hp] Hg w'. subst w'. unfold runScraper.
  cbv [bind jobs_set await try_finally try_catch]. rewrite Hl, Hp, Hg.
  destruct (close b) as [[]|e]; cbn [fst snd jobs trace];
    (split; [reflexivity|]);
    (split; [by repeat (rewrite <- ?app_assoc; cbn [app])|]);
    unfold get_job; by rewrite lookup_insert_eq.
Qed.

Lemma navigation_failure_fails_the_job_witness :
  let b := unreachable_site in
  let id := lit "job_1" in
  let url := lit "https://a.test/" in
  let message := lit "page.goto: net::ERR_NAME_NOT_RESOLVED" in
  let w' := snd (runScraper b id url (JNum 2) empty_world) in
  session_acquired b /\ goto b = Thrown message /\
  fst (runScraper b id url (JNum 2) empty_world) = close b /\
  trace w'
    = trace empty_world
      ++ [ev_set id job_started; ev_await chromium_launch;
          ev_await browser_newPage; ev_await (page_goto url);
          ev_set id (job_failed message); ev_await browser_close] /\
  get_job (jobs w') id = Finished failed 0 0 [] (Some message) None.
Proof.
  intros b id url message w'.
  assert (Hs : session_acquired b) by (split; reflexivity).
  assert (Hg : goto b = Thrown message) by reflexivity.
  do 2 (split; [assumption|]).
  exact (navigation_failure_fails_the_job b id url (JNum 2) message
           empty_world Hs Hg).
Defined.

(** X13.  A negative [limit_pages] is truthy and is kept as the limit: the
    loop is not entered, no page is scraped, and the job is completed at
    once with no listing. *)
Theorem negative_limit_scrapes_nothing b jobId url n w :
  n < 0 -> url <> [] -> session_acquired b -> goto b = Returned tt ->
  let w' := snd (post_scrape b jobId (Some url) (JNum n) w) in
  fst (post_scrape b jobId (Some url) (JNum n) w)
    = Returned (JobStarted jobId) /\
  trace w'
    = trace w ++ [ev_set jobId job_queued; ev_set jobId job_started;
                  ev_await chromium_launch; ev_await browser_newPage;
                  ev_await (page_goto url);
                  ev_set jobId (job_completed [] (now_ISO b));
                  ev_await browser_close] /\
  get_job (jobs w') jobId
    = Finished completed 100 0 [] None (Some (now_ISO b)).
Proof.
  intros Hn Hurl Hs Hg w'. subst w'.
  destruct url as [|c url]; [done|]. unfold post_scrape.
  assert (js_or (JNum n) (JNum 1) = JNum n) as ->.
  { unfold js_or. cbn [truthy].
    by replace (n =? 0) with false by (symmetry; apply Z.eqb_neq; lia). }
  cbv [bind detached]. cbn [jobs_set fst snd].
  rewrite (runScraper_after_navigation _ _ _ _ _ Hs Hg). cbn zeta.
  cbn [default_maxPages page_numbers ToNumber].
  rewrite seqZ_nil by lia. cbn [scrape_pages ret snd fst].
  unfold after. cbn [jobs trace replay ret fst snd].
  split; [reflexivity|].
  split; [by repeat (rewrite <- ?app_assoc; cbn [app])|].
  unfold get_job. by rewrite lookup_insert_eq.
Qed.

Lemma negative_limit_scrapes_nothing_witness :
  let b := single_page_site in
  let id := lit "job_1" in
  let url := lit "https://a.test/" in
  let w' := snd (post_scrape b id (Some url) (JNum (-1)) empty_world) in
  -1 < 0 /\ url <> [] /\ session_acquired b /\ goto b = Returned tt /\
  fst (post_scrape b id (Some url) (JNum (-1)) empty_world)
    = Returned (JobStarted id) /\
  trace w'
    = trace empty_world
      ++ [ev_set id job_queued; ev_set id job_started;
          ev_await chromium_launch; ev_await browser_newPage;
          ev_await (page_goto url);
          ev_set id (job_completed [] (now_ISO b));
          ev_await browser_close] /\
  get_job (jobs w') id = Finished completed 100 0 [] None (Some (now_ISO b)).
Proof.
  intros b id url w'.
  assert (Hn : -1 < 0) by lia.
  assert (Hu : url <> []) by discriminate.
  assert (Hs : session_acquired b) by (split; reflexivity).
  assert (Hg : goto b = Returned tt) by reflexivity.
  do 4 (split; [assumption|]).
  exact (negative_limit_scrapes_nothing b id url (-1) empty_world
           Hn Hu Hs Hg).
Defined.

(** ** The page limit as a bound *)

Lemma take_seqZ n a len :
  take n (seqZ a len) = seqZ a (Z.min (Z.of_nat n) len).
Proof.
  unfold seqZ. rewrite <- fmap_take, take_seq. do 2 f_equal. lia.
Qed.

Lemma evaluations_app t1 t2 :
  evaluations (t1 ++ t2) = (evaluations t1 + evaluations t2)%nat.
Proof.
  induction t1 as [|[id j|[]] t1 IH]; cbn [app evaluations]; lia.
Qed.

Lemma emits_and {A} (m : Async A) (P Q : outcome A -> list Event -> Prop) :
  emits m P -> emits m Q -> emits m (fun r tr => P r tr /\ Q r tr).
Proof.
  intros HP HQ w. destruct (HP w) as (tr & Ht & Hj & Hp).
  destruct (HQ w) as (tr' & Ht' & _ & Hq).
  rewrite Ht in Ht'. apply app_inv_head in Ht'. subst tr'.
  exists tr. auto.
Qed.

Lemma scrape_pages_evaluations b jobId maxPages pages allListings :
  emits (scrape_pages b jobId maxPages pages allListings)
    (fun _ tr => (evaluations tr <= length (writes jobId tr))%nat).
Proof.
  revert allListings. induction pages as [|i pages IH]; intros acc.
  - emit. cbn. lia.
  - cbn [scrape_pages]. emit;
      try (eapply emits_weaken; [apply IH|]; intros r tr Htr; cbn beta in *);
      cbn [evaluations writes]; rewrite decide_True by done;
      cbn [length]; lia.
Qed.

Lemma filter_page_updates (maxPages : JsValue) (l : list Z) :
  filter (fun j => is_Some (currentPage j))
         (map (fun i => job_on_page i maxPages) l)
  = map (fun i => job_on_page i maxPages) l.
Proof.
  induction l as [|x l IH]; [done|]. cbn [map].
  rewrite filter_cons_True by (cbn; eauto). by rewrite IH.
Qed.

Lemma runScraper_evaluations b jobId originUrl maxPages :
  emits (runScraper b jobId originUrl maxPages)
    (fun r tr =>
       run_events b jobId originUrl (default_maxPages maxPages) r tr /\
       (evaluations tr
        <= length (filter (fun j => is_Some (currentPage j))
                          (writes jobId tr)))%nat).
Proof.
  apply emits_and; [apply runScraper_events|].
  unfold runScraper. emit;
    try (cbn [evaluations]; lia).
  eapply emits_weaken.
  { apply emits_and;
      [apply scrape_pages_shape | apply scrape_pages_evaluations]. }
  intros r body [(_ & [n Hn] & _) He]; cbn beta.
  assert (Hall : filter (fun j => is_Some (currentPage j)) (writes jobId body)
                 = writes jobId body).
  { rewrite Hn. apply filter_page_updates. }
  destruct r as [all|e]; cbn iota; emit;
    cbn [evaluations writes]; rewrite ?decide_True by done;
    rewrite !evaluations_app, !writes_app; cbn [evaluations writes];
    rewrite ?decide_True by done;
    rewrite filter_cons_False by (cbn; intros [? ?]; discriminate);
    rewrite app_nil_r, filter_app, Hall, length_app; lia.
Qed.

Lemma js_or_number limit_pages :
  exists m, ToNumber (js_or limit_pages (JNum 1)) = Some m /\ m <> 0.
Proof.
  destruct limit_pages as [| |[]|n]; try (by exists 1).
  unfold js_or. cbn [truthy]. destruct (n =? 0) eqn:E; cbn [negb].
  - by exists 1.
  - exists n. split; [done|]. by apply Z.eqb_neq.
Qed.

Lemma job_trace_of_run b jobId url limit_pages
    (Q : outcome unit -> list Event -> Prop) :
  url <> [] ->
  emits (runScraper b jobId url (js_or limit_pages (JNum 1))) Q ->
  exists r tr,
    job_trace b jobId url limit_pages = ev_set jobId job_queued :: tr /\
    Q r tr.
Proof.
  intros Hurl HQ. destruct url as [|c url]; [done|].
  unfold job_trace, post_scrape. cbv [bind detached jobs_set ret].
  cbn [fst snd jobs trace empty_world app].
  match goal with
  | |- context [runScraper b jobId ?u ?mp ?W] =>
      destruct (HQ W) as (tr & Ht & _ & Hr)
  end.
  cbn [trace] in Ht. eauto.
Qed.

Lemma job_trace_run b jobId url limit_pages :
  url <> [] ->
  exists r tr,
    job_trace b jobId url limit_pages = ev_set jobId job_queued :: tr /\
    run_events b jobId url (js_or limit_pages (JNum 1)) r tr /\
    (evaluations tr
     <= length (filter (fun j => is_Some (currentPage j))
                       (writes jobId tr)))%nat.
Proof.
  intros Hurl.
  destruct (job_trace_of_run b jobId url limit_pages _ Hurl
              (runScraper_evaluations b jobId url _))
    as (r & tr & E & Hr & He).
  assert (Hd : default_maxPages (js_or limit_pages (JNum 1))
               = js_or limit_pages (JNum 1))
    by (by destruct limit_pages as [| |[]|[]]).
  rewrite Hd in Hr. eauto.
Qed.

Lemma final_record_terminal b f :
  final_record b f -> terminal (status f) = true /\ currentPage f = None.
Proof. by intros [e|l]. Qed.

(** X14.  The updates of a job count its pages 1, 2, ..., [n] without a
    gap, and [n] is at most the limit.  No page is evaluated that was not
    announced by an update, and after the updates comes at most one more
    record, a terminal one. *)
Theorem never_more_pages_than_the_limit b jobId url limit_pages :
  url <> [] ->
  let maxPages := js_or limit_pages (JNum 1) in
  let tr := job_trace b jobId url limit_pages in
  exists (n : nat) fin m,
    writes jobId tr
      = job_queued :: job_started
        :: map (fun i => job_on_page i maxPages) (seqZ 1 (Z.of_nat n))
        ++ fin /\
    (fin = [] \/ exists f, fin = [f] /\ terminal (status f) = true) /\
    (evaluations tr <= n)%nat /\
    ToNumber maxPages = Some m /\ Z.of_nat n <= Z.max 0 m.
Proof.
  intros Hurl maxPages tr. subst tr.
  destruct (job_trace_run b jobId url limit_pages Hurl)
    as (r & tr & -> & Hr & He).
  destruct (js_or_number limit_pages) as (m & Hm & _). fold maxPages in Hm, Hr.
  destruct (run_events_writes _ _ _ _ _ _ Hr) as (n0 & fin & Hw & Hfin).
  unfold page_numbers in Hw. rewrite Hm, take_seqZ in Hw.
  set (k := Z.min (Z.of_nat n0) m) in *.
  assert (Hseq : seqZ 1 k = seqZ 1 (Z.of_nat (Z.to_nat k))).
  { destruct (decide (0 <= k)) as [Hk|Hk]; [by rewrite Z2Nat.id|].
    rewrite seqZ_nil by lia. by replace (Z.to_nat k) with 0%nat by lia. }
  assert (Hfin' : filter (fun j => is_Some (currentPage j)) fin = []).
  { destruct Hfin as [->|(f & -> & Hf)]; [done|].
    apply final_record_terminal in Hf as [_ Hf].
    rewrite filter_cons_False; [done|]. rewrite Hf. by intros [? ?]. }
  exists (Z.to_nat k), fin, m. split; [|split; [|split; [|split]]].
  - cbn [writes]. rewrite decide_True by done. by rewrite Hw, Hseq.
  - destruct Hfin as [->|(f & -> & Hf)]; [by left|right].
    exists f. split; [done|]. by apply final_record_terminal in Hf as [? _].
  - cbn [evaluations]. rewrite Hw in He.
    rewrite filter_cons_False in He by (cbn; intros [? ?]; discriminate).
    rewrite filter_app, filter_page_updates, Hfin', app_nil_r in He.
    by rewrite length_map, length_seqZ in He.
  - exact Hm.
  - lia.
Qed.

Lemma never_more_pages_than_the_limit_witness :
  let b := two_page_site in
  let id := lit "job_1" in
  let url := lit "https://a.test/" in
  let maxPages := js_or (JNum 3) (JNum 1) in
  let tr := job_trace b id url (JNum 3) in
  url <> [] /\
  exists (n : nat) fin m,
    writes id tr
      = job_queued :: job_started
        :: map (fun i => job_on_page i maxPages) (seqZ 1 (Z.of_nat n))
        ++ fin /\
    (fin = [] \/ exists f, fin = [f] /\ terminal (status f) = true) /\
    (evaluations tr <= n)%nat /\
    ToNumber maxPages = Some m /\ Z.of_nat n <= Z.max 0 m.
Proof.
  intros b id url maxPages tr.
  assert (Hu : url <> []) by discriminate.
  split; [assumption|].
  exact (never_more_pages_than_the_limit b id url (JNum 3) Hu).
Defined.

(** ** What a poll is answered *)

(** X15.  Whatever the polls of a job find, [GET /job/:jobId] answers with
    a pending body for [queued] and [running], and with a full body
    otherwise, in which [count] is the length of [data] and [data] has no
    link twice.  A completed job shows 100, no error and the time of its
    completion; a failed one shows 0, no data, no time and its message. *)
Theorem responses_are_consistent b jobId url limit_pages others tr :
  interleaved (job_trace b jobId url limit_pages) others tr ->
  writes jobId others = [] ->
  Forall (fun j =>
            match respond (Some j) with
            | NotFound => False
            | Pending st _ _ _ => st = queued \/ st = running
            | Finished st p n d e t =>
                n = Z.of_nat (length d) /\ NoDup (map link d) /\
                ((st = completed /\ p = 100 /\ e = None /\
                  t = Some (now_ISO b)) \/
                 (st = failed /\ p = 0 /\ d = [] /\ t = None /\
                  exists message, e = Some message))
            end)
         (observed jobId tr).
Proof.
  intros Htr Hothers. apply Forall_forall. intros j Hj%observed_elem.
  rewrite (interleaved_writes jobId _ _ _ Htr Hothers) in Hj.
  destruct (job_writes b jobId url limit_pages)
    as [Hw|(n & fin & Hw & Hfin)]; rewrite Hw in Hj;
    [by apply elem_of_nil in Hj|].
  apply elem_of_cons in Hj as [->|Hj]; [cbn; auto|].
  apply elem_of_cons in Hj as [->|Hj]; [cbn; auto|].
  apply elem_of_app in Hj as [Hj|Hj].
  - apply page_records_elem in Hj as (i & -> & _). cbn. auto.
  - destruct Hfin as [->|(f & -> & Hf)]; [by apply elem_of_nil in Hj|].
    apply list_elem_of_singleton in Hj. subst j.
    destruct Hf as [message|all]; cbn.
    + split; [done|]. split; [constructor|]. right. eauto 10.
    + split; [by destruct (Z.of_nat _ =? 0) eqn:E; [apply Z.eqb_eq in E|]|].
      split; [apply dedupe_NoDup|]. by left.
Qed.

Example responses_to_the_polls_of_a_job :
  map (fun j => respond (Some j))
      (polls single_page_site (lit "job_1") (lit "https://a.test/") (JNum 1))
  = [Pending running 0 None None; Pending running 0 None None;
     Pending running 0 None None;
     Pending running 100 (Some 1) (Some (JNum 1));
     Pending running 100 (Some 1) (Some (JNum 1));
     Pending running 100 (Some 1) (Some (JNum 1));
     Finished completed 100 2
       [listing "Flat 300,000" "300,000" "N/A" "https://a.test/1";
        listing "Villa 1,200,000" "1,200,000" "N/A" "https://a.test/2"]
       None (Some (lit "2024-05-01T10:00:00.000Z"));
     Finished completed 100 2
       [listing "Flat 300,000" "300,000" "N/A" "https://a.test/1";
        listing "Villa 1,200,000" "1,200,000" "N/A" "https://a.test/2"]
       None (Some (lit "2024-05-01T10:00:00.000Z"))].
Proof. reflexivity. Qed.

Lemma responses_are_consistent_witness :
  let b := two_page_site in
  let id := lit "job_1" in
  let url := lit "https://a.test/" in
  let others := job_trace crashing_browser (lit "job_2") url (JNum 2) in
  let tr := alternate (job_trace b id url (JNum 3)) others in
  interleaved (job_trace b id url (JNum 3)) others tr /\
  writes id others = [] /\
  Forall (fun j =>
            match respond (Some j) with
            | NotFound => False
            | Pending st _ _ _ => st = queued \/ st = running
            | Finished st p n d e t =>
                n = Z.of_nat (length d) /\ NoDup (map link d) /\
                ((st = completed /\ p = 100 /\ e = None /\
                  t = Some (now_ISO b)) \/
                 (st = failed /\ p = 0 /\ d = [] /\ t = None /\
                  exists message, e = Some message))
            end)
         (observed id tr).
Proof.
  intros b id url others tr.
  assert (Hi : interleaved (job_trace b id url (JNum 3)) others tr)
    by apply interleaved_alternate.
  assert (Ho : writes id others = []) by reflexivity.
  do 2 (split; [assumption|]).
  exact (responses_are_consistent b id url (JNum 3) others tr Hi Ho).
Defined.

(** ** Where the listings come from *)

Lemma extract_page_scraped b i links :
  evaluate_links (on_page b i) = Returned links ->
  Forall (scraped_from b) (extract_page links).
Proof.
  intros E. apply Forall_forall. intros r Hr.
  apply list_elem_of_omap in Hr as (a & Ha & Hr). by exists i, links, a.
Qed.

Lemma scrape_pages_scraped b jobId maxPages pages allListings :
  Forall (scraped_from b) allListings ->
  emits (scrape_pages b jobId maxPages pages allListings)
    (fun r tr =>
       match r with
       | Returned all => Forall (scraped_from b) all
       | Thrown _ => True
       end).
Proof.
  revert allListings. induction pages as [|i pages IH]; intros acc Hacc.
  - by emit.
  - cbn [scrape_pages].
    destruct (evaluate_links (on_page b i)) as [links|e] eqn:E.
    + assert (Hall : Forall (scraped_from b) (acc ++ extract_page links))
        by (apply Forall_app; split;
            [exact Hacc | by eapply extract_page_scraped]).
      emit; try done;
        (eapply emits_weaken; [by apply IH|]); by intros [].
    + by emit.
Qed.

Lemma dedupe_subset l r : r ∈ dedupe l -> r ∈ l.
Proof.
  intros H%dedupe_elem. unfold last_with_link in H.
  apply last_Some_elem_of in H. by apply list_elem_of_filter in H as [_ ?].
Qed.

Lemma runScraper_scraped b jobId originUrl maxPages :
  emits (runScraper b jobId originUrl maxPages)
    (fun _ tr =>
       Forall (fun j => Forall (scraped_from b) (data j)) (writes jobId tr)).
Proof.
  unfold runScraper. emit;
    try (cbn [writes]; rewrite ?decide_True by done;
         by repeat (apply Forall_cons; split; [apply Forall_nil_2|])).
  eapply emits_weaken.
  { apply emits_and;
      [apply scrape_pages_shape | by apply scrape_pages_scraped]. }
  intros r body [(_ & [n Hn] & _) Hall]; cbn beta.
  assert (Hbody : Forall (fun j => Forall (scraped_from b) (data j))
                         (writes jobId body)).
  { rewrite Hn. apply Forall_forall. intros j (i & -> & _)%list_elem_of_fmap.
    constructor. }
  destruct r as [all|e]; cbn iota; emit;
    cbn [writes]; rewrite ?decide_True by done;
    rewrite !writes_app; cbn [writes]; rewrite ?decide_True by done;
    rewrite ?app_nil_r;
    (apply Forall_cons; split; [apply Forall_nil_2|]);
    (apply Forall_app; split; [exact Hbody|]);
    (apply Forall_cons; split; [|constructor]);
    cbn [data job_completed job_failed].
  - apply Forall_forall. intros x Hx%dedupe_subset.
    rewrite Forall_forall in Hall. by apply Hall.
  - apply Forall_nil_2.
Qed.

Lemma extract_anchor_fields a r :
  extract_anchor a = Some r ->
  link r = href a /\
  (area r = NOT_AVAILABLE \/ (area r <> [] /\ digits (area r))).
Proof.
  unfold extract_anchor.
  destruct (includes CATEGORY_MARKER (innerText a)); [discriminate|].
  destruct (price_match (innerText a)) as [p|]; [|discriminate].
  intros [= <-]. cbn [link area]. split; [done|].
  destruct (area_match (innerText a)) as [g|] eqn:Hg; [|by left].
  destruct (area_match_leftmost _ _ Hg) as (pre & s & _ & Hat & _).
  destruct (area_at_sound _ _ Hat) as (ws & post & _ & Hne & Hds & _).
  right. destruct g as [|c g]; [done|]. by split.
Qed.

(** X16.  Every listing that a poll of a job is served was extracted from
    an anchor that the browser showed on one of the pages: its link is
    the [href] of that anchor, its price is a thousands-grouped token of
    the anchor text, the text does not hold the category phrase, and its
    area is ['N/A'] or a run of digits. *)
Theorem served_listings_come_from_the_pages b jobId url limit_pages
    others tr :
  interleaved (job_trace b jobId url limit_pages) others tr ->
  writes jobId others = [] ->
  Forall (fun j =>
            Forall (fun r =>
                      exists i links a,
                        evaluate_links (on_page b i) = Returned links /\
                        a ∈ links /\ extract_anchor a = Some r /\
                        link r = href a /\
                        price_token (price r) /\
                        occurs_in (price r) (innerText a) /\
                        ~ occurs_in CATEGORY_MARKER (innerText a) /\
                        (area r = NOT_AVAILABLE \/
                         (area r <> [] /\ digits (area r))))
                   (data j))
         (observed jobId tr).
Proof.
  intros Htr Hothers. apply Forall_forall. intros j Hj%observed_elem.
  rewrite (interleaved_writes jobId _ _ _ Htr Hothers) in Hj.
  assert (Hdata : Forall (scraped_from b) (data j)).
  { destruct (decide (url = [])) as [->|Hurl].
    - by apply elem_of_nil in Hj.
    - destruct (job_trace_of_run b jobId url limit_pages _ Hurl
                  (runScraper_scraped b jobId url _)) as (r & tr' & E & Hall).
      rewrite E in Hj. cbn [writes] in Hj. rewrite decide_True in Hj by done.
      apply elem_of_cons in Hj as [->|Hj]; [apply Forall_nil_2|].
      rewrite Forall_forall in Hall. by apply Hall. }
  eapply Forall_impl; [exact Hdata|].
  intros r (i & links & a & E & Ha & Hr). exists i, links, a.
  destruct (extract_anchor_fields a r Hr) as [Hl Harea].
  destruct (extract_anchor_price a r Hr) as [Hp Ho].
  repeat (split; [assumption|]). split; [|exact Harea].
  intros Hm. assert (extract_anchor a = None) as E'; [|congruence].
  apply extract_anchor_None. by left.
Qed.

Lemma served_listings_come_from_the_pages_witness :
  let b := two_page_site in
  let id := lit "job_1" in
  let url := lit "https://a.test/" in
  let others := job_trace crashing_browser (lit "job_2") url (JNum 2) in
  let tr := alternate (job_trace b id url (JNum 3)) others in
  interleaved (job_trace b id url (JNum 3)) others tr /\
  writes id others = [] /\
  Forall (fun j =>
            Forall (fun r =>
                      exists i links a,
                        evaluate_links (on_page b i) = Returned links /\
                        a ∈ links /\ extract_anchor a = Some r /\
                        link r = href a /\
                        price_token (price r) /\
                        occurs_in (price r) (innerText a) /\
                        ~ occurs_in CATEGORY_MARKER (innerText a) /\
                        (area r = NOT_AVAILABLE \/
                         (area r <> [] /\ digits (area r))))
                   (data j))
         (observed id tr).
Proof.
  intros b id url others tr.
  assert (Hi : interleaved (job_trace b id url (JNum 3)) others tr)
    by apply interleaved_alternate.
  assert (Ho : writes id others = []) by reflexivity.
  do 2 (split; [assumption|]).
  exact (served_listings_come_from_the_pages b id url (JNum 3) others tr
           Hi Ho).
Defined.

(** ** Turns *)

Lemma by_turns_interleaved t others tr :
  by_turns t others tr -> interleaved t others tr.
Proof.
  induction 1 as [|e t others tr _ IH|sync c t others tr _ _ IH].
  - constructor.
  - by constructor.
  - induction sync as [|e sync IHs]; cbn [app]; by constructor.
Qed.

Lemma views_turn jobId cur sync c tr :
  Forall synchronous sync ->
  exists cur',
    views jobId cur (sync ++ ev_await c :: tr) = cur' :: views jobId cur' tr.
Proof.
  intros Hsync. revert cur.
  induction Hsync as [|[id j|c'] sync He _ IH]; intros cur; cbn [app views].
  - eauto.
  - apply IH.
  - done.
Qed.

Lemma by_turns_views jobId t others tr :
  by_turns t others tr -> writes jobId others = [] ->
  forall cur x,
    x ∈ views jobId cur tr -> x = cur \/ x ∈ views jobId cur t.
Proof.
  induction 1 as [|e t others tr _ IH|sync c t others tr Hsync _ IH];
    intros Hothers cur x Hx.
  - left. cbn in Hx. by apply list_elem_of_singleton in Hx.
  - destruct e as [id j|c]; cbn [views writes] in *.
    + destruct (decide (id = jobId)); [discriminate|]. by apply IH.
    + apply elem_of_cons in Hx as [->|Hx]; [by left|]. by apply IH.
  - destruct (views_turn jobId cur sync c tr Hsync) as [cur' E].
    destruct (views_turn jobId cur sync c t Hsync) as [cur'' E'].
    assert (cur'' = cur') as ->.
    { clear -Hsync E E'. revert cur E E'.
      induction Hsync as [|[id j|c'] sync He _ IH]; intros cur E E';
        cbn [app views] in *; [congruence|by eapply IH|done]. }
    rewrite E in Hx. rewrite E'. right.
    apply elem_of_cons in Hx as [->|Hx]; [apply list_elem_of_here|].
    destruct (IH Hothers cur' x Hx) as [->|Hin];
      [apply list_elem_of_here | by apply list_elem_of_further].
Qed.

(** X17.  No poll finds a job [queued]: [POST /scrape] writes [queued] and
    calls [runScraper], which writes [running] before its first [await],
    so the thread is not given up in between. *)
Theorem queued_is_never_polled b jobId url limit_pages others tr :
  by_turns (job_trace b jobId url limit_pages) others tr ->
  writes jobId others = [] ->
  Forall (fun j => status j <> queued) (observed jobId tr).
Proof.
  intros Htr Hothers. apply Forall_forall. intros j Hj.
  unfold observed in Hj. apply list_elem_of_omap in Hj as (x & Hx & Hj).
  destruct x as [j'|]; [|discriminate]. cbn in Hj. injection Hj as ->.
  destruct (by_turns_views jobId _ _ _ Htr Hothers None _ Hx) as [|Hin];
    [discriminate|].
  destruct (job_trace_cases b jobId url limit_pages)
    as [E|(r & tr' & E & Hr)]; rewrite E in Hin.
  - cbn in Hin. by apply list_elem_of_singleton in Hin.
  - cbn [views] in Hin. rewrite decide_True in Hin by done.
    assert (Hstart : exists rest, tr' = ev_set jobId job_started :: rest)
      by (destruct Hr; cbn [app]; eauto).
    destruct Hstart as [rest ->]. cbn [views] in Hin.
    rewrite decide_True in Hin by done.
    apply views_elem in Hin as [[= ->]|(j' & [= <-] & Hin)]; [done|].
    destruct (run_events_writes _ _ _ _ _ _ Hr) as (n & fin & Hw & Hfin).
    cbn [writes] in Hw. rewrite decide_True in Hw by done.
    injection Hw as Hw. rewrite Hw in Hin.
    apply elem_of_app in Hin as [Hin|Hin].
    + by apply page_records_elem in Hin as (i & -> & _).
    + destruct Hfin as [->|(f & -> & Hf)]; [by apply elem_of_nil in Hin|].
      apply list_elem_of_singleton in Hin. subst j. by destruct Hf.
Qed.

Lemma queued_is_never_polled_witness :
  let b := single_page_site in
  let id := lit "job_1" in
  let url := lit "https://a.test/" in
  let t := job_trace b id url (JNum 1) in
  let others := job_trace crashing_browser (lit "job_2") url (JNum 1) in
  let tr := take 3 t ++ others ++ drop 3 t in
  by_turns t others tr /\ writes id others = [] /\
  Forall (fun j => status j <> queued) (observed id tr).
Proof.
  intros b id url t others tr.
  assert (Hi : by_turns t others tr).
  { vm_compute.
    repeat first
      [ apply by_turns_nil
      | apply by_turns_other
      | apply (by_turns_turn []); [constructor|]
      | apply (by_turns_turn [_]); [repeat constructor|]
      | apply (by_turns_turn [_; _]); [repeat constructor|] ]. }
  assert (Ho : writes id others = []) by reflexivity.
  do 2 (split; [assumption|]).
  exact (queued_is_never_polled b id url (JNum 1) others tr Hi Ho).
Defined.

(** ** The list of jobs *)









Example list_of_two_jobs :
  let url := Some (lit "https://a.test/") in
  let w1 := snd (post_scrape crashing_browser (lit "job_1") url (JNum 1)
                   empty_world) in
  let w2 := snd (post_scrape single_page_site (lit "job_2") url (JNum 1)
                   w1) in
  get_jobs (entries (trace w2) [])
  = [(lit "job_1", failed, 0); (lit "job_2", completed, 100)].
Proof. reflexivity. Qed.


(** ** Job identifiers *)

Lemma lit_inj s s' : lit s = lit s' -> s = s'.
Proof.
  unfold lit. revert s'. induction s as [|a s IH]; intros [|a' s'];
    cbn [list_ascii_of_string map]; try discriminate; [done|].
  intros [= Ha Hs]. f_equal; [|by apply IH].
  by rewrite <- (ascii_N_embedding a), <- (ascii_N_embedding a'), Ha.
Qed.

Lemma Number_toString_inj n n' :
  Number_toString n = Number_toString n' -> n = n'.
Proof.
  unfold Number_toString. intros H%lit_inj.
  apply DecimalN.Unsigned.to_uint_inj.
  assert (Some (N.to_uint n) = Some (N.to_uint n')) as [= E]; [|exact E].
  by rewrite <- !NilEmpty.usu, H.
Qed.

Lemma Number_toString_digits n : digits (Number_toString n).
Proof.
  unfold Number_toString.
  induction (N.to_uint n)
    as [|d IH|d IH|d IH|d IH|d IH|d IH|d IH|d IH|d IH|d IH];
    cbn; constructor; done.
Qed.

Lemma split_at_first (x : N) l1 r1 l2 r2 :
  x ∉ l1 -> x ∉ l2 -> l1 ++ x :: r1 = l2 ++ x :: r2 -> l1 = l2 /\ r1 = r2.
Proof.
  revert l2. induction l1 as [|a l1 IH]; intros [|a' l2] H1 H2 E;
    cbn [app] in E.
  - by injection E.
  - injection E as -> _. exfalso. apply H2, list_elem_of_here.
  - injection E as -> _. exfalso. apply H1, list_elem_of_here.
  - injection E as -> E. apply not_elem_of_cons in H1 as [_ H1].
    apply not_elem_of_cons in H2 as [_ H2].
    destruct (IH l2 H1 H2 E) as [-> ->]. done.
Qed.

(** X20.  Two identifiers are equal exactly when they were generated in the
    same millisecond from random strings with the same nine code units
    after the first two.  An identifier begins with [job_], and its random
    part has at most nine code units. *)
Theorem generateJobId_collides_only_within_a_millisecond now random36
    now' random36' :
  (generateJobId now random36 = generateJobId now' random36' <->
   now = now' /\ substr random36 2 9 = substr random36' 2 9) /\
  starts_with (lit "job_") (generateJobId now random36) = true /\
  (length (substr random36 2 9) <= 9)%nat.
Proof.
  split; [|split].
  - split.
    + unfold generateJobId. intros E. apply app_inv_head in E.
      change (lit "_" ++ ?r) with (95%N :: r) in E.
      assert (Hd : forall n, 95%N ∉ Number_toString n).
      { intros n Hin. pose proof (Number_toString_digits n) as H.
        unfold digits in H. rewrite Forall_forall in H. by apply H in Hin. }
      apply split_at_first in E as [E1 E2]; [|apply Hd..].
      split; [by apply Number_toString_inj | exact E2].
    + intros [-> E]. unfold generateJobId. by rewrite E.
  - apply starts_with_spec. unfold generateJobId. eauto.
  - unfold substr. rewrite length_take. lia.
Qed.

Example generateJobId_example :
  generateJobId 1714557600000 (lit "0.4fzyo82mvyr")
  = lit "job_1714557600000_4fzyo82mv".
Proof. reflexivity. Qed.

(** ** Submissions *)

(** X21.  A submission without [originUrl], or with an empty one, is
    answered [400] and changes nothing: no entry is written and no browser
    call is made.  Any other submission is answered with the new
    identifier, begins by writing [queued] to its entry, and leaves an
    entry that [GET /job/:jobId] finds. *)
Theorem submission_needs_a_url b newId originUrl limit_pages w :
  let r := post_scrape b newId originUrl limit_pages w in
  (originUrl = None \/ originUrl = Some [] ->
   r = (Returned BadRequest, w)) /\
  (forall url, originUrl = Some url -> url <> [] ->
     fst r = Returned (JobStarted newId) /\
     get_job (jobs (snd r)) newId <> NotFound /\
     exists tr, trace (snd r) = trace w ++ ev_set newId job_queued :: tr).
Proof.
  intros r. subst r. split.
  - by intros [-> | ->].
  - intros url -> Hurl. destruct url as [|c url]; [done|].
    destruct (post_scrape_events b newId (Some (c :: url)) limit_pages w)
      as (tr & Ht & Hj & Hs).
    split; [reflexivity|].
    inversion Hs as [? [?|?]|c' u r tr' Hr]; subst; try congruence.
    split; [|eauto].
    unfold get_job. rewrite Hj, replay_lookup. cbn [writes].
    rewrite decide_True by done.
    destruct (last (job_queued :: writes newId tr')) as [j|] eqn:E.
    + unfold respond. by destruct (status j).
    + by apply last_None in E.
Qed.

(** ** The resolution of the percentage *)

Lemma round_pct_mono_ratio i1 m1 i2 m2 :
  1 <= i1 <= m1 -> 1 <= i2 <= m2 -> i1 * m2 <= i2 * m1 ->
  round_pct i1 m1 <= round_pct i2 m2.
Proof.
  intros H1 H2 H. unfold round_pct.
  destruct (js_mul_100_spec i1 m1 H1) as (S1 & _ & _).
  destruct (js_mul_100_spec i2 m2 H2) as (S2 & _ & _).
  apply Math_round_mono; [exact S1 | exact S2 |].
  destruct (js_div_spec i1 m1 H1) as (B1 & T1 & V1).
  destruct (js_div_spec i2 m2 H2) as (B2 & T2 & V2).
  pose proof (to_double_mono i1 m1 i2 m2) as Hle. unfold double_le in Hle.
  specialize (Hle ltac:(lia) ltac:(lia) ltac:(lia) ltac:(lia) ltac:(lia)
                  ltac:(lia) H).
  fold (js_div i1 m1) (js_div i2 m2) in Hle.
  assert (P1 : 0 < 2 ^ snd (js_div i1 m1)) by (apply Z.pow_pos_nonneg; lia).
  assert (P2 : 0 < 2 ^ snd (js_div i2 m2)) by (apply Z.pow_pos_nonneg; lia).
  unfold js_mul. apply to_double_mono; lia.
Qed.

(** X22.  With up to 200 pages every update shows at least 1, with more
    the first page shows 0.  With up to 199 pages only the last page shows
    100, with 200 or more the page before the last shows 100 as well. *)
Theorem progress_resolution i m :
  1 <= i <= m ->
  let shown j := progress (job_on_page j (JNum m)) in
  (m <= 200 -> 1 <= shown i) /\
  (201 <= m -> shown 1 = 0) /\
  (i < m -> m <= 199 -> shown i <= 99) /\
  (200 <= m -> shown (m - 1) = 100).
Proof.
  intros H shown. subst shown. cbn [progress job_on_page].
  unfold progress_of. cbn [ToNumber]. repeat split.
  - intros Hm. change 1 with (round_pct 1 200) at 1.
    apply round_pct_mono_ratio; lia.
  - intros Hm. apply Z.le_antisymm; [|apply round_pct_range; lia].
    change 0 with (round_pct 1 201).
    apply round_pct_mono_ratio; lia.
  - intros Hi Hm. change 99 with (round_pct 198 199).
    apply round_pct_mono_ratio; lia.
  - intros Hm. apply Z.le_antisymm; [apply round_pct_range; lia|].
    change 100 with (round_pct 199 200) at 1.
    apply round_pct_mono_ratio; lia.
Qed.

Lemma progress_resolution_witness :
  let shown j := progress (job_on_page j (JNum 200)) in
  1 <= 199 <= 200 /\
  (200 <= 200 -> 1 <= shown 199) /\
  (201 <= 200 -> shown 1 = 0) /\
  (199 < 200 -> 200 <= 199 -> shown 199 <= 99) /\
  (200 <= 200 -> shown (200 - 1) = 100).
Proof.
  intros shown.
  assert (H : 1 <= 199 <= 200) by lia.
  split; [assumption|].
  exact (progress_resolution 199 200 H).
Defined.
